(** * Sailing-vessel simulation core: wind, sails, rudder, turrets, deck walkability

    A shallow embedding of the simulation core of the pirate game
    (Ship, SailModule, CannonModule, WheelModule, WorldManager), of the
    parts of Game, Cannonball, Player, Enemy and the helpers around it,
    and the proofs of the properties its specification states.

    JavaScript numbers are modelled as real numbers: [Math.PI] is [PI],
    [Math.cos] is [cos], and so on; rounding is not modelled.  Every effect
    of the source is explicit: [Date.now()] and [Math.random()] are extra
    arguments, console output and projectile spawning are returned as a list
    of events, and the physics body is a record passed through the calls.
    A drawing context is given by its current transformation matrix, which
    is what [isPointInPath] reads of it. *)

From Stdlib Require Import Reals Lra Lia List String ZArith Bool.
Import ListNotations.
Open Scope R_scope.

(** ** JavaScript arithmetic on reals *)

Module JS.

Definition ltb (a b : R) : bool := if Rlt_dec a b then true else false.
Definition leb (a b : R) : bool := if Rle_dec a b then true else false.
Definition gtb (a b : R) : bool := ltb b a.
Definition geb (a b : R) : bool := leb b a.
Definition eqb (a b : R) : bool := if Req_dec_T a b then true else false.

(** [Math.trunc]: rounding toward zero. *)
Definition trunc (q : R) : Z := if Rle_dec 0 q then Zfloor q else Zceil q.

(** The remainder operator [x % y]: the result takes the sign of [x]. *)
Definition rem (x y : R) : R := x - y * IZR (trunc (x / y)).

(** [Math.atan2(y, x)] (signed zeros are not distinguished). *)
Definition atan2 (y x : R) : R :=
  if Rlt_dec 0 x then atan (y / x)
  else if Rlt_dec x 0 then
         (if Rle_dec 0 y then atan (y / x) + PI else atan (y / x) - PI)
  else if Rlt_dec 0 y then PI / 2
  else if Rlt_dec y 0 then - (PI / 2)
  else 0.

(** [while (x > bound) x -= step], run for at most [fuel] iterations. *)
Fixpoint whileAboveSub (fuel : nat) (bound step x : R) : R :=
  match fuel with
  | O => x
  | S f => if Rlt_dec bound x then whileAboveSub f bound step (x - step) else x
  end.

(** [while (x >= bound) x -= step]. *)
Fixpoint whileAtLeastSub (fuel : nat) (bound step x : R) : R :=
  match fuel with
  | O => x
  | S f => if Rle_dec bound x then whileAtLeastSub f bound step (x - step) else x
  end.

(** [while (x < bound) x += step]. *)
Fixpoint whileBelowAdd (fuel : nat) (bound step x : R) : R :=
  match fuel with
  | O => x
  | S f => if Rlt_dec x bound then whileBelowAdd f bound step (x + step) else x
  end.

(** Number of iterations that suffices for the angle-wrapping loops on [x]:
    each iteration moves [x] by a full turn toward the target interval. *)
Definition turns (x : R) : nat := S (Z.to_nat (Zceil (Rabs x / (2 * PI)))).

(** [while (a > Math.PI) a -= Math.PI * 2; while (a < -Math.PI) a += Math.PI * 2;] *)
Definition wrapPi (a : R) : R :=
  let a1 := whileAboveSub (turns a) PI (PI * 2) a in
  whileBelowAdd (turns a) (- PI) (PI * 2) a1.

(** [while (a < 0) a += Math.PI * 2; while (a >= Math.PI * 2) a -= Math.PI * 2;] *)
Definition wrapTwoPi (a : R) : R :=
  let a1 := whileBelowAdd (turns a) 0 (PI * 2) a in
  whileAtLeastSub (turns a) (PI * 2) (PI * 2) a1.

End JS.

(** ** Vectors and the physics body (Matter.js collaborator) *)

Record Vec : Type := mkVec { vx : R; vy : R }.

Module Matter.

Record Body : Type := mkBody {
  position : Vec;
  velocity : Vec;
  angle : R;
  angularVelocity : R;
  force : Vec;
  torque : R
}.

(** [Matter.Body.setVelocity(body, v)]. *)
Definition setVelocity (b : Body) (v : Vec) : Body :=
  mkBody (position b) v (angle b) (angularVelocity b) (force b) (torque b).

(** [Matter.Body.setAngularVelocity(body, w)]. *)
Definition setAngularVelocity (b : Body) (w : R) : Body :=
  mkBody (position b) (velocity b) (angle b) w (force b) (torque b).

(** [Matter.Body.applyForce(body, point, f)]: the force accumulates on the
    body, with the torque of its offset from the body's position. *)
Definition applyForce (b : Body) (point f : Vec) : Body :=
  let ox := vx point - vx (position b) in
  let oy := vy point - vy (position b) in
  mkBody (position b) (velocity b) (angle b) (angularVelocity b)
         (mkVec (vx (force b) + vx f) (vy (force b) + vy f))
         (torque b + (ox * vy f - oy * vx f)).

End Matter.

(** ** Module types (BaseModule.ts) *)

Inductive ModuleType : Type := cannon | sail | wheel | plank.

Definition ModuleType_eqb (a b : ModuleType) : bool :=
  match a, b with
  | cannon, cannon | sail, sail | wheel, wheel | plank, plank => true
  | _, _ => false
  end.

(** ** SailModule.ts *)

Module SailModule.

Record t : Type := mk {
  position : Vec;
  rotation : R;
  health : R;
  openness : R;
  angle : R
}.

(** [new SailModule(position)]. *)
Definition new (p : Vec) : t := mk p 0 100 0 0.

Definition setOpenness (percent : R) (s : t) : t :=
  mk (position s) (rotation s) (health s) (Rmax 0 (Rmin 100 percent)) (angle s).

Definition open (increment : R) (s : t) : t :=
  setOpenness (openness s + increment) s.

Definition close (increment : R) (s : t) : t :=
  setOpenness (openness s - increment) s.

Definition rotate (degrees : R) (s : t) : t :=
  mk (position s) (rotation s) (health s) (openness s)
     (Rmax (-75) (Rmin 75 (angle s + degrees))).

Definition centerAngle (increment : R) (s : t) : t :=
  if Rlt_dec 0 (angle s) then
    mk (position s) (rotation s) (health s) (openness s)
       (Rmax 0 (angle s - increment))
  else if Rlt_dec (angle s) 0 then
    mk (position s) (rotation s) (health s) (openness s)
       (Rmin 0 (angle s + increment))
  else s.

(** The angle between the wind vector and the sail's normal, in degrees:
    the first half of [calculateEfficiency]. *)
Definition angleDiffDegrees (windDirection shipAngle : R) (s : t) : R :=
  let sailAngleRad := angle s * PI / 180 in
  let sailNormalAngle := shipAngle + sailAngleRad + PI / 2 in
  let sailNormalX := cos sailNormalAngle in
  let sailNormalY := sin sailNormalAngle in
  let windDirX := cos windDirection in
  let windDirY := sin windDirection in
  let dotProduct := windDirX * sailNormalX + windDirY * sailNormalY in
  let windSailAngleDiff := acos (Rmin 1 (Rmax (-1) dotProduct)) in
  windSailAngleDiff * 180 / PI.

(** The second half of [calculateEfficiency]: the efficiency as a function
    of [angleDiffDegrees]. *)
Definition efficiencyAt (angleDiffDegrees : R) (s : t) : R :=
  let efficiency :=
    if Rle_dec angleDiffDegrees 90
    then 1 - (0.65 * angleDiffDegrees / 90)
    else 0.35 in
  let sailOpenness := openness s / 100 in
  Rmin 1 (Rmax 0.35 efficiency) * sailOpenness.

Definition calculateEfficiency (windDirection shipAngle : R) (s : t) : R :=
  efficiencyAt (angleDiffDegrees windDirection shipAngle s) s.

End SailModule.

(** ** WheelModule.ts *)

Module WheelModule.

Record t : Type := mk {
  position : Vec;
  rotation : R;
  health : R;
  wheelAngle : R;
  isPlayerControlling : bool
}.

Definition new (p : Vec) : t := mk p 0 100 0 false.

Definition setWheelAngle (degrees : R) (w : t) : t :=
  mk (position w) (rotation w) (health w)
     (Rmax (-30) (Rmin 30 degrees)) (isPlayerControlling w).

End WheelModule.

(** ** CannonModule.ts *)

(** What the cannon's [game] field can hold: nothing, an object without an
    [addCannonball] function, or the game itself. *)
Inductive GameRef : Type :=
| NoGame
| GameWithoutSpawner
| GameWithSpawner.

(** Observable effects of a call. *)
Inductive Event : Type :=
| ConsoleError (msg : string)
| ConsoleLog (msg : string)
| AddCannonball (x y angle speed : R).

Module CannonModule.

Record t : Type := mk {
  position : Vec;
  rotation : R;
  health : R;
  turretAngle : R;
  targetTurretAngle : R;
  rotationSpeed : R;
  reloadTime : R;
  lastFiredTime : R;
  isLoaded : bool;
  game : GameRef
}.

(** [new CannonModule(position, rotation)]. *)
Definition new (p : Vec) (rot : R) : t :=
  mk p rot 100 0 0 0.005 2000 0 true NoGame.

Definition withTurretAngle (a : R) (c : t) : t :=
  mk (position c) (rotation c) (health c) a (targetTurretAngle c)
     (rotationSpeed c) (reloadTime c) (lastFiredTime c) (isLoaded c) (game c).

Definition withTarget (a : R) (c : t) : t :=
  mk (position c) (rotation c) (health c) (turretAngle c) a
     (rotationSpeed c) (reloadTime c) (lastFiredTime c) (isLoaded c) (game c).

Definition withLoaded (l : bool) (c : t) : t :=
  mk (position c) (rotation c) (health c) (turretAngle c) (targetTurretAngle c)
     (rotationSpeed c) (reloadTime c) (lastFiredTime c) l (game c).

Definition withLastFired (time : R) (c : t) : t :=
  mk (position c) (rotation c) (health c) (turretAngle c) (targetTurretAngle c)
     (rotationSpeed c) (reloadTime c) time (isLoaded c) (game c).

(** The reload check that opens [update]. *)
Definition reload (now : R) (c : t) : t :=
  if negb (isLoaded c) && JS.gtb (now - lastFiredTime c) (reloadTime c)
  then withLoaded true c
  else c.

(** The normalized difference [angleDiff] that [update] computes. *)
Definition angleDiff (c : t) : R :=
  JS.wrapPi (targetTurretAngle c - turretAngle c).

(** The rotation part of [update]. *)
Definition rotateTurret (c : t) : t :=
  if JS.eqb (turretAngle c) (targetTurretAngle c) then c
  else
    let angleDiff := JS.wrapPi (targetTurretAngle c - turretAngle c) in
    let direction := if Rlt_dec 0 angleDiff then 1 else -1 in
    let moved := JS.wrapTwoPi (turretAngle c + rotationSpeed c * direction) in
    let newAngleDiff := JS.wrapPi (targetTurretAngle c - moved) in
    if JS.ltb (Rabs newAngleDiff) (rotationSpeed c)
       || negb (Bool.eqb (JS.gtb angleDiff 0) (JS.gtb newAngleDiff 0))
    then withTurretAngle (targetTurretAngle c) c
    else withTurretAngle moved c.

Definition update (now : R) (c : t) : t := rotateTurret (reload now c).

(** [fire(worldX, worldY, shipAngle, shipVelocity?)]: the result, the cannon
    afterwards and the events of the call, in order. *)
Definition fire (now : R) (worldX worldY shipAngle : R)
  (shipVelocity : option Vec) (c : t) : bool * t * list Event :=
  if negb (isLoaded c) then (false, c, [])
  else
    let firingAngle := shipAngle + turretAngle c + rotation c + PI in
    let c1 := withLastFired now (withLoaded false c) in
    let barrelLength := 20 in
    let spawnX := worldX - sin firingAngle * barrelLength in
    let spawnY := worldY + cos firingAngle * barrelLength in
    match game c1 with
    | NoGame =>
        (false, c1,
         [ConsoleError "Cannot fire cannonball: No game reference set"])
    | GameWithoutSpawner =>
        (false, c1,
         [ConsoleError
            "Cannot fire cannonball: Game reference missing addCannonball method";
          ConsoleLog "Game object:"])
    | GameWithSpawner =>
        let finalSpeed :=
          match shipVelocity with
          | Some v => 10 + sqrt (vx v * vx v + vy v * vy v) * 0.5
          | None => 10
          end in
        (true, c1,
         [AddCannonball spawnX spawnY firingAngle finalSpeed;
          ConsoleLog "Cannon fired"])
    end.

(** [aimAt(localTargetX, localTargetY)]. *)
Definition aimAt (localTargetX localTargetY : R) (c : t) : t :=
  let dx := localTargetX - vx (position c) in
  let dy := localTargetY - vy (position c) in
  let targetAngle := JS.wrapPi (JS.atan2 dy dx + PI / 2 + rotation c) in
  let validAngleRange := PI / 4 in
  if Rlt_dec validAngleRange targetAngle then withTarget validAngleRange c
  else if Rlt_dec targetAngle (- validAngleRange) then withTarget (- validAngleRange) c
  else withTarget targetAngle c.

End CannonModule.

(** ** World.ts: the wind cycle *)

Module WorldManager.

Record t : Type := mk {
  windDirection : R;
  windPower : R;
  windSystemStartTime : R
}.

(** Full cycle is 5 minutes (300000 ms). *)
Definition cycleDuration : R := 5 * 60 * 1000.

(** Position in the cycle, from the elapsed time in milliseconds. *)
Definition cyclePosition (elapsedTime : R) : R :=
  JS.rem elapsedTime cycleDuration / cycleDuration.

(** The direction [updateWind] stores, wrapped into the range [0, 2π). *)
Definition directionAt (elapsedTime : R) : R :=
  JS.wrapTwoPi (cyclePosition elapsedTime * PI * 2).

Definition northSouthAxis (direction : R) : R :=
  Rmin (Rabs (JS.rem direction PI)) (Rabs (JS.rem (direction - PI) PI)).

Definition northSouthAlignment (direction : R) : R :=
  1 - northSouthAxis direction / (PI / 2).

Definition isEastWestWind (direction : R) : bool :=
  JS.ltb (Rabs (direction - PI / 2)) (PI / 6)
  || JS.ltb (Rabs (direction - 3 * PI / 2)) (PI / 6).

Definition minWindPower (direction : R) : R :=
  if isEastWestWind direction then 0.75 else 0.5.

(** The power before the random variation is added. *)
Definition scaledPower (direction : R) : R :=
  minWindPower direction
  + northSouthAlignment direction * (2.0 - minWindPower direction).

(** The final clamp of [updateWind]. *)
Definition clampPower (p : R) : R :=
  let p1 := if Rlt_dec p 0.5 then 0.5 else p in
  if Rlt_dec 2.0 p1 then 2.0 else p1.

(** [updateWind()], with [Date.now()] and [Math.random()] as arguments. *)
Definition updateWind (currentTime random : R) (w : t) : t :=
  let elapsedTime := currentTime - windSystemStartTime w in
  let direction := directionAt elapsedTime in
  let power := scaledPower direction + (random - 0.5) * 0.1 in
  mk direction (clampPower power) (windSystemStartTime w).

End WorldManager.

(** ** The drawing context (CanvasRenderingContext2D) *)

Module Canvas.

(** The current transformation matrix of a context, the only part of its
    state that hit-testing reads: a point [(x, y)] of a path is put at
    [(a x + c y + e, b x + d y + f)] of the canvas. *)
Record Transform : Type :=
  mkTransform { a : R; b : R; c : R; d : R; e : R; f : R }.

(** A context as it is created, or after [setTransform(1, 0, 0, 1, 0, 0)]. *)
Definition identity : Transform := mkTransform 1 0 0 1 0 0.

(** [ctx.translate(tx, ty)], [ctx.rotate(angle)] and [ctx.scale(sx, sy)]
    multiply the current matrix on the right. *)
Definition translate (tx ty : R) (m : Transform) : Transform :=
  mkTransform (a m) (b m) (c m) (d m)
    (a m * tx + c m * ty + e m) (b m * tx + d m * ty + f m).

Definition rotate (angle : R) (m : Transform) : Transform :=
  mkTransform
    (a m * cos angle + c m * sin angle) (b m * cos angle + d m * sin angle)
    (c m * cos angle - a m * sin angle) (d m * cos angle - b m * sin angle)
    (e m) (f m).

Definition scale (sx sy : R) (m : Transform) : Transform :=
  mkTransform (a m * sx) (b m * sx) (c m * sy) (d m * sy) (e m) (f m).

(** Where the matrix puts a point of a path. *)
Definition apply (m : Transform) (p : Vec) : Vec :=
  mkVec (a m * vx p + c m * vy p + e m) (b m * vx p + d m * vy p + f m).

Definition det (m : Transform) : R := a m * d m - b m * c m.

(** The point of a path that the matrix puts at the canvas point [(x, y)]. *)
Definition unapply (m : Transform) (x y : R) : Vec :=
  mkVec ((d m * (x - e m) - c m * (y - f m)) / det m)
        ((a m * (y - f m) - b m * (x - e m)) / det m).

End Canvas.

(** ** The hull outline and the fixed deck obstacles (Ship statics) *)

Module Hull.

Definition bow : Vec := mkVec 190 90.
Definition bowTip : Vec := mkVec 415 0.
Definition bowBottom : Vec := mkVec 190 (-90).
Definition sternBottom : Vec := mkVec (-260) (-90).
Definition sternTip : Vec := mkVec (-345) 0.
Definition stern : Vec := mkVec (-260) 90.

Record Circle : Type := mkCircle { cx : R; cy : R; cr : R }.
Record Rect : Type := mkRect { rx : R; ry : R; rw : R; rh : R }.

Definition MASTS : list Circle :=
  [mkCircle 165 0 30; mkCircle (-35) 0 30; mkCircle (-235) 0 30].

Definition WHEEL : Rect := mkRect (-90) 0 20 40.

Definition CANNONS : list Rect :=
  [mkRect (-35) 75 30 30; mkRect 65 75 30 30; mkRect (-135) 75 30 30;
   mkRect (-35) (-75) 30 30; mkRect 65 (-75) 30 30; mkRect (-135) (-75) 30 30].

(** A path as [createHullPath] builds it. *)
Inductive Segment : Type :=
| QuadraticCurveTo (control target : Vec)
| LineTo (target : Vec)
| ClosePath.

Record Path : Type := mkPath { start : Vec; segments : list Segment }.

Definition createHullPath : Path :=
  mkPath bow
    [QuadraticCurveTo bowTip (mkVec (vx bow) (vy bowBottom));
     LineTo sternBottom;
     QuadraticCurveTo sternTip stern;
     ClosePath].

(** A point of a quadratic Bezier curve, one coordinate at a time. *)
Definition bezier (p0 c p1 u : R) : R :=
  (1 - u) * (1 - u) * p0 + 2 * (1 - u) * u * c + u * u * p1.

(** The bow curve runs from [bow] to [(bow.x, bowBottom.y)] around [bowTip];
    the stern curve from [sternBottom] to [stern] around [sternTip]. *)
Definition bowX (u : R) : R := bezier (vx bow) (vx bowTip) (vx bow) u.
Definition bowY (u : R) : R := bezier (vy bow) (vy bowTip) (vy bowBottom) u.
Definition sternX (u : R) : R := bezier (vx sternBottom) (vx sternTip) (vx stern) u.
Definition sternY (u : R) : R := bezier (vy sternBottom) (vy sternTip) (vy stern) u.

(** The parameters at which the horizontal line through [y] meets the two
    curves (both curves are linear in their ordinate). *)
Definition bowParam (y : R) : R := (90 - y) / 180.
Definition sternParam (y : R) : R := (y + 90) / 180.

(** The region that the hull path encloses, in the coordinates the path is
    written in: between the stern curve and the bow curve, between the two
    straight sides, the outline included. *)
Definition inPath (x y : R) : bool :=
  JS.leb (-90) y && JS.leb y 90
  && JS.leb (sternX (sternParam y)) x && JS.leb x (bowX (bowParam y)).

(** [ctx.isPointInPath(hullPath, x, y)] of the canvas collaborator, for a
    context whose current transform is [m]: the point is taken as it is, in
    canvas coordinates, and tested against the path as the transform places
    it.  Under a matrix that cannot be inverted the path is flattened and
    the answer is [false]. *)
Definition isPointInPath (m : Canvas.Transform) (x y : R) : bool :=
  if JS.eqb (Canvas.det m) 0 then false
  else
    let p := Canvas.unapply m x y in
    inPath (vx p) (vy p).

(** Obstacle tests shared by both versions of [isPositionOnDeck]. *)
Definition inMast (x y : R) (m : Circle) : bool :=
  let dx := x - cx m in
  let dy := y - cy m in
  JS.ltb (dx * dx + dy * dy) (cr m * cr m).

Definition inRect (x y : R) (r : Rect) : bool :=
  JS.gtb x (rx r - rw r / 2) && JS.ltb x (rx r + rw r / 2)
  && JS.gtb y (ry r - rh r / 2) && JS.ltb y (ry r + rh r / 2).

(** The box of side [moduleSize] around a module's visual position. *)
Definition inModuleBox (x y : R) (visualPos : Vec) : bool :=
  let moduleSize := 20 in
  JS.gtb x (vx visualPos - moduleSize / 2) && JS.ltb x (vx visualPos + moduleSize / 2)
  && JS.gtb y (vy visualPos - moduleSize / 2) && JS.ltb y (vy visualPos + moduleSize / 2).

Definition inStaticObstacle (x y : R) : bool :=
  existsb (inMast x y) MASTS || inRect x y WHEEL || existsb (inRect x y) CANNONS.

(** [module.type === 'wheel' && position === WHEEL || module.type === 'cannon'
    && CANNONS.some(c => c.x === position.x && c.y === position.y)]. *)
Definition isStaticObstacle (ty : ModuleType) (p : Vec) : bool :=
  (ModuleType_eqb ty wheel && JS.eqb (vx p) (rx WHEEL) && JS.eqb (vy p) (ry WHEEL))
  || (ModuleType_eqb ty cannon
      && existsb (fun c => JS.eqb (rx c) (vx p) && JS.eqb (ry c) (vy p)) CANNONS).

End Hull.

(** ** Maps keyed by module id, in insertion order (JavaScript [Map]) *)

Module IdMap.

Definition t (A : Type) : Type := list (string * A).

Fixpoint get {A : Type} (k : string) (m : t A) : option A :=
  match m with
  | [] => None
  | (k', v) :: rest => if String.eqb k k' then Some v else get k rest
  end.

Fixpoint set {A : Type} (k : string) (v : A) (m : t A) : t A :=
  match m with
  | [] => [(k, v)]
  | (k', v') :: rest =>
      if String.eqb k k' then (k', v) :: rest else (k', v') :: set k v rest
  end.

Definition delete {A : Type} (k : string) (m : t A) : t A :=
  filter (fun kv => negb (String.eqb k (fst kv))) m.

Definition mapValues {A : Type} (f : A -> A) (m : t A) : t A :=
  map (fun kv => (fst kv, f (snd kv))) m.

End IdMap.

(** The rudder and sail commands of the game loop. *)
Inductive Direction : Type := left | right | center.

(** ** Ship.ts, first version: modules as plain [ShipModule] objects *)

Module Legacy.

(** The [ShipModule] interface; [openness] and [angle] are optional. *)
Record ShipModule : Type := mkModule {
  type : ModuleType;
  mposition : Vec;
  mrotation : R;
  mhealth : R;
  openness : option R;
  angle : option R
}.

Definition withOpenness (o : option R) (m : ShipModule) : ShipModule :=
  mkModule (type m) (mposition m) (mrotation m) (mhealth m) o (angle m).

Definition withAngle (a : option R) (m : ShipModule) : ShipModule :=
  mkModule (type m) (mposition m) (mrotation m) (mhealth m) (openness m) a.

(** [value || 0] on an optional number. *)
Definition orZero (o : option R) : R :=
  match o with Some v => v | None => 0 end.

Record Ship : Type := mkShip {
  position : Vec;
  health : R;
  body : Matter.Body;
  modules : IdMap.t ShipModule;
  waterLevel : R;
  rudderAngle : R;
  sailsOpenness : R;
  currentWindDirection : R;
  currentWindPower : R;
  forwardForce : R;
  turningForce : R;
  momentum : R;
  moduleVisualPositions : IdMap.t Vec;
  playerAtWheel : bool
}.

Definition withBody (b : Matter.Body) (s : Ship) : Ship :=
  mkShip (position s) (health s) b (modules s) (waterLevel s) (rudderAngle s)
    (sailsOpenness s) (currentWindDirection s) (currentWindPower s)
    (forwardForce s) (turningForce s) (momentum s) (moduleVisualPositions s)
    (playerAtWheel s).

Definition withModules (ms : IdMap.t ShipModule) (s : Ship) : Ship :=
  mkShip (position s) (health s) (body s) ms (waterLevel s) (rudderAngle s)
    (sailsOpenness s) (currentWindDirection s) (currentWindPower s)
    (forwardForce s) (turningForce s) (momentum s) (moduleVisualPositions s)
    (playerAtWheel s).

Definition withPosition (p : Vec) (s : Ship) : Ship :=
  mkShip p (health s) (body s) (modules s) (waterLevel s) (rudderAngle s)
    (sailsOpenness s) (currentWindDirection s) (currentWindPower s)
    (forwardForce s) (turningForce s) (momentum s) (moduleVisualPositions s)
    (playerAtWheel s).

Definition withRudderAngle (a : R) (s : Ship) : Ship :=
  mkShip (position s) (health s) (body s) (modules s) (waterLevel s) a
    (sailsOpenness s) (currentWindDirection s) (currentWindPower s)
    (forwardForce s) (turningForce s) (momentum s) (moduleVisualPositions s)
    (playerAtWheel s).

Definition withWind (direction power : R) (s : Ship) : Ship :=
  mkShip (position s) (health s) (body s) (modules s) (waterLevel s) (rudderAngle s)
    (sailsOpenness s) direction power
    (forwardForce s) (turningForce s) (momentum s) (moduleVisualPositions s)
    (playerAtWheel s).

Definition withForwardForce (f : R) (s : Ship) : Ship :=
  mkShip (position s) (health s) (body s) (modules s) (waterLevel s) (rudderAngle s)
    (sailsOpenness s) (currentWindDirection s) (currentWindPower s)
    f (turningForce s) (momentum s) (moduleVisualPositions s)
    (playerAtWheel s).

Definition withTurningForce (f : R) (s : Ship) : Ship :=
  mkShip (position s) (health s) (body s) (modules s) (waterLevel s) (rudderAngle s)
    (sailsOpenness s) (currentWindDirection s) (currentWindPower s)
    (forwardForce s) f (momentum s) (moduleVisualPositions s)
    (playerAtWheel s).

Definition withMomentum (m : R) (s : Ship) : Ship :=
  mkShip (position s) (health s) (body s) (modules s) (waterLevel s) (rudderAngle s)
    (sailsOpenness s) (currentWindDirection s) (currentWindPower s)
    (forwardForce s) (turningForce s) m (moduleVisualPositions s)
    (playerAtWheel s).

(** [new Ship(x, y, ...)]: no modules, rudder centred, body at rest. *)
Definition new (x y : R) : Ship :=
  mkShip (mkVec x y) 100
    (Matter.mkBody (mkVec x y) (mkVec 0 0) 0 0 (mkVec 0 0) 0)
    [] 0 0 0 0 0 0 0 0 [] false.

(** The rudder [switch] of [applyRudder]. *)
Definition steer (direction : Direction) (rudderChangeRate rudder : R) : R :=
  match direction with
  | left => Rmax (-30) (rudder - rudderChangeRate)
  | right => Rmin 30 (rudder + rudderChangeRate)
  | center =>
      if Rlt_dec 0 rudder then Rmax 0 (rudder - rudderChangeRate)
      else if Rlt_dec rudder 0 then Rmin 0 (rudder + rudderChangeRate)
      else rudder
  end.

Definition currentSpeed (b : Matter.Body) : R :=
  sqrt (vx (Matter.velocity b) * vx (Matter.velocity b)
        + vy (Matter.velocity b) * vy (Matter.velocity b)).

(** Sum of openness and number of the open sails, as [applyRudder] counts. *)
Definition openSailPower (ms : IdMap.t ShipModule) : R * R :=
  fold_left
    (fun acc kv =>
       let m := snd kv in
       match type m, openness m with
       | sail, Some o =>
           if Rlt_dec 0 o then (fst acc + o, snd acc + 1) else acc
       | _, _ => acc
       end)
    ms (0, 0).

Definition applyRudder (direction : Direction) (s : Ship) : Ship :=
  let baseRudderChangeRate := 0.5 in
  let currentSpeed := currentSpeed (body s) in
  let s1 := withMomentum (Rmin 1.0 (momentum s * 0.95 + currentSpeed * 0.01)) s in
  let visualSpeedFactor := 0.5 + Rmin 0.7 (currentSpeed / 3) in
  let rudderChangeRate := baseRudderChangeRate * visualSpeedFactor in
  let s2 := withRudderAngle (steer direction rudderChangeRate (rudderAngle s1)) s1 in
  let '(sailPower, sailCount) := openSailPower (modules s2) in
  let avgSailPower := if Rlt_dec 0 sailCount then sailPower / (sailCount * 100) else 0 in
  let baseTurningPower := 0.000015 in
  let turnEffectiveness := Rmax 0.3 (1 - (momentum s2 * 0.7)) in
  let sailFactor := 0.3 + 0.7 * avgSailPower in
  let s3 := withTurningForce
              (rudderAngle s2 * baseTurningPower * turnEffectiveness * sailFactor) s2 in
  let s4 :=
    if JS.gtb currentSpeed 0.05 || JS.gtb avgSailPower 0
    then withBody (Matter.setAngularVelocity (body s3)
                     (Matter.angularVelocity (body s3) + turningForce s3)) s3
    else s3 in
  withPosition (Matter.position (body s4)) s4.

(** The efficiency of one sail at a given wind-versus-normal angle in degrees
    ([efficiency] after the clamp in [calculateSailEfficiency]). *)
Definition angleEfficiency (angleDiffDegrees : R) : R :=
  let efficiency :=
    if Rle_dec angleDiffDegrees 90
    then 1.0 - (0.65 * angleDiffDegrees / 90)
    else 0.35 in
  Rmin 1 (Rmax 0.35 efficiency).

(** The angle between the wind and the normal of a sail, in degrees. *)
Definition angleDiffDegrees (windDirection bodyAngle sailAngle : R) : R :=
  let sailAngleRad := sailAngle * PI / 180 in
  let sailNormalAngle := bodyAngle + sailAngleRad + PI / 2 in
  let sailNormalX := cos sailNormalAngle in
  let sailNormalY := sin sailNormalAngle in
  let physicsWindDirection := windDirection in
  let windDirX := cos physicsWindDirection in
  let windDirY := sin physicsWindDirection in
  let dotProduct := windDirX * sailNormalX + windDirY * sailNormalY in
  let windSailAngleDiff := acos (Rmin 1 (Rmax (-1) dotProduct)) in
  windSailAngleDiff * 180 / PI.

(** What one open sail adds to [totalEfficiency], from its angle difference. *)
Definition sailTerm (angleDiffDegrees sailAngle sailOpennessPercent : R) : R :=
  let efficiency := angleEfficiency angleDiffDegrees in
  let sailOpenness := sailOpennessPercent / 100 in
  let angleBonus :=
    if Rlt_dec 0 efficiency then Rmin 0.2 (Rabs sailAngle / 75 * 0.2) else 0 in
  (efficiency + angleBonus) * sailOpenness.

Definition calculateSailEfficiency (s : Ship) : R :=
  let '(totalEfficiency, sailCount) :=
    fold_left
      (fun acc kv =>
         let m := snd kv in
         if ModuleType_eqb (type m) sail && JS.gtb (orZero (openness m)) 0 then
           let sailAngle := orZero (angle m) in
           let d := angleDiffDegrees (currentWindDirection s)
                      (Matter.angle (body s)) sailAngle in
           (fst acc + sailTerm d sailAngle (orZero (openness m)), snd acc + 1)
         else acc)
      (modules s) (0, 0) in
  if Rlt_dec 0 sailCount then Rmin 1.5 (totalEfficiency / sailCount) else 0.

Definition rotateSails (direction : Direction) (s : Ship) : Ship :=
  let rotationRate := 1.25 in
  withModules
    (IdMap.mapValues
       (fun m =>
          match type m with
          | sail =>
              let a := orZero (angle m) in
              withAngle
                (Some
                   match direction with
                   | left => Rmax (-75) (a - rotationRate)
                   | right => Rmin 75 (a + rotationRate)
                   | center =>
                       if Rlt_dec 0 a then Rmax 0 (a - rotationRate)
                       else if Rlt_dec a 0 then Rmin 0 (a + rotationRate)
                       else a
                   end) m
          | _ => m
          end)
       (modules s)) s.

(** Total openness, number of sails, and whether any sail is open. *)
Definition sailStats (ms : IdMap.t ShipModule) : R * R * bool :=
  fold_left
    (fun acc kv =>
       let m := snd kv in
       let '(total, count, anyOpen) := acc in
       match type m with
       | sail =>
           let o := orZero (openness m) in
           (total + o, count + 1, anyOpen || JS.gtb o 0)
       | _ => acc
       end)
    ms (0, 0, false).

(** The hull alignment factor of [applyWindForce], from the wind angle
    relative to the ship. *)
Definition alignmentFactor (relativeWindAngle : R) : R :=
  let absRelativeAngle := Rabs relativeWindAngle in
  let angleDiffDegrees := absRelativeAngle * 180 / PI in
  let alignmentFactor :=
    if Rle_dec angleDiffDegrees 90
    then 1.0 - (0.65 * angleDiffDegrees / 90)
    else 0.35 * Rmax 0 (1 - ((angleDiffDegrees - 90) / 90)) in
  Rmax 0.1 alignmentFactor.

Definition relativeWindAngle (windDirection bodyAngle : R) : R :=
  let windDirectionX := cos windDirection in
  let windDirectionY := sin windDirection in
  let shipDirectionX := cos bodyAngle in
  let shipDirectionY := sin bodyAngle in
  JS.atan2 (windDirectionY * shipDirectionX - windDirectionX * shipDirectionY)
           (windDirectionX * shipDirectionX + windDirectionY * shipDirectionY).

Definition applyWindForce (windDirection windPower : R) (s : Ship) : Ship :=
  let s1 := withWind windDirection windPower s in
  let '(totalSailOpenness, sailCount, sailsAreOpen) := sailStats (modules s1) in
  let avgSailOpenness :=
    if Rlt_dec 0 sailCount then totalSailOpenness / sailCount else 0 in
  let momentumFactor := Rmin 0.05 (momentum s1 * 0.05) in
  let dragFactor :=
    if sailsAreOpen
    then 0.85 + (avgSailOpenness / 100) * 0.13 + momentumFactor
    else 0.85 in
  let v := Matter.velocity (body s1) in
  let s2 := withBody (Matter.setVelocity (body s1)
                        (mkVec (vx v * dragFactor) (vy v * dragFactor))) s1 in
  let v2 := Matter.velocity (body s2) in
  let s3 :=
    if negb sailsAreOpen && JS.ltb (Rabs (vx v2)) 0.05 && JS.ltb (Rabs (vy v2)) 0.05
    then withMomentum 0 (withBody (Matter.setVelocity (body s2) (mkVec 0 0)) s2)
    else s2 in
  if sailsAreOpen then
    let sailEfficiency := calculateSailEfficiency s3 in
    let shipDirectionX := cos (Matter.angle (body s3)) in
    let shipDirectionY := sin (Matter.angle (body s3)) in
    let relativeWindAngle := relativeWindAngle windDirection (Matter.angle (body s3)) in
    let s4 := withForwardForce (windPower * sailEfficiency * 0.024) s3 in
    let alignmentFactor := alignmentFactor relativeWindAngle in
    let effectiveForce :=
      if Rlt_dec 0 sailEfficiency then forwardForce s4 * alignmentFactor else 0 in
    let forceVector :=
      mkVec (shipDirectionX * effectiveForce) (shipDirectionY * effectiveForce) in
    withBody (Matter.applyForce (body s4) (Matter.position (body s4)) forceVector) s4
  else s3.

Definition adjustSails (openPercent : R) (s : Ship) : Ship :=
  withModules
    (IdMap.mapValues
       (fun m =>
          match type m with
          | sail => withOpenness (Some (Rmax 0 (Rmin 100 openPercent))) m
          | _ => m
          end)
       (modules s)) s.

Definition openSails (s : Ship) : Ship :=
  withModules
    (IdMap.mapValues
       (fun m =>
          match type m, openness m with
          | sail, Some o => withOpenness (Some (Rmin 100 (o + 10))) m
          | _, _ => m
          end)
       (modules s)) s.

Definition closeSails (s : Ship) : Ship :=
  withModules
    (IdMap.mapValues
       (fun m =>
          match type m, openness m with
          | sail, Some o => withOpenness (Some (Rmax 0 (o - 10))) m
          | _, _ => m
          end)
       (modules s)) s.

(** [getModuleVisualPosition(id)]. *)
Definition getModuleVisualPosition (id : string) (s : Ship) : Vec :=
  match IdMap.get id (moduleVisualPositions s) with
  | Some p => p
  | None =>
      match IdMap.get id (modules s) with
      | Some m => mposition m
      | None => mkVec 0 0
      end
  end.

(** World coordinates to the ship's local frame. *)
Definition toLocal (x y : R) (s : Ship) : Vec :=
  let localX := x - vx (position s) in
  let localY := y - vy (position s) in
  let cosA := cos (- Matter.angle (body s)) in
  let sinA := sin (- Matter.angle (body s)) in
  mkVec (localX * cosA - localY * sinA) (localX * sinA + localY * cosA).

(** The bounding approximation of the hull used without a drawing context. *)
Definition inHullApprox (rotatedX rotatedY : R) : bool :=
  JS.geb rotatedX (-300) && JS.leb rotatedX 320
  && JS.geb rotatedY (-90) && JS.leb rotatedY 90
  && negb (JS.gtb rotatedX 150
           && JS.gtb (Rabs rotatedY)
                (90 * (1 - ((rotatedX - 150) / 175) * ((rotatedX - 150) / 175))))
  && negb (JS.ltb rotatedX (-220)
           && JS.gtb (Rabs rotatedY)
                (90 * (1 - ((Rabs rotatedX - 220) / 85) * ((Rabs rotatedX - 220) / 85)))).

(** The hull test of [isPositionOnDeck].  The optional argument [ctx] is
    the drawing context, given by its current transform; [None] when the
    caller passes none. *)
Definition isInHull (ctx : option Canvas.Transform) (rotatedX rotatedY : R) : bool :=
  match ctx with
  | Some m => Hull.isPointInPath m rotatedX rotatedY
  | None => inHullApprox rotatedX rotatedY
  end.

(** The loop over [this.modules.entries()] that closes [isPositionOnDeck]. *)
Definition inDynamicObstacle (rotatedX rotatedY : R) (s : Ship) : bool :=
  existsb
    (fun kv =>
       let id := fst kv in
       let m := snd kv in
       negb (Hull.isStaticObstacle (type m) (mposition m))
       && Hull.inModuleBox rotatedX rotatedY (getModuleVisualPosition id s))
    (modules s).

Definition isPositionOnDeck (x y : R) (ctx : option Canvas.Transform) (s : Ship) : bool :=
  let p := toLocal x y s in
  if negb (isInHull ctx (vx p) (vy p)) then false
  else if Hull.inStaticObstacle (vx p) (vy p) then false
  else if inDynamicObstacle (vx p) (vy p) s then false
  else true.

(** The candidates of [findSafeDismountPosition], in the order of its two
    loops: [increments] rings of [steps] directions each. *)
Definition dismountCandidates (startX startY : R) (s : Ship) : list Vec :=
  let p := toLocal startX startY s in
  let searchRadius := 60 in
  let steps := 8%nat in
  let increments := 5%nat in
  flat_map
    (fun inc =>
       let stepDistance := (searchRadius * INR inc) / INR increments in
       map
         (fun i =>
            let a := (INR i / INR steps) * PI * 2 in
            let testLocalX := vx p + cos a * stepDistance in
            let testLocalY := vy p + sin a * stepDistance in
            let ba := Matter.angle (body s) in
            mkVec (vx (position s) + testLocalX * cos ba - testLocalY * sin ba)
                  (vy (position s) + testLocalX * sin ba + testLocalY * cos ba))
         (seq 0 steps))
    (seq 1 increments).

Definition findSafeDismountPosition (startX startY : R) (ctx : option Canvas.Transform)
  (s : Ship) : Vec :=
  if isPositionOnDeck startX startY ctx s then mkVec startX startY
  else
    match find (fun c => isPositionOnDeck (vx c) (vy c) ctx s)
               (dismountCandidates startX startY s) with
    | Some c => c
    | None => mkVec (vx (position s)) (vy (position s))
    end.

(** The transform under which [testWalkableArea] tests its grid: the one
    the context arrives with, moved to the vessel's position and turned by
    its angle. *)
Definition walkableAreaTransform (m : Canvas.Transform) (s : Ship) : Canvas.Transform :=
  Canvas.rotate (Matter.angle (body s))
    (Canvas.translate (vx (position s)) (vy (position s)) m).

(** The two tests that [testWalkableArea] makes at the grid point [(x, y)]
    of the vessel's frame: [insideHull] and [isWalkable]. *)
Definition testWalkablePoint (m : Canvas.Transform) (x y : R) (s : Ship) : bool * bool :=
  let ctx := walkableAreaTransform m s in
  let worldX :=
    vx (position s) + x * cos (Matter.angle (body s)) - y * sin (Matter.angle (body s)) in
  let worldY :=
    vy (position s) + x * sin (Matter.angle (body s)) + y * cos (Matter.angle (body s)) in
  (Hull.isPointInPath ctx x y, isPositionOnDeck worldX worldY (Some ctx) s).

(** [ensureModuleVisualPosition(id, module)]: records the visual position and
    snaps the module to a canonical slot; returns the module as it is left. *)
Definition snapToSlot (m : ShipModule) : ShipModule :=
  let p := mposition m in
  let near (sx sy : R) :=
    JS.ltb (Rabs (sx - vx p)) 20 && JS.ltb (Rabs (sy - vy p)) 20 in
  let moved (q : Vec) :=
    mkModule (type m) q (mrotation m) (mhealth m) (openness m) (angle m) in
  match type m with
  | wheel =>
      if JS.eqb (Hull.rx Hull.WHEEL) (vx p) && JS.eqb (Hull.ry Hull.WHEEL) (vy p)
      then moved (mkVec (Hull.rx Hull.WHEEL) (Hull.ry Hull.WHEEL)) else m
  | sail =>
      match find (fun mast => near (Hull.cx mast) (Hull.cy mast)) Hull.MASTS with
      | Some mast => moved (mkVec (Hull.cx mast) (Hull.cy mast))
      | None => m
      end
  | cannon =>
      match find (fun c => near (Hull.rx c) (Hull.ry c)) Hull.CANNONS with
      | Some c => moved (mkVec (Hull.rx c) (Hull.ry c))
      | None => m
      end
  | plank => m
  end.

Definition addModule (id : string) (m : ShipModule) (s : Ship) : Ship :=
  mkShip (position s) (health s) (body s)
    (IdMap.set id (snapToSlot m) (modules s))
    (waterLevel s) (rudderAngle s)
    (sailsOpenness s) (currentWindDirection s) (currentWindPower s)
    (forwardForce s) (turningForce s) (momentum s)
    (IdMap.set id (mposition m) (moduleVisualPositions s))
    (playerAtWheel s).

End Legacy.

(** ** Ship.ts, second version: typed module collections *)

Module Typed.

(** What [this.modules] exposes of each stored module: the [BaseModule]
    fields that the ship reads through that map. *)
Record ModuleView : Type := mkView {
  type : ModuleType;
  mposition : Vec
}.

Record Ship : Type := mkShip {
  position : Vec;
  health : R;
  body : Matter.Body;
  modules : IdMap.t ModuleView;
  cannons : IdMap.t CannonModule.t;
  sails : IdMap.t SailModule.t;
  wheels : IdMap.t WheelModule.t;
  waterLevel : R;
  rudderAngle : R;
  sailsOpenness : R;
  currentWindDirection : R;
  currentWindPower : R;
  forwardForce : R;
  turningForce : R;
  momentum : R;
  isRotatingSails : bool;
  sailRotationTimer : R;
  moduleVisualPositions : IdMap.t Vec;
  playerAtWheel : bool;
  game : GameRef
}.

Definition withBody (b : Matter.Body) (s : Ship) : Ship :=
  mkShip (position s) (health s) b (modules s) (cannons s) (sails s) (wheels s)
    (waterLevel s) (rudderAngle s) (sailsOpenness s) (currentWindDirection s)
    (currentWindPower s) (forwardForce s) (turningForce s) (momentum s)
    (isRotatingSails s) (sailRotationTimer s) (moduleVisualPositions s)
    (playerAtWheel s) (game s).

Definition withSails (ss : IdMap.t SailModule.t) (s : Ship) : Ship :=
  mkShip (position s) (health s) (body s) (modules s) (cannons s) ss (wheels s)
    (waterLevel s) (rudderAngle s) (sailsOpenness s) (currentWindDirection s)
    (currentWindPower s) (forwardForce s) (turningForce s) (momentum s)
    (isRotatingSails s) (sailRotationTimer s) (moduleVisualPositions s)
    (playerAtWheel s) (game s).

Definition withWheels (ws : IdMap.t WheelModule.t) (s : Ship) : Ship :=
  mkShip (position s) (health s) (body s) (modules s) (cannons s) (sails s) ws
    (waterLevel s) (rudderAngle s) (sailsOpenness s) (currentWindDirection s)
    (currentWindPower s) (forwardForce s) (turningForce s) (momentum s)
    (isRotatingSails s) (sailRotationTimer s) (moduleVisualPositions s)
    (playerAtWheel s) (game s).

Definition withPosition (p : Vec) (s : Ship) : Ship :=
  mkShip p (health s) (body s) (modules s) (cannons s) (sails s) (wheels s)
    (waterLevel s) (rudderAngle s) (sailsOpenness s) (currentWindDirection s)
    (currentWindPower s) (forwardForce s) (turningForce s) (momentum s)
    (isRotatingSails s) (sailRotationTimer s) (moduleVisualPositions s)
    (playerAtWheel s) (game s).

Definition withRudderAngle (a : R) (s : Ship) : Ship :=
  mkShip (position s) (health s) (body s) (modules s) (cannons s) (sails s) (wheels s)
    (waterLevel s) a (sailsOpenness s) (currentWindDirection s)
    (currentWindPower s) (forwardForce s) (turningForce s) (momentum s)
    (isRotatingSails s) (sailRotationTimer s) (moduleVisualPositions s)
    (playerAtWheel s) (game s).

Definition withWind (direction power : R) (s : Ship) : Ship :=
  mkShip (position s) (health s) (body s) (modules s) (cannons s) (sails s) (wheels s)
    (waterLevel s) (rudderAngle s) (sailsOpenness s) direction
    power (forwardForce s) (turningForce s) (momentum s)
    (isRotatingSails s) (sailRotationTimer s) (moduleVisualPositions s)
    (playerAtWheel s) (game s).

Definition withForwardForce (f : R) (s : Ship) : Ship :=
  mkShip (position s) (health s) (body s) (modules s) (cannons s) (sails s) (wheels s)
    (waterLevel s) (rudderAngle s) (sailsOpenness s) (currentWindDirection s)
    (currentWindPower s) f (turningForce s) (momentum s)
    (isRotatingSails s) (sailRotationTimer s) (moduleVisualPositions s)
    (playerAtWheel s) (game s).

Definition withTurningForce (f : R) (s : Ship) : Ship :=
  mkShip (position s) (health s) (body s) (modules s) (cannons s) (sails s) (wheels s)
    (waterLevel s) (rudderAngle s) (sailsOpenness s) (currentWindDirection s)
    (currentWindPower s) (forwardForce s) f (momentum s)
    (isRotatingSails s) (sailRotationTimer s) (moduleVisualPositions s)
    (playerAtWheel s) (game s).

Definition withMomentum (m : R) (s : Ship) : Ship :=
  mkShip (position s) (health s) (body s) (modules s) (cannons s) (sails s) (wheels s)
    (waterLevel s) (rudderAngle s) (sailsOpenness s) (currentWindDirection s)
    (currentWindPower s) (forwardForce s) (turningForce s) m
    (isRotatingSails s) (sailRotationTimer s) (moduleVisualPositions s)
    (playerAtWheel s) (game s).

Definition withRotatingSails (flag : bool) (timer : R) (s : Ship) : Ship :=
  mkShip (position s) (health s) (body s) (modules s) (cannons s) (sails s) (wheels s)
    (waterLevel s) (rudderAngle s) (sailsOpenness s) (currentWindDirection s)
    (currentWindPower s) (forwardForce s) (turningForce s) (momentum s)
    flag timer (moduleVisualPositions s)
    (playerAtWheel s) (game s).

(** [new Ship(x, y, ...)]. *)
Definition new (x y : R) : Ship :=
  mkShip (mkVec x y) 100
    (Matter.mkBody (mkVec x y) (mkVec 0 0) 0 0 (mkVec 0 0) 0)
    [] [] [] [] 0 0 0 0 0 0 0 0 false 0 [] false NoGame.

(** [addModule(id, module)] for a [SailModule] instance. *)
Definition addSail (id : string) (sl : SailModule.t) (s : Ship) : Ship :=
  mkShip (position s) (health s) (body s)
    (IdMap.set id (mkView sail (SailModule.position sl)) (modules s))
    (cannons s) (IdMap.set id sl (sails s)) (wheels s)
    (waterLevel s) (rudderAngle s) (sailsOpenness s) (currentWindDirection s)
    (currentWindPower s) (forwardForce s) (turningForce s) (momentum s)
    (isRotatingSails s) (sailRotationTimer s) (moduleVisualPositions s)
    (playerAtWheel s) (game s).

(** Sum of openness and number of the open sails, as [applyRudder] counts. *)
Definition openSailPower (ss : IdMap.t SailModule.t) : R * R :=
  fold_left
    (fun acc kv =>
       let sl := snd kv in
       if Rlt_dec 0 (SailModule.openness sl)
       then (fst acc + SailModule.openness sl, snd acc + 1)
       else acc)
    ss (0, 0).

(** [wheel.setWheelAngle(rudderAngle)] on the first wheel, if any. *)
Definition syncFirstWheel (rudder : R) (ws : IdMap.t WheelModule.t) : IdMap.t WheelModule.t :=
  match ws with
  | [] => []
  | (id, w) :: rest => (id, WheelModule.setWheelAngle rudder w) :: rest
  end.

Definition applyRudder (direction : Direction) (s : Ship) : Ship :=
  let baseRudderChangeRate := 0.5 in
  let currentSpeed := Legacy.currentSpeed (body s) in
  let s1 := withMomentum (Rmin 1.0 (momentum s * 0.95 + currentSpeed * 0.01)) s in
  let visualSpeedFactor := 0.5 + Rmin 0.7 (currentSpeed / 3) in
  let rudderChangeRate := baseRudderChangeRate * visualSpeedFactor in
  let s2 := withRudderAngle
              (Legacy.steer direction rudderChangeRate (rudderAngle s1)) s1 in
  let s2w := withWheels (syncFirstWheel (rudderAngle s2) (wheels s2)) s2 in
  let '(sailPower, sailCount) := openSailPower (sails s2w) in
  let avgSailPower := if Rlt_dec 0 sailCount then sailPower / (sailCount * 100) else 0 in
  let baseTurningPower := 0.000015 in
  let optimalSpeed := 2.0 in
  let speedDiff := Rabs (currentSpeed - optimalSpeed) in
  let speedFactor :=
    Rmax 0.25 (Rmin 1.0 (1.0 - (speedDiff / 3.0) * (speedDiff / 3.0))) in
  let momentumResistance := Rmax 0.4 (1.0 - (momentum s2w * 0.6)) in
  let turnEffectiveness := speedFactor * momentumResistance in
  let minTurnFactor := 0.35 in
  let maxTurnFactor := 1.0 in
  let sailFactor := minTurnFactor + ((maxTurnFactor - minTurnFactor) * avgSailPower) in
  let s3 := withTurningForce
              (rudderAngle s2w * baseTurningPower * turnEffectiveness * sailFactor) s2w in
  let s4 :=
    if JS.gtb currentSpeed 0.05 || JS.gtb avgSailPower 0
    then withBody (Matter.setAngularVelocity (body s3)
                     (Matter.angularVelocity (body s3) + turningForce s3)) s3
    else s3 in
  withPosition (Matter.position (body s4)) s4.

(** What one open sail adds to [totalEfficiency], from its angle difference. *)
Definition sailTerm (angleDiffDegrees : R) (sl : SailModule.t) : R :=
  let sailAngle := SailModule.angle sl in
  let efficiency0 :=
    if Rle_dec angleDiffDegrees 90
    then 1.0 - (0.65 * angleDiffDegrees / 90)
    else 0.35 in
  let efficiency := Rmin 1 (Rmax 0.35 efficiency0) in
  let sailOpenness := SailModule.openness sl / 100 in
  let angleBonus :=
    if Rlt_dec 0 efficiency then Rmin 0.2 (Rabs sailAngle / 75 * 0.2) else 0 in
  (efficiency + angleBonus) * sailOpenness.

Definition calculateSailEfficiency (s : Ship) : R :=
  let '(totalEfficiency, sailCount) :=
    fold_left
      (fun acc kv =>
         let sl := snd kv in
         if JS.gtb (SailModule.openness sl) 0 then
           let d := Legacy.angleDiffDegrees (currentWindDirection s)
                      (Matter.angle (body s)) (SailModule.angle sl) in
           (fst acc + sailTerm d sl, snd acc + 1)
         else acc)
      (sails s) (0, 0) in
  if Rlt_dec 0 sailCount then
    let baseEfficiency := Rmin 1.5 (totalEfficiency / sailCount) in
    Rmax 0.2 baseEfficiency
  else 0.

Definition rotateSails (direction : Direction) (s : Ship) : Ship :=
  let rotationRate := 1.25 in
  let currentVelocity :=
    mkVec (vx (Matter.velocity (body s))) (vy (Matter.velocity (body s))) in
  let s1 := withRotatingSails true 10 s in
  let s2 :=
    withSails
      (IdMap.mapValues
         (fun sl =>
            match direction with
            | left => SailModule.rotate (- rotationRate) sl
            | right => SailModule.rotate rotationRate sl
            | center => SailModule.centerAngle rotationRate sl
            end)
         (sails s1)) s1 in
  withBody (Matter.setVelocity (body s2) currentVelocity) s2.

(** Total openness, number of sails, and whether any sail is open. *)
Definition sailStats (ss : IdMap.t SailModule.t) : R * R * bool :=
  fold_left
    (fun acc kv =>
       let '(total, count, anyOpen) := acc in
       let o := SailModule.openness (snd kv) in
       (total + o, count + 1, anyOpen || JS.gtb o 0))
    ss (0, 0, false).

(** The hull alignment factor of this version of [applyWindForce]. *)
Definition alignmentFactor (relativeWindAngle : R) : R :=
  let absRelativeAngle := Rabs relativeWindAngle in
  let angleDiffDegrees := absRelativeAngle * 180 / PI in
  let alignmentFactor :=
    if Rle_dec angleDiffDegrees 90
    then 1.0 - (0.55 * angleDiffDegrees / 90)
    else 0.45 * Rmax 0 (1 - (angleDiffDegrees - 90) / 90) in
  Rmax 0.15 alignmentFactor.

Definition applyWindForce (windDirection windPower : R) (s : Ship) : Ship :=
  let s1 := withWind windDirection windPower s in
  let '(totalSailOpenness, sailCount, sailsAreOpen) := sailStats (sails s1) in
  let avgSailOpenness :=
    if Rlt_dec 0 sailCount then totalSailOpenness / sailCount else 0 in
  let momentumFactor := Rmin 0.05 (momentum s1 * 0.05) in
  let dragFactor :=
    if sailsAreOpen
    then 0.85 + (avgSailOpenness / 100) * 0.13 + momentumFactor
    else 0.85 in
  let v := Matter.velocity (body s1) in
  let s2 := withBody (Matter.setVelocity (body s1)
                        (mkVec (vx v * dragFactor) (vy v * dragFactor))) s1 in
  let v2 := Matter.velocity (body s2) in
  let s3 :=
    if negb sailsAreOpen && JS.ltb (Rabs (vx v2)) 0.05 && JS.ltb (Rabs (vy v2)) 0.05
    then withMomentum 0 (withBody (Matter.setVelocity (body s2) (mkVec 0 0)) s2)
    else s2 in
  if sailsAreOpen then
    let sailEfficiency := calculateSailEfficiency s3 in
    let shipDirectionX := cos (Matter.angle (body s3)) in
    let shipDirectionY := sin (Matter.angle (body s3)) in
    let relativeWindAngle :=
      Legacy.relativeWindAngle windDirection (Matter.angle (body s3)) in
    let minEfficiency := 0.40 in
    let baseEfficiency := Rmax minEfficiency sailEfficiency in
    let opennessFactor := avgSailOpenness / 100 in
    let constantWindBase := 0.8 in
    let windForceFactor := 0.08 in
    let s4 := withForwardForce
                ((constantWindBase + windPower) * baseEfficiency
                 * windForceFactor * opennessFactor) s3 in
    let alignmentFactor := alignmentFactor relativeWindAngle in
    let finalForce :=
      if Rlt_dec 0 sailEfficiency then forwardForce s4 * alignmentFactor else 0 in
    let forceVector :=
      mkVec (shipDirectionX * finalForce) (shipDirectionY * finalForce) in
    withBody (Matter.applyForce (body s4) (Matter.position (body s4)) forceVector) s4
  else s3.

Definition adjustSails (openPercent : R) (s : Ship) : Ship :=
  withSails (IdMap.mapValues (SailModule.setOpenness openPercent) (sails s)) s.

Definition openSails (s : Ship) : Ship :=
  withSails (IdMap.mapValues (SailModule.open 10) (sails s)) s.

Definition closeSails (s : Ship) : Ship :=
  withSails (IdMap.mapValues (SailModule.close 10) (sails s)) s.

(** A call of a [SailModule] method on the sail stored under [id]. *)
Definition onSail (id : string) (f : SailModule.t -> SailModule.t) (s : Ship) : Ship :=
  withSails
    (map (fun kv => if String.eqb id (fst kv) then (fst kv, f (snd kv)) else kv)
         (sails s)) s.

(** The hull test of this version of [isPositionOnDeck]: the path when a
    drawing context is there, the bounding box of the hull points otherwise. *)
Definition isInHull (ctx : option Canvas.Transform) (rotatedX rotatedY : R) : bool :=
  match ctx with
  | Some m => Hull.isPointInPath m rotatedX rotatedY
  | None =>
      negb (JS.ltb rotatedX (-345) || JS.gtb rotatedX 415
            || JS.ltb rotatedY (-90) || JS.gtb rotatedY 90)
  end.

Definition getModuleVisualPosition (id : string) (s : Ship) : Vec :=
  match IdMap.get id (moduleVisualPositions s) with
  | Some p => p
  | None =>
      match IdMap.get id (modules s) with
      | Some m => mposition m
      | None => mkVec 0 0
      end
  end.

Definition toLocal (x y : R) (s : Ship) : Vec :=
  let localX := x - vx (position s) in
  let localY := y - vy (position s) in
  let cosA := cos (- Matter.angle (body s)) in
  let sinA := sin (- Matter.angle (body s)) in
  mkVec (localX * cosA - localY * sinA) (localX * sinA + localY * cosA).

Definition inDynamicObstacle (rotatedX rotatedY : R) (s : Ship) : bool :=
  existsb
    (fun kv =>
       let id := fst kv in
       let m := snd kv in
       negb (Hull.isStaticObstacle (type m) (mposition m))
       && Hull.inModuleBox rotatedX rotatedY (getModuleVisualPosition id s))
    (modules s).

Definition isPositionOnDeck (x y : R) (ctx : option Canvas.Transform) (s : Ship) : bool :=
  let p := toLocal x y s in
  if negb (isInHull ctx (vx p) (vy p)) then false
  else if Hull.inStaticObstacle (vx p) (vy p) then false
  else if inDynamicObstacle (vx p) (vy p) s then false
  else true.

End Typed.

(** ** Sequences of the public mutating operations *)

Inductive TypedOp : Type :=
| TApplyRudder (d : Direction)
| TRotateSails (d : Direction)
| TAdjustSails (openPercent : R)
| TOpenSails
| TCloseSails
| TSailSetOpenness (id : string) (percent : R)
| TSailOpen (id : string) (increment : R)
| TSailClose (id : string) (increment : R)
| TSailRotate (id : string) (degrees : R)
| TSailCenterAngle (id : string) (increment : R).

Definition runTyped (op : TypedOp) (s : Typed.Ship) : Typed.Ship :=
  match op with
  | TApplyRudder d => Typed.applyRudder d s
  | TRotateSails d => Typed.rotateSails d s
  | TAdjustSails p => Typed.adjustSails p s
  | TOpenSails => Typed.openSails s
  | TCloseSails => Typed.closeSails s
  | TSailSetOpenness id p => Typed.onSail id (SailModule.setOpenness p) s
  | TSailOpen id i => Typed.onSail id (SailModule.open i) s
  | TSailClose id i => Typed.onSail id (SailModule.close i) s
  | TSailRotate id d => Typed.onSail id (SailModule.rotate d) s
  | TSailCenterAngle id i => Typed.onSail id (SailModule.centerAngle i) s
  end.

(** [centerAngle] moves the trim toward zero when its increment is not
    negative, as its default and every call in the sources have it. *)
Definition centersInward (op : TypedOp) : Prop :=
  match op with
  | TSailCenterAngle _ increment => 0 <= increment
  | _ => True
  end.

Inductive LegacyOp : Type :=
| LApplyRudder (d : Direction)
| LRotateSails (d : Direction)
| LAdjustSails (openPercent : R)
| LOpenSails
| LCloseSails.

Definition runLegacy (op : LegacyOp) (s : Legacy.Ship) : Legacy.Ship :=
  match op with
  | LApplyRudder d => Legacy.applyRudder d s
  | LRotateSails d => Legacy.rotateSails d s
  | LAdjustSails p => Legacy.adjustSails p s
  | LOpenSails => Legacy.openSails s
  | LCloseSails => Legacy.closeSails s
  end.

(** The ranges of the data model. *)
Definition sailInRange (sl : SailModule.t) : Prop :=
  -75 <= SailModule.angle sl <= 75 /\ 0 <= SailModule.openness sl <= 100.

Definition typedInRange (s : Typed.Ship) : Prop :=
  -30 <= Typed.rudderAngle s <= 30
  /\ Forall (fun kv => sailInRange (snd kv)) (Typed.sails s).

Definition legacyModuleInRange (m : Legacy.ShipModule) : Prop :=
  Legacy.type m = sail ->
  (forall a, Legacy.angle m = Some a -> -75 <= a <= 75)
  /\ (forall o, Legacy.openness m = Some o -> 0 <= o <= 100).

Definition legacyInRange (s : Legacy.Ship) : Prop :=
  -30 <= Legacy.rudderAngle s <= 30
  /\ Forall (fun kv => legacyModuleInRange (snd kv)) (Legacy.modules s).

(** ** Concrete vessels and cannons used to exercise the model *)

Definition fullSail : SailModule.t :=
  SailModule.setOpenness 100 (SailModule.new (mkVec 165 0)).

Definition typedBrig : Typed.Ship :=
  Typed.addSail "mainsail" fullSail (Typed.new 0 0).

Definition legacyBrig : Legacy.Ship :=
  Legacy.addModule "mainsail"
    (Legacy.mkModule sail (mkVec 165 0) 0 100 (Some 100) (Some 0))
    (Legacy.new 0 0).

(** A cannon that has just been fired at time 1000. *)
Definition spentCannon : CannonModule.t :=
  CannonModule.withLastFired 1000
    (CannonModule.withLoaded false (CannonModule.new (mkVec 65 75) PI)).

(** A loaded cannon whose [game] field was never set. *)
Definition orphanCannon : CannonModule.t := CannonModule.new (mkVec 65 75) PI.

Definition isSpawn (e : Event) : bool :=
  match e with AddCannonball _ _ _ _ => true | _ => false end.

(** What [rotateSails] may change in a sail: its trim angle only. *)
Definition sameButAngle (a b : string * SailModule.t) : Prop :=
  fst a = fst b
  /\ SailModule.position (snd a) = SailModule.position (snd b)
  /\ SailModule.rotation (snd a) = SailModule.rotation (snd b)
  /\ SailModule.health (snd a) = SailModule.health (snd b)
  /\ SailModule.openness (snd a) = SailModule.openness (snd b).

(** The sails that [applyWindForce] and [calculateSailEfficiency] treat as open. *)
Definition legacyOpenSail (kv : string * Legacy.ShipModule) : bool :=
  ModuleType_eqb (Legacy.type (snd kv)) sail
  && JS.gtb (Legacy.orZero (Legacy.openness (snd kv))) 0.

Definition typedOpenSail (kv : string * SailModule.t) : bool :=
  JS.gtb (SailModule.openness (snd kv)) 0.

(** A wind system started at time 0. *)
Definition freshWind : WorldManager.t := WorldManager.mk 0 1 0.

(** Repeated calls of [update], one per tick, at the given clock readings. *)
Definition ticks (nows : list R) (c : CannonModule.t) : CannonModule.t :=
  fold_left (fun st now => CannonModule.update now st) nows c.

(** The scenario of the specification: turret at -40 degrees, target at 40
    degrees, turning at the default rate. *)
Definition scenarioCannon : CannonModule.t :=
  CannonModule.mk (mkVec 65 75) 0 100 (- (40 * PI / 180)) (40 * PI / 180)
    0.005 2000 0 true NoGame.

(** A turret half a turn away from its target. *)
Definition halfTurnCannon : CannonModule.t :=
  CannonModule.withTurretAngle PI (CannonModule.new (mkVec 65 75) 0).

(** A turret a whole turn away from its target, turning half a turn per tick. *)
Definition fullTurnCannon : CannonModule.t :=
  CannonModule.mk (mkVec 65 75) 0 100 (PI * 2) 0 PI 2000 0 true NoGame.

(** A vessel with a crate mounted at the very centre of the deck. *)
Definition crateBrig : Legacy.Ship :=
  Legacy.addModule "crate"
    (Legacy.mkModule plank (mkVec 0 0) 0 100 None None)
    (Legacy.new 0 0).

(** ** Cannonball.ts *)

Module Cannonball.

Record t : Type := mk {
  position : Vec;
  velocity : Vec;
  angle : R;
  radius : R;
  body : Matter.Body;
  lifetime : R;
  maxLifetime : R;
  damage : R
}.

(** [new Cannonball(x, y, angle, speed)]: the body is created at [(x, y)]
    and given the initial velocity. *)
Definition new (x y angle speed : R) : t :=
  let adjustedAngle := angle + PI / 2 in
  let velocity := mkVec (cos adjustedAngle * speed) (sin adjustedAngle * speed) in
  let body :=
    Matter.setVelocity
      (Matter.mkBody (mkVec x y) (mkVec 0 0) 0 0 (mkVec 0 0) 0) velocity in
  mk (mkVec x y) velocity angle 5 body 0 180 10.

(** [update()]: whether the cannonball is still alive, and the cannonball
    afterwards. *)
Definition update (c : t) : bool * t :=
  let c' := mk (Matter.position (body c)) (velocity c) (angle c) (radius c)
               (body c) (lifetime c + 1) (maxLifetime c) (damage c) in
  (JS.ltb (lifetime c') (maxLifetime c'), c').

End Cannonball.

(** ** Player.ts *)

Module Player.

(** [bodyIsSensor] is the [isSensor] flag of the player's physics body. *)
Record t : Type := mk {
  position : Vec;
  health : R;
  bodyIsSensor : bool;
  onShip : bool;
  atShipWheel : bool
}.

Definition new (x y : R) : t := mk (mkVec x y) 100 false false false.

Definition move (dx dy : R) (p : t) : t :=
  mk (mkVec (vx (position p) + dx) (vy (position p) + dy))
     (health p) (bodyIsSensor p) (onShip p) (atShipWheel p).

Definition takeDamage (amount : R) (p : t) : t :=
  let h := health p - amount in
  mk (position p) (if Rlt_dec h 0 then 0 else h)
     (bodyIsSensor p) (onShip p) (atShipWheel p).

Definition isAlive (p : t) : bool := JS.gtb (health p) 0.

Definition setOnShip (status atWheel : bool) (p : t) : t :=
  mk (position p) (health p) (status && atWheel) status atWheel.

Definition setAtShipWheel (atWheel : bool) (p : t) : t :=
  if onShip p then mk (position p) (health p) atWheel (onShip p) atWheel
  else p.

End Player.

(** ** Enemy.ts *)

Module Enemy.

Record t : Type := mk {
  position : Vec;
  health : R;
  speed : R;
  bodyPosition : Vec
}.

Definition moveTowards (targetX targetY : R) (e : t) : t :=
  let dx := targetX - vx (position e) in
  let dy := targetY - vy (position e) in
  let length := sqrt (dx * dx + dy * dy) in
  if Rlt_dec 0 length then
    let normalizedDx := dx / length in
    let normalizedDy := dy / length in
    let p := mkVec (vx (position e) + normalizedDx * speed e)
                   (vy (position e) + normalizedDy * speed e) in
    mk p (health e) (speed e) p
  else e.

Definition takeDamage (amount : R) (e : t) : t :=
  mk (position e) (health e - amount) (speed e) (bodyPosition e).

End Enemy.

(** ** utils/helpers.ts *)

Module Helpers.

(** [randomInRange(min, max)], with the value of [Math.random()]. *)
Definition randomInRange (random min max : R) : R := random * (max - min) + min.

Definition degreesToRadians (degrees : R) : R := degrees * (PI / 180).

Definition radiansToDegrees (radians : R) : R := radians * (180 / PI).

End Helpers.

(** ** Game.ts: coordinate conversions, the camera and the cannonballs *)

Module Game.

Record Viewport : Type := mkViewport {
  x : R;
  y : R;
  width : R;
  height : R;
  scale : R
}.

(** The part of the game state that the functions below read and write. *)
Record t : Type := mk {
  ship : Typed.Ship;
  viewport : Viewport;
  mousePosition : Vec;
  screenMousePosition : Vec;
  cannonballs : list Cannonball.t
}.


Definition worldToShipCoordinates (g : t) (worldX worldY : R) : Vec :=
  let dx := worldX - vx (Typed.position (ship g)) in
  let dy := worldY - vy (Typed.position (ship g)) in
  let shipAngle := - Matter.angle (Typed.body (ship g)) in
  let localX := dx * cos shipAngle - dy * sin shipAngle in
  let localY := dx * sin shipAngle + dy * cos shipAngle in
  mkVec localX localY.

Definition shipToWorldCoordinates (g : t) (localX localY : R) : Vec :=
  let shipAngle := Matter.angle (Typed.body (ship g)) in
  let worldX := vx (Typed.position (ship g))
                + localX * cos shipAngle - localY * sin shipAngle in
  let worldY := vy (Typed.position (ship g))
                + localX * sin shipAngle + localY * cos shipAngle in
  mkVec worldX worldY.


(** [addCannonball(x, y, angle, speed = 10)]. *)
Definition addCannonball (px py angle : R) (speed : option R) (g : t) : t :=
  let cannonball :=
    Cannonball.new px py angle (match speed with Some v => v | None => 10 end) in
  mk (ship g) (viewport g) (mousePosition g) (screenMousePosition g)
     (cannonballs g ++ [cannonball]).

(** The loop of [updateCannonballs], from the last cannonball down to the
    first: the cannonballs kept and the bodies removed from the physics
    world, in the order of removal. *)
Fixpoint sweep (cs : list Cannonball.t) : list Cannonball.t * list Matter.Body :=
  match cs with
  | [] => ([], [])
  | c :: rest =>
      let '(kept, removed) := sweep rest in
      let '(isAlive, c') := Cannonball.update c in
      if isAlive then (c' :: kept, removed)
      else (kept, removed ++ [Cannonball.body c'])
  end.


End Game.

(** The conversion back to world coordinates that [findSafeDismountPosition]
    applies to its candidates. *)
Definition deckPoint (localX localY : R) (s : Legacy.Ship) : Vec :=
  let ba := Matter.angle (Legacy.body s) in
  mkVec (vx (Legacy.position s) + localX * cos ba - localY * sin ba)
        (vy (Legacy.position s) + localX * sin ba + localY * cos ba).

(** A game with the vessel at (400, 350), heading a quarter turn. *)
Definition quarterTurnGame : Game.t :=
  Game.mk
    (Typed.withBody
       (Matter.mkBody (mkVec 400 350) (mkVec 0 0) (PI / 2) 0 (mkVec 0 0) 0)
       (Typed.new 400 350))
    (Game.mkViewport 0 0 800 600 1) (mkVec 0 0) (mkVec 0 0) [].

(** ** CannonModule.ts, remaining methods *)

(** What [setGame] can be passed: a ship, of which only the [game] field
    matters, or a game reference itself. *)
Inductive GameArg : Type :=
| FromShip (shipGame : GameRef)
| Direct (g : GameRef).

Module Cannon.

Definition withGame (g : GameRef) (c : CannonModule.t) : CannonModule.t :=
  CannonModule.mk (CannonModule.position c) (CannonModule.rotation c)
    (CannonModule.health c) (CannonModule.turretAngle c)
    (CannonModule.targetTurretAngle c) (CannonModule.rotationSpeed c)
    (CannonModule.reloadTime c) (CannonModule.lastFiredTime c)
    (CannonModule.isLoaded c) g.

(** [setGame(game)]: a ship that holds a game with [addCannonball] hands
    that game over; anything else is stored as it is, the ship included. *)
Definition setGame (arg : GameArg) (c : CannonModule.t) : CannonModule.t :=
  match arg with
  | FromShip GameWithSpawner => withGame GameWithSpawner c
  | FromShip _ => withGame GameWithoutSpawner c
  | Direct g => withGame g c
  end.

(** [use()], at clock reading [now]. *)
Definition use (now : R) (c : CannonModule.t) : CannonModule.t :=
  if CannonModule.isLoaded c
  then CannonModule.withLastFired now (CannonModule.withLoaded false c)
  else c.

Definition resetAim (c : CannonModule.t) : CannonModule.t :=
  CannonModule.withTurretAngle 0 (CannonModule.withTarget 0 c).

Definition setTurretAngle (a : R) (c : CannonModule.t) : CannonModule.t :=
  CannonModule.withTarget a (CannonModule.withTurretAngle a c).

End Cannon.

(** ** Ship.ts, second version: mounting cannons and firing them *)

Module TypedShip.

Definition withCannons (cs : IdMap.t CannonModule.t) (s : Typed.Ship) : Typed.Ship :=
  Typed.mkShip (Typed.position s) (Typed.health s) (Typed.body s) (Typed.modules s)
    cs (Typed.sails s) (Typed.wheels s)
    (Typed.waterLevel s) (Typed.rudderAngle s) (Typed.sailsOpenness s)
    (Typed.currentWindDirection s) (Typed.currentWindPower s) (Typed.forwardForce s)
    (Typed.turningForce s) (Typed.momentum s) (Typed.isRotatingSails s)
    (Typed.sailRotationTimer s) (Typed.moduleVisualPositions s)
    (Typed.playerAtWheel s) (Typed.game s).

(** [setGame(game)] of the ship. *)
Definition setGame (g : GameRef) (s : Typed.Ship) : Typed.Ship :=
  Typed.mkShip (Typed.position s) (Typed.health s) (Typed.body s) (Typed.modules s)
    (Typed.cannons s) (Typed.sails s) (Typed.wheels s)
    (Typed.waterLevel s) (Typed.rudderAngle s) (Typed.sailsOpenness s)
    (Typed.currentWindDirection s) (Typed.currentWindPower s) (Typed.forwardForce s)
    (Typed.turningForce s) (Typed.momentum s) (Typed.isRotatingSails s)
    (Typed.sailRotationTimer s) (Typed.moduleVisualPositions s)
    (Typed.playerAtWheel s) g.

(** [addModule(id, module)] for a [CannonModule] instance. *)
Definition addCannon (id : string) (c : CannonModule.t) (s : Typed.Ship) : Typed.Ship :=
  Typed.mkShip (Typed.position s) (Typed.health s) (Typed.body s)
    (IdMap.set id (Typed.mkView cannon (CannonModule.position c)) (Typed.modules s))
    (IdMap.set id (Cannon.setGame (FromShip (Typed.game s)) c) (Typed.cannons s))
    (Typed.sails s) (Typed.wheels s)
    (Typed.waterLevel s) (Typed.rudderAngle s) (Typed.sailsOpenness s)
    (Typed.currentWindDirection s) (Typed.currentWindPower s) (Typed.forwardForce s)
    (Typed.turningForce s) (Typed.momentum s) (Typed.isRotatingSails s)
    (Typed.sailRotationTimer s) (Typed.moduleVisualPositions s)
    (Typed.playerAtWheel s) (Typed.game s).


(** What [fireCannon] does with one cannon when it has a target: the cannon
    afterwards and the events. *)
Definition fireOne (now : R) (s : Typed.Ship) (c : CannonModule.t)
  : CannonModule.t * list Event :=
  let a := Matter.angle (Typed.body s) in
  let cannonWorldPos :=
    mkVec (vx (Typed.position s) + cos a * vx (CannonModule.position c)
           - sin a * vy (CannonModule.position c))
          (vy (Typed.position s) + sin a * vx (CannonModule.position c)
           + cos a * vy (CannonModule.position c)) in
  let shipVelocity :=
    mkVec (vx (Matter.velocity (Typed.body s))) (vy (Matter.velocity (Typed.body s))) in
  let '(fired, c', events) :=
    CannonModule.fire now (vx cannonWorldPos) (vy cannonWorldPos) a
      (Some shipVelocity) c in
  (c', events ++ (if fired then [ConsoleLog "Cannon fired at world position:"] else [])).

(** The loop over the cannons; [clock k] is the reading of [Date.now()]
    while the cannon number [k] of the loop is fired. *)
Fixpoint fireAll (clock : nat -> R) (k : nat) (s : Typed.Ship)
  (cs : IdMap.t CannonModule.t) : IdMap.t CannonModule.t * list Event :=
  match cs with
  | [] => ([], [])
  | (id, c) :: rest =>
      let '(c', events) := fireOne (clock k) s c in
      let '(rest', events') := fireAll clock (S k) s rest in
      ((id, c') :: rest', events ++ events')
  end.

(** [fireCannon(targetPosition?)]. *)
Definition fireCannon (clock : nat -> R) (targetPosition : option Vec) (s : Typed.Ship)
  : Typed.Ship * list Event :=
  match targetPosition with
  | None => (s, [])
  | Some _ =>
      let '(cs, events) := fireAll clock 0 s (Typed.cannons s) in
      (withCannons cs s, events)
  end.

End TypedShip.

(** How many projectiles the events of a call spawn. *)
Definition spawnCount (events : list Event) : nat :=
  List.length (filter isSpawn events).

(** The cannons that can fire: loaded, with a game that spawns. *)
Definition readyToFire (c : CannonModule.t) : bool :=
  CannonModule.isLoaded c
  && match CannonModule.game c with GameWithSpawner => true | _ => false end.

(** Repeated calls of [Cannonball.update], keeping the cannonball. *)
Definition flight (n : nat) (c : Cannonball.t) : Cannonball.t :=
  Nat.iter n (fun b => snd (Cannonball.update b)) c.

(** Repeated sweeps of the cannonballs of the game. *)
Definition sweeps (n : nat) (cs : list Cannonball.t) : list Cannonball.t :=
  Nat.iter n (fun l => fst (Game.sweep l)) cs.

(** A loaded cannon wired to the game. *)
Definition readyCannon : CannonModule.t :=
  Cannon.setGame (Direct GameWithSpawner) (CannonModule.new (mkVec 65 75) PI).

(** ** Sequences of the operations on a player *)

Inductive PlayerOp : Type :=
| PMove (dx dy : R)
| PTakeDamage (amount : R)
| PSetOnShip (status atWheel : bool)
| PSetAtShipWheel (atWheel : bool).

Definition runPlayer (op : PlayerOp) (p : Player.t) : Player.t :=
  match op with
  | PMove dx dy => Player.move dx dy p
  | PTakeDamage amount => Player.takeDamage amount p
  | PSetOnShip status atWheel => Player.setOnShip status atWheel p
  | PSetAtShipWheel atWheel => Player.setAtShipWheel atWheel p
  end.

(** An enemy at the origin that moves two units at a time. *)
Definition walker : Enemy.t := Enemy.mk (mkVec 0 0) 50 2 (mkVec 0 0).


(** What [rotateSails] does to one sail. *)
Definition trimStep (d : Direction) (sl : SailModule.t) : SailModule.t :=
  let rotationRate := 1.25 in
  match d with
  | left => SailModule.rotate (- rotationRate) sl
  | right => SailModule.rotate rotationRate sl
  | center => SailModule.centerAngle rotationRate sl
  end.

(** ** Tactics *)

(** Case analysis on every comparison, minimum, maximum and absolute value
    in sight, closing the branches by linear arithmetic. *)
Ltac split_cmp :=
  repeat match goal with
         | |- context [Rle_dec ?a ?b] => destruct (Rle_dec a b)
         | |- context [Rlt_dec ?a ?b] => destruct (Rlt_dec a b)
         | |- context [Rcase_abs ?a] => destruct (Rcase_abs a)
         | H : context [Rle_dec ?a ?b] |- _ => destruct (Rle_dec a b)
         | H : context [Rlt_dec ?a ?b] |- _ => destruct (Rlt_dec a b)
         | H : context [Rcase_abs ?a] |- _ => destruct (Rcase_abs a)
         end.

Ltac minmax := unfold Rmin, Rmax, Rabs in *; split_cmp; try lra.

(** Evaluate the comparisons of a closed boolean expression. *)
Ltac js_eval :=
  unfold JS.geb, JS.gtb, JS.leb, JS.ltb, JS.eqb, Rabs;
  repeat match goal with
         | |- context [Rcase_abs ?a] => destruct (Rcase_abs a); try lra
         end;
  repeat match goal with
         | |- context [Rle_dec ?a ?b] => destruct (Rle_dec a b); try lra
         | |- context [Rlt_dec ?a ?b] => destruct (Rlt_dec a b); try lra
         | |- context [Req_dec_T ?a ?b] => destruct (Req_dec_T a b); try lra
         end;
  simpl; try reflexivity; try lra.

(** * Proofs *)

(** ** Comparison functions *)

Lemma ltb_true (a b : R) : JS.ltb a b = true <-> a < b.
Proof. unfold JS.ltb; destruct (Rlt_dec a b); split; intros; try easy. Qed.

Lemma ltb_false (a b : R) : JS.ltb a b = false <-> b <= a.
Proof.
  unfold JS.ltb; destruct (Rlt_dec a b); split; intros; try easy; lra.
Qed.

Lemma leb_true (a b : R) : JS.leb a b = true <-> a <= b.
Proof. unfold JS.leb; destruct (Rle_dec a b); split; intros; try easy. Qed.

Lemma leb_false (a b : R) : JS.leb a b = false <-> b < a.
Proof.
  unfold JS.leb; destruct (Rle_dec a b); split; intros; try easy; lra.
Qed.

Lemma eqb_true (a b : R) : JS.eqb a b = true <-> a = b.
Proof. unfold JS.eqb; destruct (Req_dec_T a b); split; intros; try easy. Qed.


(** ** Sail efficiency (SailModule and both versions of Ship) *)

Lemma angleEfficiency_lipschitz (a b : R) :
  Rabs (Legacy.angleEfficiency a - Legacy.angleEfficiency b) <= 1 * Rabs (a - b).
Proof. unfold Legacy.angleEfficiency. minmax. Qed.

Lemma angleEfficiency_range (d : R) : 0.35 <= Legacy.angleEfficiency d <= 1.
Proof. unfold Legacy.angleEfficiency. minmax. Qed.

Lemma angleEfficiency_linear (d : R) :
  0 <= d <= 90 -> Legacy.angleEfficiency d = 1 - 0.65 * d / 90.
Proof. intros H. unfold Legacy.angleEfficiency. minmax. Qed.

Lemma angleEfficiency_floor (d : R) : 90 <= d -> Legacy.angleEfficiency d = 0.35.
Proof. intros H. unfold Legacy.angleEfficiency. minmax. Qed.

Lemma angleEfficiency_decreasing (a b : R) :
  a <= b -> Legacy.angleEfficiency b <= Legacy.angleEfficiency a.
Proof. intros H. unfold Legacy.angleEfficiency. minmax. Qed.

Lemma efficiencyAt_factor (d : R) (s : SailModule.t) :
  SailModule.efficiencyAt d s
  = Legacy.angleEfficiency d * (SailModule.openness s / 100).
Proof.
  unfold SailModule.efficiencyAt, Legacy.angleEfficiency.
  replace 1.0 with 1 by lra. reflexivity.
Qed.

Lemma legacy_sailTerm_factor (d a o : R) :
  Legacy.sailTerm d a o
  = (Legacy.angleEfficiency d + Rmin 0.2 (Rabs a / 75 * 0.2)) * (o / 100).
Proof.
  unfold Legacy.sailTerm. pose proof (angleEfficiency_range d).
  destruct (Rlt_dec 0 (Legacy.angleEfficiency d)); [reflexivity | lra].
Qed.

Lemma typed_sailTerm_legacy (d : R) (sl : SailModule.t) :
  Typed.sailTerm d sl
  = Legacy.sailTerm d (SailModule.angle sl) (SailModule.openness sl).
Proof. reflexivity. Qed.

Lemma lipschitz_continuity (f : R -> R) (K : R) :
  0 <= K -> (forall a b, Rabs (f a - f b) <= K * Rabs (a - b)) -> continuity f.
Proof.
  intros HK HL x eps Heps.
  exists (eps / (K + 1)). split.
  - apply Rdiv_lt_0_compat; lra.
  - intros y [_ Hy]. simpl in *. unfold Rdist in *.
    apply Rle_lt_trans with (K * Rabs (y - x)); [apply HL|].
    assert (Hk : 0 < K + 1) by lra.
    assert (Hd : Rabs (y - x) * (K + 1) < eps).
    { apply (Rmult_lt_compat_r (K + 1)) in Hy; [|lra].
      unfold Rdiv in Hy. rewrite Rmult_assoc, Rinv_l in Hy; lra. }
    pose proof (Rabs_pos (y - x)). nra.
Qed.

Lemma scaled_lipschitz (c k a b : R) :
  Rabs ((Legacy.angleEfficiency a + c) * k - (Legacy.angleEfficiency b + c) * k)
  <= Rabs k * Rabs (a - b).
Proof.
  pose proof (angleEfficiency_lipschitz a b) as HL.
  replace ((Legacy.angleEfficiency a + c) * k - (Legacy.angleEfficiency b + c) * k)
    with ((Legacy.angleEfficiency a - Legacy.angleEfficiency b) * k) by ring.
  rewrite Rabs_mult.
  pose proof (Rabs_pos (a - b)). pose proof (Rabs_pos k). nra.
Qed.

Lemma angleDiffDegrees_range (w a t : R) :
  0 <= Legacy.angleDiffDegrees w a t <= 180.
Proof.
  unfold Legacy.angleDiffDegrees.
  match goal with |- context [acos ?x] => pose proof (acos_bound x) as Hb end.
  pose proof PI_RGT_0 as Hpi. cbv zeta.
  match goal with |- context [acos ?x] => set (q := acos x) in * end.
  split.
  - apply Rmult_le_pos; [nra | left; apply Rinv_0_lt_compat; lra].
  - apply Rmult_le_reg_r with PI; [lra|].
    unfold Rdiv. rewrite Rmult_assoc, Rinv_l by lra. nra.
Qed.

(** C5.  Whatever the trim and openness of the sail, the efficiency that
    [SailModule.calculateEfficiency] and both versions of
    [Ship.calculateSailEfficiency] derive from the angle [d] (in degrees,
    always within [0, 180]) between the wind and the sail's normal is a
    continuous function of [d], non-increasing, linear on [0, 90] from 1.0
    at 0 down to the floor 0.35 at 90, and constant at the floor beyond 90.
    The value returned for the sail is that efficiency scaled by
    openness/100 (plus the trim bonus in the Ship versions): it is
    continuous in [d] and flat beyond 90 as well, and non-increasing for
    every openness of the data model (openness >= 0). *)
Theorem sail_efficiency_shape (s : SailModule.t) :
  let e := Legacy.angleEfficiency in
  let f := fun d => SailModule.efficiencyAt d s in
  let g := fun d => Legacy.sailTerm d (SailModule.angle s) (SailModule.openness s) in
  (forall w a, SailModule.calculateEfficiency w a s
               = f (SailModule.angleDiffDegrees w a s)
               /\ 0 <= SailModule.angleDiffDegrees w a s <= 180)
  /\ (forall d, f d = e d * (SailModule.openness s / 100))
  /\ (forall d, g d = (e d + Rmin 0.2 (Rabs (SailModule.angle s) / 75 * 0.2))
                      * (SailModule.openness s / 100))
  /\ (forall d, Typed.sailTerm d s = g d)
  /\ continuity e
  /\ (forall a b, a <= b -> e b <= e a)
  /\ (forall d, 0 <= d <= 90 -> e d = 1 - 0.65 * d / 90)
  /\ e 0 = 1.0
  /\ e 90 = 0.35
  /\ (forall d, 90 <= d -> e d = 0.35)
  /\ continuity f
  /\ continuity g
  /\ (forall d, 90 <= d -> f d = f 90 /\ g d = g 90)
  /\ (0 <= SailModule.openness s ->
      forall a b, a <= b -> f b <= f a /\ g b <= g a).
Proof.
  intros e f g.
  set (k := SailModule.openness s / 100).
  assert (Hf : forall d, f d = (e d + 0) * k).
  { intros d. unfold f. rewrite efficiencyAt_factor. fold k. unfold e. ring. }
  assert (Hg : forall d, g d = (e d + Rmin 0.2 (Rabs (SailModule.angle s) / 75 * 0.2)) * k).
  { intros d. unfold g. apply legacy_sailTerm_factor. }
  split; [|split; [|split; [|split; [|split; [|split; [|split;
    [|split; [|split; [|split; [|split; [|split; [|split]]]]]]]]]]]].
  - intros w a. split; [reflexivity|].
    apply (angleDiffDegrees_range w a (SailModule.angle s)).
  - intros d. rewrite Hf. ring.
  - exact Hg.
  - intros d. reflexivity.
  - apply (lipschitz_continuity e 1); [lra|]. apply angleEfficiency_lipschitz.
  - apply angleEfficiency_decreasing.
  - apply angleEfficiency_linear.
  - unfold e. rewrite angleEfficiency_linear by lra. lra.
  - unfold e. rewrite angleEfficiency_floor by lra. lra.
  - apply angleEfficiency_floor.
  - apply (lipschitz_continuity f (Rabs k)); [apply Rabs_pos|].
    intros a b. rewrite !Hf. apply scaled_lipschitz.
  - apply (lipschitz_continuity g (Rabs k)); [apply Rabs_pos|].
    intros a b. rewrite !Hg. apply scaled_lipschitz.
  - intros d Hd. rewrite !Hf, !Hg. unfold e.
    rewrite !(angleEfficiency_floor d), !(angleEfficiency_floor 90) by lra.
    split; reflexivity.
  - intros Ho a b Hab. rewrite !Hf, !Hg.
    assert (Hk : 0 <= k) by (unfold k; lra).
    pose proof (angleEfficiency_decreasing a b Hab). fold e in H. split; nra.
Qed.

Lemma fullSail_open : 0 <= SailModule.openness fullSail.
Proof. simpl. minmax. Qed.

Lemma sail_efficiency_shape_witness :
  0 <= SailModule.openness fullSail
  /\ SailModule.efficiencyAt 90 fullSail <= SailModule.efficiencyAt 45 fullSail.
Proof.
  split; [exact fullSail_open|].
  destruct (sail_efficiency_shape fullSail)
    as (_ & _ & _ & _ & _ & _ & _ & _ & _ & _ & _ & _ & _ & H).
  refine (proj1 (H fullSail_open 45 90 _)). lra.
Defined.

(** ** Clamping on write: rudder, trim and openness stay in range *)

Lemma currentSpeed_nonneg (b : Matter.Body) : 0 <= Legacy.currentSpeed b.
Proof. apply sqrt_pos. Qed.

Lemma steer_range (d : Direction) (rate r : R) :
  0 <= rate -> -30 <= r <= 30 -> -30 <= Legacy.steer d rate r <= 30.
Proof. intros Hrate Hr. destruct d; unfold Legacy.steer; minmax. Qed.

Lemma rudder_rate_nonneg (b : Matter.Body) :
  0 <= 0.5 * (0.5 + Rmin 0.7 (Legacy.currentSpeed b / 3)).
Proof. pose proof (currentSpeed_nonneg b). minmax. Qed.

Lemma setOpenness_range (p : R) (sl : SailModule.t) :
  sailInRange sl -> sailInRange (SailModule.setOpenness p sl).
Proof. intros [Ha Ho]. split; simpl; [exact Ha | minmax]. Qed.

Lemma open_range (i : R) (sl : SailModule.t) :
  sailInRange sl -> sailInRange (SailModule.open i sl).
Proof. apply setOpenness_range. Qed.

Lemma close_range (i : R) (sl : SailModule.t) :
  sailInRange sl -> sailInRange (SailModule.close i sl).
Proof. apply setOpenness_range. Qed.

Lemma rotate_range (d : R) (sl : SailModule.t) :
  sailInRange sl -> sailInRange (SailModule.rotate d sl).
Proof. intros [Ha Ho]. split; simpl; [minmax | exact Ho]. Qed.

Lemma centerAngle_range (i : R) (sl : SailModule.t) :
  0 <= i -> sailInRange sl -> sailInRange (SailModule.centerAngle i sl).
Proof.
  intros Hi [Ha Ho]. unfold SailModule.centerAngle.
  destruct (Rlt_dec 0 (SailModule.angle sl));
    [|destruct (Rlt_dec (SailModule.angle sl) 0)];
    split; simpl; try assumption; minmax.
Qed.

Lemma mapValues_Forall {A : Type} (P : A -> Prop) (f : A -> A) (m : IdMap.t A) :
  (forall a, P a -> P (f a)) ->
  Forall (fun kv => P (snd kv)) m ->
  Forall (fun kv => P (snd kv)) (IdMap.mapValues f m).
Proof.
  intros Hf H. unfold IdMap.mapValues.
  induction H as [|kv rest Hkv Hrest IH]; simpl; constructor;
    [simpl; apply Hf, Hkv | exact IH].
Qed.

Lemma onSail_Forall (id : string) (f : SailModule.t -> SailModule.t) (s : Typed.Ship) :
  (forall a, sailInRange a -> sailInRange (f a)) ->
  typedInRange s -> typedInRange (Typed.onSail id f s).
Proof.
  intros Hf [Hr Hs]. split; [exact Hr|]. simpl.
  induction Hs as [|kv rest Hkv Hrest IH]; simpl; constructor; auto.
  destruct (String.eqb id (fst kv)); simpl; auto.
Qed.

Lemma typed_applyRudder_rudder (d : Direction) (s : Typed.Ship) :
  Typed.rudderAngle (Typed.applyRudder d s)
  = Legacy.steer d (0.5 * (0.5 + Rmin 0.7 (Legacy.currentSpeed (Typed.body s) / 3)))
      (Typed.rudderAngle s).
Proof.
  unfold Typed.applyRudder. cbv zeta.
  destruct (Typed.openSailPower _) as [p c].
  match goal with |- context [if ?b then _ else _] => destruct b end; reflexivity.
Qed.

Lemma typed_applyRudder_sails (d : Direction) (s : Typed.Ship) :
  Typed.sails (Typed.applyRudder d s) = Typed.sails s.
Proof.
  unfold Typed.applyRudder. cbv zeta.
  destruct (Typed.openSailPower _) as [p c].
  match goal with |- context [if ?b then _ else _] => destruct b end; reflexivity.
Qed.

Lemma runTyped_range (op : TypedOp) (s : Typed.Ship) :
  centersInward op -> typedInRange s -> typedInRange (runTyped op s).
Proof.
  intros Hop H. destruct op; simpl; try (apply onSail_Forall; [|exact H]).
  - destruct H as [Hr Hs]. split.
    + rewrite typed_applyRudder_rudder.
      apply steer_range; [apply rudder_rate_nonneg | exact Hr].
    + rewrite typed_applyRudder_sails. exact Hs.
  - destruct H as [Hr Hs]. split; [exact Hr|]. simpl.
    apply mapValues_Forall; [|exact Hs].
    intros a Ha. destruct d.
    + apply rotate_range, Ha.
    + apply rotate_range, Ha.
    + apply centerAngle_range; [lra | exact Ha].
  - destruct H as [Hr Hs]. split; [exact Hr|]. simpl.
    apply mapValues_Forall; [|exact Hs]. intros a; apply setOpenness_range.
  - destruct H as [Hr Hs]. split; [exact Hr|]. simpl.
    apply mapValues_Forall; [|exact Hs]. intros a; apply open_range.
  - destruct H as [Hr Hs]. split; [exact Hr|]. simpl.
    apply mapValues_Forall; [|exact Hs]. intros a; apply close_range.
  - intros a; apply setOpenness_range.
  - intros a; apply open_range.
  - intros a; apply close_range.
  - intros a; apply rotate_range.
  - intros a; apply centerAngle_range, Hop.
Qed.

Lemma legacy_applyRudder_rudder (d : Direction) (s : Legacy.Ship) :
  Legacy.rudderAngle (Legacy.applyRudder d s)
  = Legacy.steer d (0.5 * (0.5 + Rmin 0.7 (Legacy.currentSpeed (Legacy.body s) / 3)))
      (Legacy.rudderAngle s).
Proof.
  unfold Legacy.applyRudder. cbv zeta.
  destruct (Legacy.openSailPower _) as [p c].
  match goal with |- context [if ?b then _ else _] => destruct b end; reflexivity.
Qed.

Lemma legacy_applyRudder_modules (d : Direction) (s : Legacy.Ship) :
  Legacy.modules (Legacy.applyRudder d s) = Legacy.modules s.
Proof.
  unfold Legacy.applyRudder. cbv zeta.
  destruct (Legacy.openSailPower _) as [p c].
  match goal with |- context [if ?b then _ else _] => destruct b end; reflexivity.
Qed.

Lemma legacy_rotate_module (d : Direction) (m : Legacy.ShipModule) :
  legacyModuleInRange m ->
  legacyModuleInRange
    match Legacy.type m with
    | sail =>
        let a := Legacy.orZero (Legacy.angle m) in
        Legacy.withAngle
          (Some
             match d with
             | left => Rmax (-75) (a - 1.25)
             | right => Rmin 75 (a + 1.25)
             | center =>
                 if Rlt_dec 0 a then Rmax 0 (a - 1.25)
                 else if Rlt_dec a 0 then Rmin 0 (a + 1.25)
                 else a
             end) m
    | _ => m
    end.
Proof.
  intros H. destruct (Legacy.type m) eqn:Ht; try exact H.
  destruct (H Ht) as [Ha Ho].
  intros _. split; simpl; [|exact Ho].
  intros a0 Heq. injection Heq as <-.
  assert (Hz : -75 <= Legacy.orZero (Legacy.angle m) <= 75).
  { destruct (Legacy.angle m) as [a|]; simpl; [apply Ha; reflexivity | lra]. }
  destruct d; minmax.
Qed.

Lemma runLegacy_range (op : LegacyOp) (s : Legacy.Ship) :
  legacyInRange s -> legacyInRange (runLegacy op s).
Proof.
  intros [Hr Hs]. destruct op; simpl.
  - split.
    + rewrite legacy_applyRudder_rudder.
      apply steer_range; [apply rudder_rate_nonneg | exact Hr].
    + rewrite legacy_applyRudder_modules. exact Hs.
  - split; [exact Hr|]. simpl.
    apply mapValues_Forall; [|exact Hs]. intros m. apply legacy_rotate_module.
  - split; [exact Hr|]. simpl.
    apply mapValues_Forall; [|exact Hs]. intros m H.
    destruct (Legacy.type m) eqn:Ht; try exact H.
    destruct (H Ht) as [Ha Ho]. intros _. split; simpl; [exact Ha|].
    intros o Heq. injection Heq as <-. minmax.
  - split; [exact Hr|]. simpl.
    apply mapValues_Forall; [|exact Hs]. intros m H.
    destruct (Legacy.type m) eqn:Ht; try exact H.
    destruct (Legacy.openness m) as [o|] eqn:Hop; try exact H.
    destruct (H Ht) as [Ha Ho]. intros _. split; simpl; [exact Ha|].
    intros o' Heq. injection Heq as <-. specialize (Ho o Hop). minmax.
  - split; [exact Hr|]. simpl.
    apply mapValues_Forall; [|exact Hs]. intros m H.
    destruct (Legacy.type m) eqn:Ht; try exact H.
    destruct (Legacy.openness m) as [o|] eqn:Hop; try exact H.
    destruct (H Ht) as [Ha Ho]. intros _. split; simpl; [exact Ha|].
    intros o' Heq. injection Heq as <-. specialize (Ho o Hop). minmax.
Qed.

Lemma typedBrig_range : typedInRange typedBrig.
Proof.
  split; simpl; [lra|]. constructor; [|constructor].
  split; simpl; minmax.
Qed.

Lemma snapToSlot_fields (m : Legacy.ShipModule) :
  Legacy.type (Legacy.snapToSlot m) = Legacy.type m
  /\ Legacy.openness (Legacy.snapToSlot m) = Legacy.openness m
  /\ Legacy.angle (Legacy.snapToSlot m) = Legacy.angle m.
Proof.
  unfold Legacy.snapToSlot. destruct (Legacy.type m) eqn:Ht.
  - destruct (find _ Hull.CANNONS); simpl; auto.
  - destruct (find _ Hull.MASTS); simpl; auto.
  - match goal with |- context [if ?b then _ else _] => destruct b end;
      simpl; auto.
  - auto.
Qed.

Lemma legacyBrig_range : legacyInRange legacyBrig.
Proof.
  split; simpl; [lra|]. constructor; [|constructor].
  simpl. intros _.
  destruct (snapToSlot_fields
              (Legacy.mkModule sail (mkVec 165 0) 0 100 (Some 100) (Some 0)))
    as (_ & Ho & Ha).
  rewrite Ho, Ha. simpl.
  split; intros v Hv; injection Hv as <-; lra.
Qed.

Lemma centerAngle_outward :
  SailModule.angle (SailModule.centerAngle (-5) (SailModule.rotate (-73.75) fullSail))
  = -78.75.
Proof.
  unfold SailModule.centerAngle, SailModule.rotate, fullSail. simpl.
  assert (E : Rmax (-75) (Rmin 75 (0 + -73.75)) = -73.75) by minmax.
  rewrite E.
  destruct (Rlt_dec 0 (-73.75)) as [H|_]; [lra|].
  destruct (Rlt_dec (-73.75) 0) as [_|H]; [|lra].
  simpl. minmax.
Qed.

(** C6, as stated, fails: [centerAngle] is a setter of the sail module whose
    increment is not checked, and the trim it writes is bounded on the side
    of zero only.  A sail trimmed to -73.75 degrees and then centred by an
    increment of -5 is left at -78.75 degrees, outside [-75, 75]. *)
Lemma centerAngle_leaves_range :
  typedInRange typedBrig
  /\ Typed.sails
       (fold_left (fun st op => runTyped op st)
          [TSailRotate "mainsail" (-73.75); TSailCenterAngle "mainsail" (-5)]
          typedBrig)
     = [("mainsail"%string,
         SailModule.centerAngle (-5) (SailModule.rotate (-73.75) fullSail))]
  /\ SailModule.angle
       (SailModule.centerAngle (-5) (SailModule.rotate (-73.75) fullSail)) = -78.75
  /\ ~ typedInRange
         (fold_left (fun st op => runTyped op st)
            [TSailRotate "mainsail" (-73.75); TSailCenterAngle "mainsail" (-5)]
            typedBrig).
Proof.
  assert (Hs : Typed.sails
       (fold_left (fun st op => runTyped op st)
          [TSailRotate "mainsail" (-73.75); TSailCenterAngle "mainsail" (-5)]
          typedBrig)
     = [("mainsail"%string,
         SailModule.centerAngle (-5) (SailModule.rotate (-73.75) fullSail))])
    by reflexivity.
  split; [exact typedBrig_range|]. split; [exact Hs|].
  split; [exact centerAngle_outward|].
  intros [_ H]. rewrite Hs in H. inversion H as [|kv rest [Ha _] _]; subst.
  simpl in Ha. rewrite centerAngle_outward in Ha. lra.
Qed.

(** C6, amended.  Starting from any vessel whose rudder angle, sail trims
    and sail openness are in range, every sequence of the public mutating
    operations (applyRudder, rotateSails, adjustSails, openSails, closeSails
    and the sail setters setOpenness, open, close, rotate with arbitrary
    arguments, and centerAngle with an increment that is not negative)
    leaves the rudder angle in [-30, 30], every sail trim in [-75, 75] and
    every sail openness in [0, 100]; this holds for the typed vessel and for
    the first version with plain module objects. *)
Theorem clamped_on_write (ops : list TypedOp) (lops : list LegacyOp)
  (s : Typed.Ship) (l : Legacy.Ship) :
  typedInRange s -> legacyInRange l ->
  Forall centersInward ops ->
  typedInRange (fold_left (fun st op => runTyped op st) ops s)
  /\ legacyInRange (fold_left (fun st op => runLegacy op st) lops l).
Proof.
  intros Hs Hl Hops. split.
  - revert s Hs. induction Hops as [|op ops Hop Hops IH]; intros s Hs; simpl;
      [exact Hs|].
    apply IH, runTyped_range; [exact Hop | exact Hs].
  - revert l Hl. induction lops as [|op lops IH]; intros l Hl; simpl; [exact Hl|].
    apply IH, runLegacy_range, Hl.
Qed.

Lemma clamped_on_write_witness :
  typedInRange typedBrig /\ legacyInRange legacyBrig
  /\ Forall centersInward
       [TAdjustSails 250; TSailRotate "mainsail" (-500); TApplyRudder left;
        TSailOpen "mainsail" 1000; TSailCenterAngle "mainsail" 500;
        TRotateSails right]
  /\ typedInRange
       (fold_left (fun st op => runTyped op st)
          [TAdjustSails 250; TSailRotate "mainsail" (-500); TApplyRudder left;
           TSailOpen "mainsail" 1000; TSailCenterAngle "mainsail" 500;
           TRotateSails right]
          typedBrig)
  /\ legacyInRange
       (fold_left (fun st op => runLegacy op st)
          [LAdjustSails (-40); LRotateSails left; LApplyRudder right; LOpenSails]
          legacyBrig).
Proof.
  assert (Hops : Forall centersInward
       [TAdjustSails 250; TSailRotate "mainsail" (-500); TApplyRudder left;
        TSailOpen "mainsail" 1000; TSailCenterAngle "mainsail" 500;
        TRotateSails right]).
  { repeat constructor. simpl. lra. }
  split; [exact typedBrig_range|]. split; [exact legacyBrig_range|].
  split; [exact Hops|].
  exact (clamped_on_write _ _ typedBrig legacyBrig typedBrig_range legacyBrig_range Hops).
Defined.

(** ** Firing *)

(** C7.  [fire] on a cannon that is not loaded returns [false], leaves the
    cannon exactly as it was (turret angle, target angle, loaded flag,
    reload timer and every other field) and has no effect at all: the
    failure is a boolean result. *)
Theorem fire_unloaded_is_noop (c : CannonModule.t) (now worldX worldY shipAngle : R)
  (shipVelocity : option Vec) :
  CannonModule.isLoaded c = false ->
  CannonModule.fire now worldX worldY shipAngle shipVelocity c = (false, c, []).
Proof. intros H. unfold CannonModule.fire. rewrite H. reflexivity. Qed.

Lemma fire_unloaded_is_noop_witness :
  CannonModule.isLoaded spentCannon = false
  /\ CannonModule.fire 1500 100 200 0 (Some (mkVec 3 4)) spentCannon
     = (false, spentCannon, []).
Proof.
  split; [reflexivity|].
  exact (fire_unloaded_is_noop spentCannon 1500 100 200 0 (Some (mkVec 3 4)) eq_refl).
Defined.

(** C8.  The code departs from the claim here.  Firing a loaded cannon that
    has no game reference returns [false], the result it gives for a cannon
    that is not loaded and left untouched; but the cannon has been changed:
    it is left unloaded, with its reload timer restarted at the time of the
    call. *)
Lemma fire_without_game_consumes_load :
  CannonModule.isLoaded orphanCannon = true
  /\ CannonModule.game orphanCannon = NoGame
  /\ fst (fst (CannonModule.fire 5000 10 20 0 None orphanCannon)) = false
  /\ CannonModule.isLoaded
       (snd (fst (CannonModule.fire 5000 10 20 0 None orphanCannon))) = false
  /\ CannonModule.lastFiredTime
       (snd (fst (CannonModule.fire 5000 10 20 0 None orphanCannon))) = 5000
  /\ CannonModule.lastFiredTime orphanCannon = 0
  /\ snd (fst (CannonModule.fire 5000 10 20 0 None orphanCannon)) <> orphanCannon.
Proof.
  repeat split; try reflexivity.
  intros H. apply (f_equal CannonModule.isLoaded) in H. simpl in H. discriminate H.
Qed.

(** The path of [fire] for a loaded cannon whose game reference is missing
    or has no [addCannonball] function, field by field: the result is
    [false], the problem is reported on the console first and no projectile
    is spawned, but the loaded flag and the reload timer have been written
    before the game reference is looked at. *)
Lemma fire_without_spawner (c : CannonModule.t) (now worldX worldY shipAngle : R)
  (shipVelocity : option Vec) :
  CannonModule.isLoaded c = true ->
  CannonModule.game c <> GameWithSpawner ->
  exists msg rest,
    CannonModule.fire now worldX worldY shipAngle shipVelocity c
    = (false,
       CannonModule.withLastFired now (CannonModule.withLoaded false c),
       ConsoleError msg :: rest)
    /\ existsb isSpawn (ConsoleError msg :: rest) = false
    /\ CannonModule.isLoaded
         (CannonModule.withLastFired now (CannonModule.withLoaded false c)) = false
    /\ CannonModule.lastFiredTime
         (CannonModule.withLastFired now (CannonModule.withLoaded false c)) = now
    /\ CannonModule.turretAngle
         (CannonModule.withLastFired now (CannonModule.withLoaded false c))
       = CannonModule.turretAngle c
    /\ CannonModule.targetTurretAngle
         (CannonModule.withLastFired now (CannonModule.withLoaded false c))
       = CannonModule.targetTurretAngle c
    /\ CannonModule.game
         (CannonModule.withLastFired now (CannonModule.withLoaded false c))
       = CannonModule.game c.
Proof.
  intros Hl Hg. unfold CannonModule.fire. rewrite Hl. simpl.
  destruct (CannonModule.game c) eqn:Hgame.
  - eexists _, _. repeat split.
  - eexists _, _. repeat split.
  - contradiction Hg. reflexivity.
Qed.

Lemma fire_without_spawner_witness :
  CannonModule.isLoaded orphanCannon = true
  /\ CannonModule.game orphanCannon <> GameWithSpawner
  /\ exists msg rest,
       CannonModule.fire 5000 10 20 0 None orphanCannon
       = (false,
          CannonModule.withLastFired 5000 (CannonModule.withLoaded false orphanCannon),
          ConsoleError msg :: rest).
Proof.
  assert (Hg : CannonModule.game orphanCannon <> GameWithSpawner)
    by (simpl; discriminate).
  split; [reflexivity|]. split; [exact Hg|].
  destruct (fire_without_spawner orphanCannon 5000 10 20 0 None eq_refl Hg)
    as (msg & rest & H & _).
  exists msg, rest. exact H.
Defined.

(** ** Trimming the sails does not touch the velocity *)

Lemma rotate_sameButAngle (id : string) (d : R) (sl : SailModule.t) :
  sameButAngle (id, sl) (id, SailModule.rotate d sl).
Proof. repeat split. Qed.

Lemma centerAngle_sameButAngle (id : string) (i : R) (sl : SailModule.t) :
  sameButAngle (id, sl) (id, SailModule.centerAngle i sl).
Proof.
  unfold SailModule.centerAngle.
  destruct (Rlt_dec 0 (SailModule.angle sl));
    [|destruct (Rlt_dec (SailModule.angle sl) 0)]; repeat split.
Qed.

Lemma vec_eta (v : Vec) : mkVec (vx v) (vy v) = v.
Proof. destruct v; reflexivity. Qed.

Lemma setVelocity_same (b : Matter.Body) :
  Matter.setVelocity b (Matter.velocity b) = b.
Proof. destruct b; reflexivity. Qed.

(** C10.  For every direction, the typed [rotateSails] leaves the physics
    body, and so the vessel's linear velocity, exactly as it was; it sets
    the two sail-rotation animation fields and changes the trim angle of
    the sails, and nothing else: every other field of the vessel and every
    other field of every sail is unchanged. *)
Theorem rotateSails_keeps_velocity (d : Direction) (s : Typed.Ship) :
  Matter.velocity (Typed.body (Typed.rotateSails d s))
  = Matter.velocity (Typed.body s)
  /\ Typed.body (Typed.rotateSails d s) = Typed.body s
  /\ Typed.isRotatingSails (Typed.rotateSails d s) = true
  /\ Typed.sailRotationTimer (Typed.rotateSails d s) = 10
  /\ Forall2 sameButAngle (Typed.sails s) (Typed.sails (Typed.rotateSails d s))
  /\ Typed.position (Typed.rotateSails d s) = Typed.position s
  /\ Typed.health (Typed.rotateSails d s) = Typed.health s
  /\ Typed.modules (Typed.rotateSails d s) = Typed.modules s
  /\ Typed.cannons (Typed.rotateSails d s) = Typed.cannons s
  /\ Typed.wheels (Typed.rotateSails d s) = Typed.wheels s
  /\ Typed.waterLevel (Typed.rotateSails d s) = Typed.waterLevel s
  /\ Typed.rudderAngle (Typed.rotateSails d s) = Typed.rudderAngle s
  /\ Typed.sailsOpenness (Typed.rotateSails d s) = Typed.sailsOpenness s
  /\ Typed.currentWindDirection (Typed.rotateSails d s) = Typed.currentWindDirection s
  /\ Typed.currentWindPower (Typed.rotateSails d s) = Typed.currentWindPower s
  /\ Typed.forwardForce (Typed.rotateSails d s) = Typed.forwardForce s
  /\ Typed.turningForce (Typed.rotateSails d s) = Typed.turningForce s
  /\ Typed.momentum (Typed.rotateSails d s) = Typed.momentum s
  /\ Typed.moduleVisualPositions (Typed.rotateSails d s) = Typed.moduleVisualPositions s
  /\ Typed.playerAtWheel (Typed.rotateSails d s) = Typed.playerAtWheel s
  /\ Typed.game (Typed.rotateSails d s) = Typed.game s.
Proof.
  assert (Hb : Typed.body (Typed.rotateSails d s) = Typed.body s).
  { unfold Typed.rotateSails. simpl. rewrite vec_eta. apply setVelocity_same. }
  split; [rewrite Hb; reflexivity|]. split; [exact Hb|].
  repeat split.
  unfold Typed.rotateSails. simpl.
  induction (Typed.sails s) as [|[id sl] rest IH]; simpl; constructor; [|exact IH].
  destruct d; simpl.
  - apply rotate_sameButAngle.
  - apply rotate_sameButAngle.
  - apply centerAngle_sameButAngle.
Qed.

(** ** The remainder operator and the angle-wrapping loops *)

Lemma rem_nonneg_range (x y : R) : 0 <= x -> 0 < y -> 0 <= JS.rem x y < y.
Proof.
  intros Hx Hy. unfold JS.rem, JS.trunc.
  assert (Hq : 0 <= x / y) by (apply Rmult_le_pos; [lra | left; apply Rinv_0_lt_compat; lra]).
  destruct (Rle_dec 0 (x / y)); [|lra].
  pose proof (Zfloor_bound (x / y)) as [Hlo Hhi].
  set (f := IZR (Zfloor (x / y))) in *.
  assert (Hxy : x = (x / y) * y) by (field; lra).
  split; nra.
Qed.

Lemma rem_small (x y : R) : - y < x < y -> JS.rem x y = x.
Proof.
  intros [Hlo Hhi]. assert (Hy : 0 < y) by lra.
  assert (Hiy : 0 < / y) by (apply Rinv_0_lt_compat; lra).
  assert (Hq : -1 < x / y < 1).
  { split.
    - apply Rmult_lt_reg_r with y; [lra|]. unfold Rdiv.
      rewrite Rmult_assoc, Rinv_l; lra.
    - apply Rmult_lt_reg_r with y; [lra|]. unfold Rdiv.
      rewrite Rmult_assoc, Rinv_l; lra. }
  unfold JS.rem, JS.trunc. destruct (Rle_dec 0 (x / y)).
  - rewrite (Zfloor_eq 0); simpl; lra.
  - rewrite (Zceil_eq 0); simpl; lra.
Qed.

Lemma whileBelowAdd_done (fuel : nat) (bound step x : R) :
  bound <= x -> JS.whileBelowAdd fuel bound step x = x.
Proof. intros H. destruct fuel; simpl; [reflexivity|]. destruct (Rlt_dec x bound); lra. Qed.

Lemma whileAboveSub_done (fuel : nat) (bound step x : R) :
  x <= bound -> JS.whileAboveSub fuel bound step x = x.
Proof. intros H. destruct fuel; simpl; [reflexivity|]. destruct (Rlt_dec bound x); lra. Qed.

Lemma whileAtLeastSub_done (fuel : nat) (bound step x : R) :
  x < bound -> JS.whileAtLeastSub fuel bound step x = x.
Proof. intros H. destruct fuel; simpl; [reflexivity|]. destruct (Rle_dec bound x); lra. Qed.

Lemma wrapTwoPi_id (a : R) : 0 <= a < PI * 2 -> JS.wrapTwoPi a = a.
Proof.
  intros [Hlo Hhi]. unfold JS.wrapTwoPi.
  rewrite whileBelowAdd_done by lra. apply whileAtLeastSub_done; lra.
Qed.

Lemma wrapPi_id (a : R) : - PI <= a <= PI -> JS.wrapPi a = a.
Proof.
  intros [Hlo Hhi]. unfold JS.wrapPi.
  rewrite whileAboveSub_done by lra. apply whileBelowAdd_done; lra.
Qed.

(** ** The wind cycle *)

Lemma cycleDuration_value : WorldManager.cycleDuration = 300000.
Proof. unfold WorldManager.cycleDuration. lra. Qed.

Lemma cyclePosition_range (e : R) :
  0 <= e -> 0 <= WorldManager.cyclePosition e < 1.
Proof.
  intros He. unfold WorldManager.cyclePosition. rewrite cycleDuration_value.
  pose proof (rem_nonneg_range e 300000 He) as H.
  assert (H3 : 0 < 300000) by lra. specialize (H H3). lra.
Qed.

Lemma directionAt_formula (e : R) :
  0 <= e ->
  WorldManager.directionAt e = WorldManager.cyclePosition e * PI * 2
  /\ 0 <= WorldManager.directionAt e < PI * 2.
Proof.
  intros He. pose proof (cyclePosition_range e He) as Hc. pose proof PI_RGT_0.
  assert (Hr : 0 <= WorldManager.cyclePosition e * PI * 2 < PI * 2) by nra.
  unfold WorldManager.directionAt. rewrite wrapTwoPi_id by exact Hr.
  split; [reflexivity | exact Hr].
Qed.

Lemma clampPower_range (p : R) : 0.5 <= WorldManager.clampPower p <= 2.
Proof. unfold WorldManager.clampPower. split_cmp; lra. Qed.

Lemma clampPower_lower (p q : R) : q <= p -> q <= 2 -> q <= WorldManager.clampPower p.
Proof. intros H1 H2. unfold WorldManager.clampPower. split_cmp; lra. Qed.

Lemma northSouthAxis_first_three_quarters (d : R) :
  0 <= d <= 3 * PI / 2 -> WorldManager.northSouthAxis d <= PI / 2.
Proof.
  intros [Hlo Hhi]. pose proof PI_RGT_0. unfold WorldManager.northSouthAxis.
  destruct (Rle_dec d (PI / 2)).
  - eapply Rle_trans; [apply Rmin_l|].
    rewrite rem_small by lra. rewrite Rabs_right; lra.
  - destruct (Rlt_dec d (2 * PI)) as [_|Hn]; [|lra].
    eapply Rle_trans; [apply Rmin_r|].
    rewrite rem_small by lra. unfold Rabs. destruct (Rcase_abs (d - PI)); lra.
Qed.

Lemma minWindPower_cases (d : R) :
  (WorldManager.isEastWestWind d = true -> WorldManager.minWindPower d = 0.75)
  /\ (WorldManager.isEastWestWind d = false -> WorldManager.minWindPower d = 0.5)
  /\ 0.5 <= WorldManager.minWindPower d <= 0.75.
Proof.
  unfold WorldManager.minWindPower.
  destruct (WorldManager.isEastWestWind d); repeat split; try discriminate; lra.
Qed.

Lemma isEastWestWind_band (d : R) :
  WorldManager.isEastWestWind d = true
  <-> Rabs (d - PI / 2) < PI / 6 \/ Rabs (d - 3 * PI / 2) < PI / 6.
Proof.
  unfold WorldManager.isEastWestWind. rewrite orb_true_iff, !ltb_true. reflexivity.
Qed.

Lemma scaledPower_floor (d : R) :
  0 <= d <= 3 * PI / 2 -> WorldManager.minWindPower d <= WorldManager.scaledPower d.
Proof.
  intros Hd. pose proof (northSouthAxis_first_three_quarters d Hd) as Hax.
  pose proof (minWindPower_cases d) as (_ & _ & Hm). pose proof PI_RGT_0.
  unfold WorldManager.scaledPower, WorldManager.northSouthAlignment.
  assert (Hal : 0 <= 1 - WorldManager.northSouthAxis d / (PI / 2)).
  { assert (WorldManager.northSouthAxis d / (PI / 2) <= 1); [|lra].
    apply Rmult_le_reg_r with (PI / 2); [lra|].
    unfold Rdiv at 1. rewrite Rmult_assoc, Rinv_l; lra. }
  nra.
Qed.

Lemma rem_second_turn (x y : R) : 0 < y -> y <= x < 2 * y -> JS.rem x y = x - y.
Proof.
  intros Hy [Hlo Hhi].
  assert (Hq : 1 <= x / y < 2).
  { split.
    - apply Rmult_le_reg_r with y; [lra|]. unfold Rdiv.
      rewrite Rmult_assoc, Rinv_l; lra.
    - apply Rmult_lt_reg_r with y; [lra|]. unfold Rdiv.
      rewrite Rmult_assoc, Rinv_l; lra. }
  unfold JS.rem, JS.trunc. destruct (Rle_dec 0 (x / y)); [|lra].
  rewrite (Zfloor_eq 1); simpl; lra.
Qed.

(** From due south on, both branches of [northSouthAxis] measure the
    distance back to π; neither measures the distance on to 2π. *)
Lemma northSouthAxis_second_half (d : R) :
  PI <= d < 2 * PI -> WorldManager.northSouthAxis d = d - PI.
Proof.
  intros [Hlo Hhi]. pose proof PI_RGT_0. unfold WorldManager.northSouthAxis.
  rewrite rem_second_turn by lra. rewrite rem_small by lra.
  rewrite Rabs_right by lra. apply Rmin_left. lra.
Qed.

(** So past due west the alignment is negative and the scaled power falls
    below the floor it was to start from. *)
Lemma scaledPower_past_west (d : R) :
  3 * PI / 2 < d < 2 * PI ->
  WorldManager.northSouthAlignment d < 0
  /\ WorldManager.scaledPower d < WorldManager.minWindPower d.
Proof.
  intros [Hlo Hhi]. pose proof PI_RGT_0 as Hpi.
  pose proof (minWindPower_cases d) as (_ & _ & Hm).
  unfold WorldManager.scaledPower, WorldManager.northSouthAlignment.
  rewrite northSouthAxis_second_half by lra.
  assert (Hal : 1 < (d - PI) / (PI / 2)).
  { apply Rmult_lt_reg_r with (PI / 2); [lra|].
    replace ((d - PI) / (PI / 2) * (PI / 2)) with (d - PI) by (field; lra). lra. }
  split; [lra | nra].
Qed.

(** C9, as stated, fails: 75 seconds into the cycle the wind blows due east,
    inside the east band, and with the smallest random variation the
    resulting power is 0.70, below the raised floor of 0.75. *)
Lemma wind_due_east_below_floor :
  WorldManager.windDirection (WorldManager.updateWind 75000 0 freshWind) = PI / 2
  /\ WorldManager.isEastWestWind
       (WorldManager.windDirection (WorldManager.updateWind 75000 0 freshWind)) = true
  /\ WorldManager.windPower (WorldManager.updateWind 75000 0 freshWind) = 0.70
  /\ WorldManager.windPower (WorldManager.updateWind 75000 0 freshWind) < 0.75.
Proof.
  pose proof PI_RGT_0 as Hpi.
  assert (Hd : WorldManager.directionAt (75000 - 0) = PI / 2).
  { destruct (directionAt_formula (75000 - 0)) as [Hf _]; [lra|]. rewrite Hf.
    unfold WorldManager.cyclePosition. rewrite cycleDuration_value.
    rewrite rem_small by lra. lra. }
  assert (Hb : WorldManager.isEastWestWind (PI / 2) = true).
  { apply isEastWestWind_band. left.
    replace (PI / 2 - PI / 2) with 0 by lra. rewrite Rabs_R0. lra. }
  assert (Hp : WorldManager.windPower (WorldManager.updateWind 75000 0 freshWind) = 0.70).
  { unfold WorldManager.updateWind. simpl. rewrite Hd.
    unfold WorldManager.scaledPower, WorldManager.northSouthAlignment,
      WorldManager.minWindPower, WorldManager.northSouthAxis.
    rewrite Hb. rewrite !rem_small by lra.
    replace (Rmin (Rabs (PI / 2)) (Rabs (PI / 2 - PI))) with (PI / 2) by minmax.
    replace (PI / 2 / (PI / 2)) with 1 by (field; lra).
    unfold WorldManager.clampPower. split_cmp; lra. }
  assert (Hdir : WorldManager.windDirection (WorldManager.updateWind 75000 0 freshWind)
                 = PI / 2) by (simpl; exact Hd).
  rewrite Hdir, Hp. repeat split; try assumption; lra.
Qed.

(** C9, amended.  For every non-negative elapsed time, [updateWind] sets the
    direction to ((elapsed mod period) / period) * 2π with the period fixed
    at 300000 ms, a value in [0, 2π) that depends on the elapsed time only;
    for every value of the random variation the resulting power lies in
    [0.5, 2.0]; within 30° of due east or due west the floor used to scale
    the power is 0.75 instead of 0.5; and, for directions up to due west and
    a variation of at least -0.05, the resulting power is at least that
    floor less 0.05. *)
Theorem wind_cycle (now random : R) (w : WorldManager.t) :
  0 <= now - WorldManager.windSystemStartTime w ->
  let elapsed := now - WorldManager.windSystemStartTime w in
  let w' := WorldManager.updateWind now random w in
  let d := WorldManager.windDirection w' in
  d = (JS.rem elapsed 300000 / 300000) * PI * 2
  /\ 0 <= d < PI * 2
  /\ 0.5 <= WorldManager.windPower w' <= 2.0
  /\ WorldManager.windSystemStartTime w' = WorldManager.windSystemStartTime w
  /\ (Rabs (d - PI / 2) < PI / 6 \/ Rabs (d - 3 * PI / 2) < PI / 6 ->
      WorldManager.minWindPower d = 0.75)
  /\ (0 <= random -> d <= 3 * PI / 2 ->
      WorldManager.minWindPower d - 0.05 <= WorldManager.windPower w')
  /\ (0 <= random -> Rabs (d - PI / 2) < PI / 6 -> 0.70 <= WorldManager.windPower w').
Proof.
  intros He elapsed w' d.
  destruct (directionAt_formula elapsed He) as [Hf Hr].
  assert (Hd : d = WorldManager.directionAt elapsed) by reflexivity.
  assert (Hp : WorldManager.windPower w'
               = WorldManager.clampPower
                   (WorldManager.scaledPower d + (random - 0.5) * 0.1)) by reflexivity.
  pose proof (minWindPower_cases d) as (Hew & _ & Hm).
  pose proof PI_RGT_0 as Hpi.
  assert (Hfloor : 0 <= random -> d <= 3 * PI / 2 ->
                   WorldManager.minWindPower d - 0.05 <= WorldManager.windPower w').
  { intros Hrand Hd32. rewrite Hp. apply clampPower_lower; [|lra].
    assert (WorldManager.minWindPower d <= WorldManager.scaledPower d); [|lra].
    apply scaledPower_floor. rewrite Hd. lra. }
  split; [|split; [|split; [|split; [|split; [|split]]]]].
  - rewrite Hd, Hf. unfold WorldManager.cyclePosition.
    rewrite cycleDuration_value. reflexivity.
  - rewrite Hd. exact Hr.
  - rewrite Hp. replace 2.0 with 2 by lra. apply clampPower_range.
  - reflexivity.
  - intros Hband. apply Hew, isEastWestWind_band, Hband.
  - exact Hfloor.
  - intros Hrand Hband.
    assert (Hd32 : d <= 3 * PI / 2) by (revert Hband; minmax).
    specialize (Hfloor Hrand Hd32).
    rewrite (Hew (proj2 (isEastWestWind_band d) (or_introl Hband))) in Hfloor. lra.
Qed.

Lemma wind_cycle_witness :
  0 <= 75000 - WorldManager.windSystemStartTime freshWind
  /\ 0.5 <= WorldManager.windPower (WorldManager.updateWind 75000 0 freshWind) <= 2.0.
Proof.
  assert (He : 0 <= 75000 - WorldManager.windSystemStartTime freshWind)
    by (simpl; lra).
  split; [exact He|].
  destruct (wind_cycle 75000 0 freshWind He) as (_ & _ & Hp & _). exact Hp.
Defined.

(** ** Wind force: thrust along the heading *)

Lemma alignment_legacy_pos (a : R) : 0.1 <= Legacy.alignmentFactor a.
Proof. unfold Legacy.alignmentFactor. apply Rmax_l. Qed.

Lemma alignment_typed_pos (a : R) : 0.15 <= Typed.alignmentFactor a.
Proof. unfold Typed.alignmentFactor. apply Rmax_l. Qed.

Lemma angleBonus_nonneg (a : R) : 0 <= Rmin 0.2 (Rabs a / 75 * 0.2).
Proof.
  pose proof (Rabs_pos a). apply Rmin_glb; [lra|].
  unfold Rdiv. nra.
Qed.

Lemma sailTerm_pos (d a o : R) : 0 < o -> 0 < Legacy.sailTerm d a o.
Proof.
  intros Ho. rewrite legacy_sailTerm_factor.
  pose proof (angleEfficiency_range d). pose proof (angleBonus_nonneg a).
  apply Rmult_lt_0_compat; lra.
Qed.

Lemma legacy_sailStats_open (ms : IdMap.t Legacy.ShipModule) :
  snd (Legacy.sailStats ms) = existsb legacyOpenSail ms.
Proof.
  unfold Legacy.sailStats.
  match goal with
  | |- snd (fold_left ?f ms _) = _ =>
      enough (H : forall t c b,
                 snd (fold_left f ms (t, c, b)) = b || existsb legacyOpenSail ms)
        by apply H
  end.
  induction ms as [|[id m] rest IH]; intros t c b; simpl.
  - rewrite orb_false_r. reflexivity.
  - unfold legacyOpenSail at 1. simpl.
    destruct (Legacy.type m); simpl; rewrite IH; try reflexivity.
    rewrite orb_assoc. reflexivity.
Qed.

Lemma legacy_efficiency_fold (wd ba : R) (ms : IdMap.t Legacy.ShipModule) :
  forall t c,
    0 <= c -> (0 < c -> 0 < t) -> (c = 0 -> t = 0) ->
    let r := fold_left
               (fun acc kv =>
                  let m := snd kv in
                  if ModuleType_eqb (Legacy.type m) sail
                     && JS.gtb (Legacy.orZero (Legacy.openness m)) 0 then
                    let sailAngle := Legacy.orZero (Legacy.angle m) in
                    let d := Legacy.angleDiffDegrees wd ba sailAngle in
                    (fst acc + Legacy.sailTerm d sailAngle
                                 (Legacy.orZero (Legacy.openness m)), snd acc + 1)
                  else acc) ms (t, c) in
    0 <= snd r /\ (0 < snd r -> 0 < fst r)
    /\ (existsb legacyOpenSail ms = true -> 0 < snd r).
Proof.
  induction ms as [|[id m] rest IH]; intros t c Hc Hpos Hz; simpl.
  - repeat split; auto. discriminate.
  - unfold legacyOpenSail at 1. simpl.
    destruct (ModuleType_eqb (Legacy.type m) sail
              && JS.gtb (Legacy.orZero (Legacy.openness m)) 0) eqn:Hopen; simpl.
    + apply andb_prop in Hopen as [_ Ho]. apply ltb_true in Ho.
      pose proof (sailTerm_pos
                    (Legacy.angleDiffDegrees wd ba (Legacy.orZero (Legacy.angle m)))
                    (Legacy.orZero (Legacy.angle m)) _ Ho) as Hterm.
      match goal with
      | |- context [fold_left ?f rest (?t', ?c')] =>
          destruct (IH t' c') as (H1 & H2 & H3)
      end.
      * lra.
      * intros _. destruct (Req_dec c 0) as [E|E]; [rewrite (Hz E); lra|].
        assert (0 < t) by (apply Hpos; lra). lra.
      * intros E. lra.
      * repeat split; auto. intros _.
        match goal with
        | |- 0 < snd (fold_left ?f rest (?t', ?c')) =>
            assert (Hmono : forall l a b, 0 < b -> 0 < snd (fold_left f l (a, b)))
        end.
        { clear. induction l as [|kv l IHl]; intros a b Hb; simpl; [exact Hb|].
          destruct (ModuleType_eqb _ _ && _); simpl; apply IHl; lra. }
        apply Hmono. lra.
    + apply IH; assumption.
Qed.

Lemma legacy_efficiency_pos (s : Legacy.Ship) :
  existsb legacyOpenSail (Legacy.modules s) = true ->
  0 < Legacy.calculateSailEfficiency s.
Proof.
  intros Hex. unfold Legacy.calculateSailEfficiency.
  pose proof (legacy_efficiency_fold (Legacy.currentWindDirection s)
                (Matter.angle (Legacy.body s)) (Legacy.modules s) 0 0) as H.
  cbv zeta in H.
  destruct H as (H1 & H2 & H3); try lra.
  destruct (fold_left _ (Legacy.modules s) (0, 0)) as [t c]. simpl in *.
  specialize (H3 Hex). specialize (H2 H3).
  destruct (Rlt_dec 0 c); [|lra].
  apply Rmin_glb_lt; [lra|]. apply Rdiv_lt_0_compat; assumption.
Qed.

Lemma legacy_applyWindForce_force (wd wp : R) (s : Legacy.Ship) :
  existsb legacyOpenSail (Legacy.modules s) = true ->
  let h := Matter.angle (Legacy.body s) in
  let s' := Legacy.applyWindForce wd wp s in
  let k := wp * Legacy.calculateSailEfficiency (Legacy.withWind wd wp s) * 0.024
           * Legacy.alignmentFactor (Legacy.relativeWindAngle wd h) in
  Matter.force (Legacy.body s')
  = mkVec (vx (Matter.force (Legacy.body s)) + cos h * k)
          (vy (Matter.force (Legacy.body s)) + sin h * k)
  /\ Legacy.forwardForce s'
     = wp * Legacy.calculateSailEfficiency (Legacy.withWind wd wp s) * 0.024.
Proof.
  intros Hex h s' k.
  pose proof (legacy_efficiency_pos (Legacy.withWind wd wp s) Hex) as Heff.
  unfold s', Legacy.applyWindForce. cbv zeta.
  pose proof (legacy_sailStats_open (Legacy.modules s)) as Hopen.
  change (Legacy.modules (Legacy.withWind wd wp s)) with (Legacy.modules s).
  destruct (Legacy.sailStats (Legacy.modules s)) as [[t c] b].
  simpl in Hopen. rewrite Hex in Hopen. subst b. simpl negb. cbv iota.
  rewrite andb_false_l.
  match goal with
  | |- context [Legacy.calculateSailEfficiency ?x] =>
      change (Legacy.calculateSailEfficiency x)
        with (Legacy.calculateSailEfficiency (Legacy.withWind wd wp s))
  end.
  destruct (Rlt_dec 0 (Legacy.calculateSailEfficiency (Legacy.withWind wd wp s)));
    [|lra].
  simpl. split; reflexivity.
Qed.

Lemma typed_sailStats_open (ss : IdMap.t SailModule.t) :
  snd (Typed.sailStats ss) = existsb typedOpenSail ss.
Proof.
  unfold Typed.sailStats.
  match goal with
  | |- snd (fold_left ?f ss _) = _ =>
      enough (H : forall t c b,
                 snd (fold_left f ss (t, c, b)) = b || existsb typedOpenSail ss)
        by apply H
  end.
  induction ss as [|[id sl] rest IH]; intros t c b; simpl.
  - rewrite orb_false_r. reflexivity.
  - rewrite IH. unfold typedOpenSail at 2. simpl. rewrite orb_assoc. reflexivity.
Qed.

Lemma typed_sailStats_nonneg (ss : IdMap.t SailModule.t) :
  Forall (fun kv => 0 <= SailModule.openness (snd kv)) ss ->
  0 <= fst (fst (Typed.sailStats ss)) /\ 0 <= snd (fst (Typed.sailStats ss)).
Proof.
  unfold Typed.sailStats.
  match goal with
  | |- _ -> 0 <= fst (fst (fold_left ?f ss _)) /\ _ =>
      enough (H : forall t c b,
                 Forall (fun kv => 0 <= SailModule.openness (snd kv)) ss ->
                 0 <= t -> 0 <= c ->
                 0 <= fst (fst (fold_left f ss (t, c, b)))
                 /\ 0 <= snd (fst (fold_left f ss (t, c, b))))
        by (intros HF; apply H; [exact HF | lra | lra])
  end.
  induction ss as [|[id sl] rest IH]; intros t c b HF Ht Hc; simpl.
  - split; assumption.
  - inversion HF as [|x l Hx Hl]; subst. simpl in Hx.
    apply IH; [exact Hl | lra | lra].
Qed.

Lemma typed_efficiency_pos (s : Typed.Ship) :
  existsb typedOpenSail (Typed.sails s) = true ->
  0.2 <= Typed.calculateSailEfficiency s.
Proof.
  intros Hex. unfold Typed.calculateSailEfficiency.
  match goal with
  | |- context [fold_left ?f (Typed.sails s) (0, 0)] =>
      assert (Hc : forall l t c,
                 0 <= c ->
                 0 <= snd (fold_left f l (t, c))
                 /\ (0 < c \/ existsb typedOpenSail l = true ->
                     0 < snd (fold_left f l (t, c))))
  end.
  { induction l as [|[id sl] rest IH]; intros t c Hc; simpl.
    - split; [exact Hc|]. intros [H|H]; [exact H | discriminate].
    - unfold typedOpenSail at 1. simpl.
      destruct (JS.gtb (SailModule.openness sl) 0) eqn:Ho; simpl.
      + destruct (IH (t + Typed.sailTerm
                            (Legacy.angleDiffDegrees (Typed.currentWindDirection s)
                               (Matter.angle (Typed.body s)) (SailModule.angle sl)) sl)
                    (c + 1)) as [H1 H2]; [lra|].
        split; [exact H1|]. intros _. apply H2. left. lra.
      + apply IH. exact Hc. }
  destruct (Hc (Typed.sails s) 0 0) as [_ Hpos]; [lra|].
  destruct (fold_left _ (Typed.sails s) (0, 0)) as [t c]. simpl in Hpos.
  destruct (Rlt_dec 0 c) as [_|Hn]; [apply Rmax_l|].
  exfalso. apply Hn, Hpos. right. exact Hex.
Qed.

Lemma typed_applyWindForce_force (wd wp : R) (s : Typed.Ship) :
  existsb typedOpenSail (Typed.sails s) = true ->
  let h := Matter.angle (Typed.body s) in
  let s' := Typed.applyWindForce wd wp s in
  let total := fst (fst (Typed.sailStats (Typed.sails s))) in
  let count := snd (fst (Typed.sailStats (Typed.sails s))) in
  let avg := if Rlt_dec 0 count then total / count else 0 in
  let k := (0.8 + wp)
           * Rmax 0.40 (Typed.calculateSailEfficiency (Typed.withWind wd wp s))
           * 0.08 * (avg / 100)
           * Typed.alignmentFactor (Legacy.relativeWindAngle wd h) in
  Matter.force (Typed.body s')
  = mkVec (vx (Matter.force (Typed.body s)) + cos h * k)
          (vy (Matter.force (Typed.body s)) + sin h * k).
Proof.
  intros Hex h s' total count avg k.
  pose proof (typed_efficiency_pos (Typed.withWind wd wp s) Hex) as Heff.
  unfold s', Typed.applyWindForce. cbv zeta.
  pose proof (typed_sailStats_open (Typed.sails s)) as Hopen.
  change (Typed.sails (Typed.withWind wd wp s)) with (Typed.sails s).
  unfold k, avg, count, total.
  destruct (Typed.sailStats (Typed.sails s)) as [[t c] b].
  simpl in Hopen. rewrite Hex in Hopen. subst b. simpl negb. cbv iota.
  rewrite andb_false_l.
  match goal with
  | |- context [Rlt_dec 0 (Typed.calculateSailEfficiency ?x)] =>
      change (Typed.calculateSailEfficiency x)
        with (Typed.calculateSailEfficiency (Typed.withWind wd wp s))
  end.
  destruct (Rlt_dec 0 (Typed.calculateSailEfficiency (Typed.withWind wd wp s)));
    [|lra].
  simpl. reflexivity.
Qed.

Lemma legacyBrig_open : existsb legacyOpenSail (Legacy.modules legacyBrig) = true.
Proof.
  simpl. unfold legacyOpenSail. simpl.
  destruct (snapToSlot_fields
              (Legacy.mkModule sail (mkVec 165 0) 0 100 (Some 100) (Some 0)))
    as (Ht & Ho & _).
  rewrite Ht, Ho. simpl.
  replace (JS.gtb 100 0) with true; [reflexivity|].
  symmetry. apply ltb_true. lra.
Qed.

Lemma typedBrig_open : existsb typedOpenSail (Typed.sails typedBrig) = true.
Proof.
  simpl. unfold typedOpenSail. simpl.
  replace (JS.gtb (Rmax 0 (Rmin 100 100)) 0) with true; [reflexivity|].
  symmetry. apply ltb_true. minmax.
Qed.

(** C1, as stated, fails: the wind power is an argument of any sign, and
    with a negative power the force on the body points against the
    heading.  Here the vessel heads along +x with one sail fully open. *)
Lemma negative_wind_pushes_astern :
  Matter.angle (Legacy.body legacyBrig) = 0
  /\ Matter.force (Legacy.body legacyBrig) = mkVec 0 0
  /\ vx (Matter.force (Legacy.body (Legacy.applyWindForce 0 (-1) legacyBrig))) < 0
  /\ ~ (exists k, 0 <= k
        /\ vx (Matter.force (Legacy.body (Legacy.applyWindForce 0 (-1) legacyBrig)))
           = k * cos (Matter.angle (Legacy.body legacyBrig))).
Proof.
  destruct (legacy_applyWindForce_force 0 (-1) legacyBrig legacyBrig_open) as [HF _].
  cbv zeta in HF.
  pose proof (legacy_efficiency_pos (Legacy.withWind 0 (-1) legacyBrig) legacyBrig_open)
    as Heff.
  pose proof (alignment_legacy_pos
                (Legacy.relativeWindAngle 0 (Matter.angle (Legacy.body legacyBrig))))
    as Hal.
  change (Matter.angle (Legacy.body legacyBrig)) with 0 in *.
  change (Matter.force (Legacy.body legacyBrig)) with (mkVec 0 0) in *.
  simpl vx in HF. simpl vy in HF. rewrite cos_0 in *.
  set (e := Legacy.calculateSailEfficiency (Legacy.withWind 0 (-1) legacyBrig)) in *.
  set (a := Legacy.alignmentFactor (Legacy.relativeWindAngle 0 0)) in *.
  assert (Hx : vx (Matter.force (Legacy.body (Legacy.applyWindForce 0 (-1) legacyBrig)))
               < 0).
  { rewrite HF. simpl. nra. }
  repeat split; try assumption.
  intros (k & Hk & Hv). lra.
Qed.

(** C1, amended.  For every heading, wind direction, non-negative wind power
    and sail configuration with at least one open sail (and, in the typed
    vessel, no sail of negative openness), the force that [applyWindForce]
    adds to the physics body is a non-negative multiple [k] of the heading
    unit vector (cos heading, sin heading); wind direction and sail trim
    enter only through the scalar [k]. *)
Theorem thrust_along_heading (wd wp : R) (l : Legacy.Ship) (s : Typed.Ship) :
  0 <= wp ->
  (exists id m, In (id, m) (Legacy.modules l) /\ Legacy.type m = sail
                /\ 0 < Legacy.orZero (Legacy.openness m)) ->
  (exists id sl, In (id, sl) (Typed.sails s) /\ 0 < SailModule.openness sl) ->
  Forall (fun kv => 0 <= SailModule.openness (snd kv)) (Typed.sails s) ->
  (exists k, 0 <= k
     /\ k = Legacy.forwardForce (Legacy.applyWindForce wd wp l)
            * Legacy.alignmentFactor
                (Legacy.relativeWindAngle wd (Matter.angle (Legacy.body l)))
     /\ vx (Matter.force (Legacy.body (Legacy.applyWindForce wd wp l)))
        = vx (Matter.force (Legacy.body l)) + k * cos (Matter.angle (Legacy.body l))
     /\ vy (Matter.force (Legacy.body (Legacy.applyWindForce wd wp l)))
        = vy (Matter.force (Legacy.body l)) + k * sin (Matter.angle (Legacy.body l)))
  /\ (exists k, 0 <= k
     /\ vx (Matter.force (Typed.body (Typed.applyWindForce wd wp s)))
        = vx (Matter.force (Typed.body s)) + k * cos (Matter.angle (Typed.body s))
     /\ vy (Matter.force (Typed.body (Typed.applyWindForce wd wp s)))
        = vy (Matter.force (Typed.body s)) + k * sin (Matter.angle (Typed.body s))).
Proof.
  intros Hwp (id & m & Hin & Hty & Hop) (id' & sl & Hin' & Hop') Hall.
  assert (HexL : existsb legacyOpenSail (Legacy.modules l) = true).
  { apply existsb_exists. exists (id, m). split; [exact Hin|].
    unfold legacyOpenSail. simpl. rewrite Hty. simpl. apply ltb_true. exact Hop. }
  assert (HexT : existsb typedOpenSail (Typed.sails s) = true).
  { apply existsb_exists. exists (id', sl). split; [exact Hin'|].
    unfold typedOpenSail. simpl. apply ltb_true. exact Hop'. }
  split.
  - destruct (legacy_applyWindForce_force wd wp l HexL) as [HF Hfw]. cbv zeta in HF.
    pose proof (legacy_efficiency_pos (Legacy.withWind wd wp l) HexL) as Heff.
    pose proof (alignment_legacy_pos
                  (Legacy.relativeWindAngle wd (Matter.angle (Legacy.body l)))) as Hal.
    eexists. split; [|split; [reflexivity|]].
    + rewrite Hfw. apply Rmult_le_pos; [|lra].
      apply Rmult_le_pos; [|lra]. apply Rmult_le_pos; lra.
    + rewrite HF, Hfw. simpl. split; ring.
  - pose proof (typed_applyWindForce_force wd wp s HexT) as HF. cbv zeta in HF.
    pose proof (typed_sailStats_nonneg (Typed.sails s) Hall) as [Ht Hc].
    pose proof (alignment_typed_pos
                  (Legacy.relativeWindAngle wd (Matter.angle (Typed.body s)))) as Hal.
    match type of HF with _ = mkVec (_ + _ * ?k) _ => exists k end.
    split; [|rewrite HF; simpl; split; ring].
    set (t := fst (fst (Typed.sailStats (Typed.sails s)))) in *.
    set (c := snd (fst (Typed.sailStats (Typed.sails s)))) in *.
    assert (Havg : 0 <= (if Rlt_dec 0 c then t / c else 0) / 100).
    { destruct (Rlt_dec 0 c); [|lra].
      apply Rmult_le_pos; [|lra]. apply Rmult_le_pos; [lra|].
      left. apply Rinv_0_lt_compat. lra. }
    pose proof (Rmax_l 0.40 (Typed.calculateSailEfficiency (Typed.withWind wd wp s))).
    apply Rmult_le_pos; [|lra]. apply Rmult_le_pos; [|exact Havg].
    apply Rmult_le_pos; [|lra]. apply Rmult_le_pos; lra.
Qed.

Lemma thrust_along_heading_witness :
  0 <= 1.5
  /\ exists k, 0 <= k
     /\ vx (Matter.force (Typed.body (Typed.applyWindForce 0 1.5 typedBrig)))
        = vx (Matter.force (Typed.body typedBrig))
          + k * cos (Matter.angle (Typed.body typedBrig)).
Proof.
  assert (Hw : 0 <= 1.5) by lra.
  assert (HL : exists id m, In (id, m) (Legacy.modules legacyBrig)
                            /\ Legacy.type m = sail
                            /\ 0 < Legacy.orZero (Legacy.openness m)).
  { eexists _, _. split; [left; reflexivity|].
    destruct (snapToSlot_fields
                (Legacy.mkModule sail (mkVec 165 0) 0 100 (Some 100) (Some 0)))
      as (Ht & Ho & _).
    rewrite Ht, Ho. simpl. split; [reflexivity | lra]. }
  assert (HT : exists id sl, In (id, sl) (Typed.sails typedBrig)
                             /\ 0 < SailModule.openness sl).
  { eexists _, _. split; [left; reflexivity|]. simpl. minmax. }
  assert (HA : Forall (fun kv => 0 <= SailModule.openness (snd kv))
                 (Typed.sails typedBrig)).
  { constructor; [simpl; minmax | constructor]. }
  split; [exact Hw|].
  destruct (thrust_along_heading 0 1.5 legacyBrig typedBrig Hw HL HT HA)
    as [_ (k & Hk & Hx & _)].
  exists k. split; assumption.
Defined.

(** ** The hull: exact outline and approximations *)

Lemma bow_curve_point (y : R) :
  Hull.bowY (Hull.bowParam y) = y
  /\ Hull.bowX (Hull.bowParam y) = 190 + (8100 - y * y) / 72.
Proof.
  unfold Hull.bowY, Hull.bowX, Hull.bowParam, Hull.bezier. simpl. split; field.
Qed.

Lemma stern_curve_point (y : R) :
  Hull.sternY (Hull.sternParam y) = y
  /\ Hull.sternX (Hull.sternParam y) = -260 - 17 * (8100 - y * y) / 3240.
Proof.
  unfold Hull.sternY, Hull.sternX, Hull.sternParam, Hull.bezier. simpl. split; field.
Qed.

Lemma cos_sin_unit (a : R) : cos a * cos a + sin a * sin a = 1.
Proof. pose proof (sin2_cos2 a) as H. unfold Rsqr in H. lra. Qed.

Lemma inPath_spec (x y : R) :
  Hull.inPath x y = true
  <-> -90 <= y <= 90
      /\ -260 - 17 * (8100 - y * y) / 3240 <= x <= 190 + (8100 - y * y) / 72.
Proof.
  unfold Hull.inPath.
  destruct (bow_curve_point y) as [_ ->]. destruct (stern_curve_point y) as [_ ->].
  rewrite !andb_true_iff, !leb_true. tauto.
Qed.

(** Under the identity transform the canvas test is the test of the region
    itself. *)
Lemma isPointInPath_identity (x y : R) :
  Hull.isPointInPath Canvas.identity x y = Hull.inPath x y.
Proof.
  unfold Hull.isPointInPath, JS.eqb, Canvas.unapply, Canvas.det. simpl.
  destruct (Req_dec_T (1 * 1 - 0 * 0) 0) as [H|_]; [lra|].
  f_equal; field; lra.
Qed.

(** Under an invertible transform the canvas test accepts the canvas point
    where the transform puts a path point exactly when that path point is
    in the region. *)
Lemma isPointInPath_apply (m : Canvas.Transform) (x y : R) :
  Canvas.det m <> 0 ->
  Hull.isPointInPath m (vx (Canvas.apply m (mkVec x y))) (vy (Canvas.apply m (mkVec x y)))
  = Hull.inPath x y.
Proof.
  intros Hd. unfold Hull.isPointInPath, JS.eqb.
  destruct (Req_dec_T (Canvas.det m) 0) as [H|_]; [contradiction|].
  cbv zeta. unfold Canvas.unapply, Canvas.apply. cbn [vx vy].
  unfold Canvas.det in *. f_equal; field; exact Hd.
Qed.

(** Under the transform of [testWalkableArea], set up on a fresh context,
    the canvas test at [(x, y)] is the test of the region at the local
    coordinates of the world point [(x, y)]. *)
Lemma isPointInPath_walkableArea (s : Legacy.Ship) (x y : R) :
  Hull.isPointInPath (Legacy.walkableAreaTransform Canvas.identity s) x y
  = Hull.inPath (vx (Legacy.toLocal x y s)) (vy (Legacy.toLocal x y s)).
Proof.
  unfold Hull.isPointInPath, JS.eqb, Legacy.walkableAreaTransform, Legacy.toLocal.
  unfold Canvas.unapply, Canvas.det, Canvas.rotate, Canvas.translate. simpl.
  rewrite !cos_neg, !sin_neg.
  set (a := Matter.angle (Legacy.body s)).
  pose proof (cos_sin_unit a) as Ha.
  assert (Hdet : (1 * cos a + 0 * sin a) * (1 * cos a - 0 * sin a)
                 - (0 * cos a + 1 * sin a) * (0 * cos a - 1 * sin a) = 1)
    by (transitivity (cos a * cos a + sin a * sin a); [ring | exact Ha]).
  rewrite Hdet.
  destruct (Req_dec_T 1 0) as [H|_]; [lra|].
  f_equal; field.
Qed.

Lemma midsection_exact (x y : R) :
  -220 <= x <= 150 ->
  Hull.inPath x y = JS.leb (-90) y && JS.leb y 90.
Proof.
  intros Hx. apply eq_true_iff_eq.
  rewrite inPath_spec, andb_true_iff, !leb_true.
  split; [tauto|]. intros [H1 H2]. split; [tauto|]. nra.
Qed.

Lemma midsection_legacy (x y : R) :
  -220 <= x <= 150 ->
  Legacy.inHullApprox x y = JS.leb (-90) y && JS.leb y 90.
Proof.
  intros Hx. unfold Legacy.inHullApprox.
  replace (JS.geb x (-300)) with true by (symmetry; apply leb_true; lra).
  replace (JS.leb x 320) with true by (symmetry; apply leb_true; lra).
  replace (JS.gtb x 150) with false by (symmetry; apply ltb_false; lra).
  replace (JS.ltb x (-220)) with false by (symmetry; apply ltb_false; lra).
  simpl. rewrite !andb_true_r. reflexivity.
Qed.

Lemma midsection_typed (x y : R) :
  -220 <= x <= 150 ->
  Typed.isInHull None x y = JS.leb (-90) y && JS.leb y 90.
Proof.
  intros Hx. unfold Typed.isInHull.
  replace (JS.ltb x (-345)) with false by (symmetry; apply ltb_false; lra).
  replace (JS.gtb x 415) with false by (symmetry; apply ltb_false; lra).
  simpl. rewrite negb_orb. unfold JS.gtb, JS.ltb, JS.leb.
  destruct (Rlt_dec y (-90)), (Rlt_dec 90 y), (Rle_dec (-90) y), (Rle_dec y 90);
    simpl; try reflexivity; lra.
Qed.

Lemma toLocal_unturned (x y px py : R) :
  Legacy.toLocal x y (Legacy.new px py) = mkVec (x - px) (y - py).
Proof.
  unfold Legacy.toLocal. simpl. rewrite Ropp_0, cos_0, sin_0. f_equal; ring.
Qed.

(** C4, as stated, fails.  With a context whose transform is the identity:
    just ahead of the bow tip the approximations accept points that the
    exact outline rejects, and just inside the stern tip the first version's
    approximation rejects a point of the outline.  With the context as
    [testWalkableArea] passes it, moved to a vessel at (400, 350), the exact
    test rejects the vessel's own centre, which the approximation accepts. *)
Lemma hull_tests_disagree :
  Legacy.isInHull (Some Canvas.identity) 310 0 = false
  /\ Legacy.isInHull None 310 0 = true
  /\ Legacy.isInHull (Some Canvas.identity) (-301) 0 = true
  /\ Legacy.isInHull None (-301) 0 = false
  /\ Typed.isInHull (Some Canvas.identity) 400 0 = false
  /\ Typed.isInHull None 400 0 = true
  /\ Legacy.isInHull
       (Some (Legacy.walkableAreaTransform Canvas.identity (Legacy.new 400 350))) 0 0
     = false
  /\ Legacy.isInHull None 0 0 = true.
Proof.
  assert (Hex : forall x, Hull.inPath x 0 = true <-> -302.5 <= x <= 302.5).
  { intros x. rewrite inPath_spec. lra. }
  assert (H310 : Hull.inPath 310 0 = false).
  { destruct (Hull.inPath 310 0) eqn:E; [apply Hex in E; lra | reflexivity]. }
  assert (H400 : Hull.inPath 400 0 = false).
  { destruct (Hull.inPath 400 0) eqn:E; [apply Hex in E; lra | reflexivity]. }
  assert (H301 : Hull.inPath (-301) 0 = true) by (apply Hex; lra).
  unfold Legacy.isInHull, Typed.isInHull. rewrite !isPointInPath_identity.
  rewrite isPointInPath_walkableArea, toLocal_unturned. cbn [vx vy].
  repeat split; try assumption.
  - unfold Legacy.inHullApprox. js_eval.
  - unfold Legacy.inHullApprox. js_eval.
  - js_eval.
  - destruct (Hull.inPath (0 - 400) (0 - 350)) eqn:E; [|reflexivity].
    apply inPath_spec in E. lra.
  - unfold Legacy.inHullApprox. js_eval.
Qed.

(** C4, amended.  With a drawing context whose current transform is the
    identity, for every local point whose abscissa lies in the straight
    mid-section of the hull, -220 <= x <= 150, the exact containment test
    against the hull path and the tests used when no drawing surface is
    available return the same answer (inside exactly when -90 <= y <= 90);
    toward bow and stern the latter are approximations, of which the typed
    version's bounding box accepts every point of the exact outline.  With
    a context under any other invertible transform, the exact test answers
    for the outline as the transform places it on the canvas: it gives at
    the image of the local point what the other tests give at the local
    point itself. *)
Theorem hull_tests_agree_midsection (x y : R) :
  -220 <= x <= 150 ->
  Legacy.isInHull (Some Canvas.identity) x y = Legacy.isInHull None x y
  /\ Typed.isInHull (Some Canvas.identity) x y = Typed.isInHull None x y
  /\ (Legacy.isInHull (Some Canvas.identity) x y = true <-> -90 <= y <= 90)
  /\ (forall x' y', Typed.isInHull (Some Canvas.identity) x' y' = true ->
                    Typed.isInHull None x' y' = true)
  /\ (forall m, Canvas.det m <> 0 ->
        Legacy.isInHull (Some m)
          (vx (Canvas.apply m (mkVec x y))) (vy (Canvas.apply m (mkVec x y)))
        = Legacy.isInHull None x y
        /\ Typed.isInHull (Some m)
             (vx (Canvas.apply m (mkVec x y))) (vy (Canvas.apply m (mkVec x y)))
           = Typed.isInHull None x y).
Proof.
  intros Hx. split; [|split; [|split; [|split]]].
  - simpl. rewrite isPointInPath_identity, midsection_exact, midsection_legacy
      by exact Hx. reflexivity.
  - rewrite midsection_typed by exact Hx. simpl.
    rewrite isPointInPath_identity. apply midsection_exact, Hx.
  - simpl. rewrite isPointInPath_identity, midsection_exact by exact Hx.
    rewrite andb_true_iff, !leb_true. reflexivity.
  - intros x' y' H. simpl in H. rewrite isPointInPath_identity in H.
    apply inPath_spec in H.
    unfold Typed.isInHull. apply negb_true_iff. rewrite !orb_false_iff.
    unfold JS.gtb. rewrite !ltb_false. repeat split; nra.
  - intros m Hm. split.
    + unfold Legacy.isInHull. rewrite isPointInPath_apply by exact Hm.
      rewrite midsection_exact, midsection_legacy by exact Hx. reflexivity.
    + rewrite midsection_typed by exact Hx. unfold Typed.isInHull.
      rewrite isPointInPath_apply by exact Hm. apply midsection_exact, Hx.
Qed.

Lemma hull_tests_agree_midsection_witness :
  -220 <= 0 <= 150
  /\ Legacy.isInHull (Some Canvas.identity) 0 50 = Legacy.isInHull None 0 50
  /\ Typed.isInHull (Some Canvas.identity) 0 50 = Typed.isInHull None 0 50.
Proof.
  assert (H : -220 <= 0 <= 150) by lra.
  split; [exact H|].
  destruct (hull_tests_agree_midsection 0 50 H) as (H1 & H2 & _).
  split; assumption.
Defined.

(** ** Deck walkability and the safe dismount position *)

Lemma toLocal_center (s : Legacy.Ship) :
  Legacy.toLocal (vx (Legacy.position s)) (vy (Legacy.position s)) s = mkVec 0 0.
Proof. unfold Legacy.toLocal. f_equal; ring. Qed.

Lemma center_in_hull :
  Legacy.isInHull None 0 0 = true /\ Legacy.isInHull (Some Canvas.identity) 0 0 = true.
Proof.
  split; simpl.
  - unfold Legacy.inHullApprox. js_eval.
  - rewrite isPointInPath_identity. apply inPath_spec. lra.
Qed.

Lemma center_not_static : Hull.inStaticObstacle 0 0 = false.
Proof.
  unfold Hull.inStaticObstacle, Hull.inMast, Hull.inRect. simpl. js_eval.
Qed.

Lemma center_walkable_iff (ctx : option Canvas.Transform) (s : Legacy.Ship) :
  Legacy.isPositionOnDeck (vx (Legacy.position s)) (vy (Legacy.position s)) ctx s
  = Legacy.isInHull ctx 0 0 && negb (Legacy.inDynamicObstacle 0 0 s).
Proof.
  unfold Legacy.isPositionOnDeck. rewrite toLocal_center. simpl.
  rewrite center_not_static.
  destruct (Legacy.isInHull ctx 0 0), (Legacy.inDynamicObstacle 0 0 s); reflexivity.
Qed.

Lemma find_all_false {A : Type} (f : A -> bool) (l : list A) :
  (forall x, In x l -> f x = false) -> find f l = None.
Proof.
  induction l as [|a l IH]; intros H; simpl; [reflexivity|].
  rewrite (H a (or_introl eq_refl)). apply IH. intros x Hx. apply H. right. exact Hx.
Qed.

Lemma crate_toLocal (x y : R) : Legacy.toLocal x y crateBrig = mkVec x y.
Proof.
  unfold Legacy.toLocal. simpl. rewrite Ropp_0, cos_0, sin_0. f_equal; ring.
Qed.

Lemma crate_off_deck (x y : R) :
  90 < y -> Legacy.isPositionOnDeck x y None crateBrig = false.
Proof.
  intros Hy. unfold Legacy.isPositionOnDeck. rewrite crate_toLocal. simpl.
  assert (H : Legacy.inHullApprox x y = false).
  { unfold Legacy.inHullApprox.
    replace (JS.leb y 90) with false by (symmetry; apply leb_false; lra).
    rewrite !andb_false_r. reflexivity. }
  rewrite H. reflexivity.
Qed.

(** On a vessel that is not turned, every candidate of the search lies at
    most the search radius below the start point. *)
Lemma candidates_high (sx sy : R) (s : Legacy.Ship) (c : Vec) :
  Matter.angle (Legacy.body s) = 0 ->
  In c (Legacy.dismountCandidates sx sy s) -> sy - 60 <= vy c.
Proof.
  intros Hangle. unfold Legacy.dismountCandidates, Legacy.toLocal. cbv zeta.
  intros H. apply in_flat_map in H as (inc & Hinc & H).
  apply in_map_iff in H as (i & <- & _).
  rewrite Hangle, Ropp_0, cos_0, sin_0. cbn [vx vy].
  match goal with |- context [sin ?a] => pose proof (SIN_bound a) as [Hs _] end.
  match goal with H : -1 <= sin ?a |- _ => set (sn := sin a) in * end.
  match goal with |- context [cos ?a] => set (cs := cos a) end.
  assert (Hd : 0 <= 60 * INR inc / INR 5 <= 60).
  { simpl in Hinc.
    destruct Hinc as [<-|[<-|[<-|[<-|[<-|[]]]]]]; simpl; lra. }
  set (d := 60 * INR inc / INR 5) in *. nra.
Qed.

Lemma crate_covers_center : Legacy.inDynamicObstacle 0 0 crateBrig = true.
Proof.
  unfold Legacy.inDynamicObstacle. simpl.
  unfold Hull.inModuleBox, Legacy.getModuleVisualPosition. simpl. js_eval.
Qed.

Lemma brig_center_clear : Legacy.inDynamicObstacle 0 0 legacyBrig = false.
Proof.
  unfold Legacy.inDynamicObstacle. simpl.
  unfold Hull.inModuleBox, Legacy.getModuleVisualPosition. simpl.
  replace (JS.gtb 0 (165 - 20 / 2)) with false
    by (symmetry; apply ltb_false; lra).
  rewrite !andb_false_r. reflexivity.
Qed.

(** C3, as stated, fails: with a crate mounted at the centre of the deck and
    a start point far from the vessel, no candidate is walkable and the
    search falls back to the centre, which lies inside the crate's box. *)
Lemma dismount_onto_crate :
  Legacy.findSafeDismountPosition 10000 10000 None crateBrig = mkVec 0 0
  /\ Legacy.isPositionOnDeck 0 0 None crateBrig = false.
Proof.
  split.
  - unfold Legacy.findSafeDismountPosition.
    rewrite crate_off_deck by lra.
    rewrite find_all_false; [reflexivity|].
    intros c Hc. apply crate_off_deck.
    pose proof (candidates_high 10000 10000 crateBrig c eq_refl Hc). lra.
  - pose proof (center_walkable_iff None crateBrig) as H.
    rewrite crate_covers_center in H. simpl in H. rewrite andb_false_r in H. exact H.
Qed.

(** The fallback also fails under a drawing context that has been moved,
    as [testWalkableArea] moves it to a vessel at (400, 350): the hull test
    then rejects the vessel's centre, and a module-free vessel returns it
    all the same. *)
Lemma dismount_under_moved_context :
  let s := Legacy.new 400 350 in
  let ctx := Some (Legacy.walkableAreaTransform Canvas.identity s) in
  Legacy.findSafeDismountPosition 10000 10000 ctx s = mkVec 400 350
  /\ Legacy.isPositionOnDeck 400 350 ctx s = false
  /\ Legacy.inDynamicObstacle 0 0 s = false.
Proof.
  cbv zeta.
  assert (Hoff : forall x y, 790 < y ->
            Legacy.isPositionOnDeck x y
              (Some (Legacy.walkableAreaTransform Canvas.identity (Legacy.new 400 350)))
              (Legacy.new 400 350) = false).
  { intros x y Hy. unfold Legacy.isPositionOnDeck, Legacy.isInHull.
    rewrite isPointInPath_walkableArea, !toLocal_unturned. cbn [vx vy].
    destruct (Hull.inPath (x - 400 - 400) (y - 350 - 350)) eqn:E; [|reflexivity].
    apply inPath_spec in E. lra. }
  split; [|split].
  - unfold Legacy.findSafeDismountPosition.
    rewrite Hoff by lra.
    rewrite find_all_false; [reflexivity|].
    intros c Hc. apply Hoff.
    pose proof (candidates_high 10000 10000 (Legacy.new 400 350) c eq_refl Hc). lra.
  - unfold Legacy.isPositionOnDeck, Legacy.isInHull.
    rewrite isPointInPath_walkableArea, !toLocal_unturned. cbn [vx vy].
    destruct (Hull.inPath (400 - 400 - 400) (350 - 350 - 350)) eqn:E; [|reflexivity].
    apply inPath_spec in E. lra.
  - reflexivity.
Qed.

(** C3, amended.  For every start point and every vessel in which no
    mounted module's obstacle box covers the vessel's centre, the point
    returned by [findSafeDismountPosition] is walkable according to
    [isPositionOnDeck] whenever the hull test in use accepts the centre.
    The test used without a drawing context, which is how the game calls
    the search, always does, and so does the exact test under a context
    whose transform is the identity; under a transformed context it need
    not.  A walkable start point is returned unchanged; and the centre, the
    final fallback, is clear of every mast, of the wheel and of every cannon
    mount, so that it is walkable exactly when the hull test accepts it and
    no module box covers it. *)
Theorem dismount_position_walkable (startX startY : R) (ctx : option Canvas.Transform)
  (s : Legacy.Ship) :
  Legacy.inDynamicObstacle 0 0 s = false ->
  Legacy.isInHull ctx 0 0 = true ->
  Legacy.isPositionOnDeck
    (vx (Legacy.findSafeDismountPosition startX startY ctx s))
    (vy (Legacy.findSafeDismountPosition startX startY ctx s)) ctx s = true
  /\ (Legacy.isPositionOnDeck startX startY ctx s = true ->
      Legacy.findSafeDismountPosition startX startY ctx s = mkVec startX startY)
  /\ Legacy.isInHull None 0 0 = true
  /\ Legacy.isInHull (Some Canvas.identity) 0 0 = true
  /\ Hull.inStaticObstacle 0 0 = false
  /\ (forall ctx' s',
        Legacy.isPositionOnDeck (vx (Legacy.position s'))
          (vy (Legacy.position s')) ctx' s'
        = Legacy.isInHull ctx' 0 0 && negb (Legacy.inDynamicObstacle 0 0 s')).
Proof.
  intros Hfree Hhull. split; [|split; [|split; [|split; [|split]]]].
  - unfold Legacy.findSafeDismountPosition.
    destruct (Legacy.isPositionOnDeck startX startY ctx s) eqn:Hstart.
    + simpl. exact Hstart.
    + destruct (find _ (Legacy.dismountCandidates startX startY s)) as [c|] eqn:Hfind.
      * apply find_some in Hfind. exact (proj2 Hfind).
      * simpl. rewrite center_walkable_iff, Hfree, Hhull. reflexivity.
  - intros Hstart. unfold Legacy.findSafeDismountPosition. rewrite Hstart. reflexivity.
  - apply center_in_hull.
  - apply center_in_hull.
  - apply center_not_static.
  - intros ctx' s'. apply center_walkable_iff.
Qed.

Lemma dismount_position_walkable_witness :
  Legacy.inDynamicObstacle 0 0 legacyBrig = false
  /\ Legacy.isInHull None 0 0 = true
  /\ Legacy.modules legacyBrig <> []
  /\ Legacy.isPositionOnDeck
       (vx (Legacy.findSafeDismountPosition 10000 10000 None legacyBrig))
       (vy (Legacy.findSafeDismountPosition 10000 10000 None legacyBrig))
       None legacyBrig = true.
Proof.
  split; [exact brig_center_clear|]. split; [exact (proj1 center_in_hull)|].
  split; [discriminate|].
  exact (proj1 (dismount_position_walkable 10000 10000 None legacyBrig
                  brig_center_clear (proj1 center_in_hull))).
Defined.

(** ** The angle-wrapping loops terminate within their fuel *)

Lemma whileAboveSub_spec (fuel : nat) (bound step : R) :
  0 < step ->
  forall x, x - bound <= step * INR fuel ->
    JS.whileAboveSub fuel bound step x <= bound
    /\ (bound < x -> bound - step < JS.whileAboveSub fuel bound step x)
    /\ exists n : nat, JS.whileAboveSub fuel bound step x = x - INR n * step.
Proof.
  intros Hstep. induction fuel as [|f IH]; intros x Hx.
  - simpl in *. repeat split; try lra. exists 0%nat. simpl. lra.
  - rewrite S_INR in Hx. simpl. destruct (Rlt_dec bound x) as [Hgt|Hle].
    + destruct (IH (x - step)) as (H1 & H2 & n & H3); [lra|].
      split; [exact H1|]. split.
      * intros _. destruct (Rlt_dec bound (x - step)) as [Hb|Hb]; [apply H2, Hb|].
        rewrite whileAboveSub_done by lra. lra.
      * exists (S n). rewrite H3, S_INR. ring.
    + repeat split; try lra. exists 0%nat. simpl. lra.
Qed.

Lemma whileBelowAdd_spec (fuel : nat) (bound step : R) :
  0 < step ->
  forall x, bound - x <= step * INR fuel ->
    bound <= JS.whileBelowAdd fuel bound step x
    /\ (x < bound -> JS.whileBelowAdd fuel bound step x < bound + step)
    /\ exists n : nat, JS.whileBelowAdd fuel bound step x = x + INR n * step.
Proof.
  intros Hstep. induction fuel as [|f IH]; intros x Hx.
  - simpl in *. repeat split; try lra. exists 0%nat. simpl. lra.
  - rewrite S_INR in Hx. simpl. destruct (Rlt_dec x bound) as [Hlt|Hge].
    + destruct (IH (x + step)) as (H1 & H2 & n & H3); [lra|].
      split; [exact H1|]. split.
      * intros _. destruct (Rlt_dec (x + step) bound) as [Hb|Hb]; [apply H2, Hb|].
        rewrite whileBelowAdd_done by lra. lra.
      * exists (S n). rewrite H3, S_INR. ring.
    + repeat split; try lra. exists 0%nat. simpl. lra.
Qed.

Lemma whileAtLeastSub_spec (fuel : nat) (bound step : R) :
  0 < step ->
  forall x, x - bound < step * INR fuel ->
    JS.whileAtLeastSub fuel bound step x < bound
    /\ (bound <= x -> bound - step <= JS.whileAtLeastSub fuel bound step x)
    /\ exists n : nat, JS.whileAtLeastSub fuel bound step x = x - INR n * step.
Proof.
  intros Hstep. induction fuel as [|f IH]; intros x Hx.
  - simpl in *. repeat split; try lra. exists 0%nat. simpl. lra.
  - rewrite S_INR in Hx. simpl. destruct (Rle_dec bound x) as [Hge|Hlt].
    + destruct (IH (x - step)) as (H1 & H2 & n & H3); [lra|].
      split; [exact H1|]. split.
      * intros _. destruct (Rle_dec bound (x - step)) as [Hb|Hb]; [apply H2, Hb|].
        rewrite whileAtLeastSub_done by lra. lra.
      * exists (S n). rewrite H3, S_INR. ring.
    + repeat split; try lra. exists 0%nat. simpl. lra.
Qed.

Lemma turns_bound (a : R) : Rabs a + PI * 2 <= PI * 2 * INR (JS.turns a).
Proof.
  pose proof PI_RGT_0 as Hpi. unfold JS.turns. rewrite S_INR.
  set (q := Rabs a / (2 * PI)).
  assert (Hq : 0 <= q).
  { unfold q. apply Rmult_le_pos; [apply Rabs_pos|].
    left. apply Rinv_0_lt_compat. lra. }
  pose proof (Zceil_bound q) as [_ Hc].
  assert (Hz : (0 <= Zceil q)%Z) by (apply le_IZR; lra).
  rewrite INR_IZR_INZ, Z2Nat.id by exact Hz.
  assert (Ha : Rabs a = q * (2 * PI)) by (unfold q; field; lra).
  rewrite Ha. nra.
Qed.

Lemma wrapPi_spec (a : R) :
  - PI <= JS.wrapPi a <= PI /\ exists k : Z, JS.wrapPi a = a + IZR k * (2 * PI).
Proof.
  pose proof PI_RGT_0 as Hpi. pose proof (turns_bound a) as Hf.
  assert (Habs : - Rabs a <= a <= Rabs a).
  { unfold Rabs. destruct (Rcase_abs a); lra. }
  unfold JS.wrapPi.
  destruct (whileAboveSub_spec (JS.turns a) PI (PI * 2)) with (x := a)
    as (H1 & H2 & n & H3); [lra | lra |].
  set (a1 := JS.whileAboveSub (JS.turns a) PI (PI * 2) a) in *.
  assert (Ha1 : a1 = a \/ - PI < a1).
  { destruct (Rlt_dec PI a) as [Hgt|Hle]; [right; apply H2 in Hgt; lra|].
    left. apply whileAboveSub_done. lra. }
  destruct (whileBelowAdd_spec (JS.turns a) (- PI) (PI * 2)) with (x := a1)
    as (G1 & G2 & m & G3); [lra | destruct Ha1; lra |].
  split.
  - split; [exact G1|].
    destruct (Rlt_dec a1 (- PI)) as [Hlt|Hge]; [apply G2 in Hlt; lra|].
    rewrite whileBelowAdd_done by lra. exact H1.
  - exists (Z.of_nat m - Z.of_nat n)%Z.
    rewrite G3, H3, minus_IZR, <- !INR_IZR_INZ. ring.
Qed.

Lemma wrapTwoPi_spec (a : R) :
  0 <= JS.wrapTwoPi a < PI * 2 /\ exists k : Z, JS.wrapTwoPi a = a + IZR k * (2 * PI).
Proof.
  pose proof PI_RGT_0 as Hpi. pose proof (turns_bound a) as Hf.
  assert (Habs : - Rabs a <= a <= Rabs a).
  { unfold Rabs. destruct (Rcase_abs a); lra. }
  unfold JS.wrapTwoPi.
  destruct (whileBelowAdd_spec (JS.turns a) 0 (PI * 2)) with (x := a)
    as (H1 & H2 & n & H3); [lra | lra |].
  set (a1 := JS.whileBelowAdd (JS.turns a) 0 (PI * 2) a) in *.
  assert (Ha1 : a1 = a \/ a1 < PI * 2).
  { destruct (Rlt_dec a 0) as [Hlt|Hge]; [right; apply H2 in Hlt; lra|].
    left. apply whileBelowAdd_done. lra. }
  destruct (whileAtLeastSub_spec (JS.turns a) (PI * 2) (PI * 2)) with (x := a1)
    as (G1 & G2 & m & G3); [lra | destruct Ha1; lra |].
  split.
  - split; [|exact G1].
    destruct (Rle_dec (PI * 2) a1) as [Hge|Hlt]; [apply G2 in Hge; lra|].
    rewrite whileAtLeastSub_done by lra. exact H1.
  - exists (Z.of_nat n - Z.of_nat m)%Z.
    rewrite G3, H3, minus_IZR, <- !INR_IZR_INZ. ring.
Qed.

(** Two angles of the closed interval [-π, π] that differ by a whole number
    of turns are equal as soon as one of them is not an end of the interval. *)
Lemma same_turn (x y : R) (k : Z) :
  - PI <= x <= PI -> - PI < y < PI -> x = y + IZR k * (2 * PI) -> x = y.
Proof.
  intros Hx Hy E. pose proof PI_RGT_0 as Hpi.
  assert (Hk : k = 0%Z).
  { assert (H1 : IZR (-1) < IZR k) by (simpl; nra).
    assert (H2 : IZR k < IZR 1) by (simpl; nra).
    apply lt_IZR in H1, H2. lia. }
  subst k. simpl in E. lra.
Qed.

(** ** Turret convergence *)

(** Integers strictly between -1 and 1. *)
Lemma IZR_small (k : Z) : -1 < IZR k < 1 -> k = 0%Z.
Proof.
  intros [H1 H2].
  assert (G1 : IZR (-1) < IZR k) by (simpl; lra).
  assert (G2 : IZR k < IZR 1) by (simpl; lra).
  apply lt_IZR in G1, G2. lia.
Qed.

Lemma IZR_pos_ge1 (k : Z) : 0 < IZR k -> 1 <= IZR k.
Proof.
  intros H. assert (G : IZR 0 < IZR k) by (simpl; lra).
  apply lt_IZR in G. apply IZR_le. lia.
Qed.

Lemma IZR_neg_le1 (k : Z) : IZR k < 0 -> IZR k <= -1.
Proof.
  intros H. assert (G : IZR k < IZR 0) by (simpl; lra).
  apply lt_IZR in G. apply (IZR_le k (-1)). lia.
Qed.

Lemma snap_arith_pos (d d' r : R) (K : Z) :
  0 < r -> 0 < d <= PI -> - PI <= d' <= PI ->
  d' = d - r + IZR K * (2 * PI) ->
  (d < 2 * r -> Rabs d' < r \/ d' <= 0)
  /\ (2 * r <= d -> d' = d - r).
Proof.
  intros Hr Hd Hd' E. pose proof PI_RGT_0 as Hpi. split.
  - intros Hnear.
    destruct (Rlt_dec (Rabs d') r) as [|Hfar]; [left; assumption|].
    destruct (Rle_dec d' 0) as [|Hpos]; [right; assumption|]. exfalso.
    assert (Hge : r <= d') by (revert Hfar; minmax).
    assert (HK : 0 < IZR K).
    { apply Rmult_lt_reg_r with (2 * PI); [lra|]. lra. }
    apply IZR_pos_ge1 in HK. nra.
  - intros Hfar. symmetry in E.
    assert (HK : K = 0%Z) by (apply IZR_small; split; nra).
    subst K. simpl in E. lra.
Qed.

Lemma snap_arith_neg (d d' r : R) (K : Z) :
  0 < r -> - PI <= d < 0 -> - PI <= d' <= PI ->
  d' = d + r + IZR K * (2 * PI) ->
  (- (2 * r) < d -> Rabs d' < r \/ 0 < d')
  /\ (d <= - (2 * r) -> d' = d + r).
Proof.
  intros Hr Hd Hd' E. pose proof PI_RGT_0 as Hpi. split.
  - intros Hnear.
    destruct (Rlt_dec (Rabs d') r) as [|Hfar]; [left; assumption|].
    destruct (Rlt_dec 0 d') as [|Hneg]; [right; assumption|]. exfalso.
    assert (Hle : d' <= - r) by (revert Hfar; minmax).
    assert (HK : IZR K < 0).
    { apply Rmult_lt_reg_r with (2 * PI); [lra|]. lra. }
    apply IZR_neg_le1 in HK. nra.
  - intros Hfar. symmetry in E.
    assert (HK : K = 0%Z) by (apply IZR_small; split; nra).
    subst K. simpl in E. lra.
Qed.

Lemma snap_arith_zero (d' r : R) (K : Z) :
  0 < r -> r <> PI -> - PI <= d' <= PI ->
  d' = 0 + r + IZR K * (2 * PI) ->
  Rabs d' < r \/ 0 < d'.
Proof.
  intros Hr Hne Hd' E. pose proof PI_RGT_0 as Hpi.
  destruct (Rlt_dec (Rabs d') r) as [|Hfar]; [left; assumption|].
  destruct (Rlt_dec 0 d') as [|Hneg]; [right; assumption|]. exfalso.
  assert (Hle : d' <= - r) by (revert Hfar; minmax).
  assert (HK : IZR K < 0).
  { apply Rmult_lt_reg_r with (2 * PI); [lra|]. lra. }
  apply IZR_neg_le1 in HK. nra.
Qed.

(** The difference after the move, against the difference before it. *)
Lemma moved_difference (c : CannonModule.t) (dir : R) :
  exists K : Z,
    JS.wrapPi (CannonModule.targetTurretAngle c
               - JS.wrapTwoPi (CannonModule.turretAngle c
                               + CannonModule.rotationSpeed c * dir))
    = CannonModule.angleDiff c - CannonModule.rotationSpeed c * dir
      + IZR K * (2 * PI).
Proof.
  unfold CannonModule.angleDiff.
  set (T := CannonModule.targetTurretAngle c).
  set (t := CannonModule.turretAngle c).
  set (r := CannonModule.rotationSpeed c).
  destruct (wrapTwoPi_spec (t + r * dir)) as [_ [k1 E1]].
  destruct (wrapPi_spec (T - JS.wrapTwoPi (t + r * dir))) as [_ [k2 E2]].
  destruct (wrapPi_spec (T - t)) as [_ [k0 E0]].
  exists (k2 - k1 - k0)%Z. rewrite E2, E1, E0, !minus_IZR. ring.
Qed.

Lemma rotateTurret_at_target (c : CannonModule.t) :
  CannonModule.turretAngle c = CannonModule.targetTurretAngle c ->
  CannonModule.rotateTurret c = c.
Proof.
  intros H. unfold CannonModule.rotateTurret.
  rewrite (proj2 (eqb_true _ _) H). reflexivity.
Qed.

(** What [rotateTurret] does away from the target: it either snaps or keeps
    the moved angle, as the test on the new difference decides. *)
Lemma rotateTurret_cases (c : CannonModule.t) :
  CannonModule.turretAngle c <> CannonModule.targetTurretAngle c ->
  let d := CannonModule.angleDiff c in
  let dir := if Rlt_dec 0 d then 1 else -1 in
  let moved := JS.wrapTwoPi (CannonModule.turretAngle c
                             + CannonModule.rotationSpeed c * dir) in
  let d' := JS.wrapPi (CannonModule.targetTurretAngle c - moved) in
  ((Rabs d' < CannonModule.rotationSpeed c \/ ~ (0 < d <-> 0 < d')) ->
   CannonModule.rotateTurret c
   = CannonModule.withTurretAngle (CannonModule.targetTurretAngle c) c)
  /\ (CannonModule.rotationSpeed c <= Rabs d' -> (0 < d <-> 0 < d') ->
      CannonModule.rotateTurret c = CannonModule.withTurretAngle moved c).
Proof.
  intros Hne d dir moved d'. unfold CannonModule.rotateTurret.
  destruct (JS.eqb _ _) eqn:E; [apply eqb_true in E; contradiction|].
  cbv zeta. subst d' moved dir d. unfold CannonModule.angleDiff.
  set (d := JS.wrapPi (CannonModule.targetTurretAngle c - CannonModule.turretAngle c)).
  set (moved := JS.wrapTwoPi _).
  set (d' := JS.wrapPi (_ - moved)).
  unfold JS.gtb, JS.ltb.
  destruct (Rlt_dec (Rabs d') (CannonModule.rotationSpeed c)) as [Hs|Hs];
    destruct (Rlt_dec 0 d) as [Hd|Hd]; destruct (Rlt_dec 0 d') as [Hd'|Hd'];
    simpl; split; intros; try reflexivity; try lra; tauto.
Qed.

Lemma rotateTurret_step_pos (c : CannonModule.t) :
  0 < CannonModule.rotationSpeed c ->
  CannonModule.turretAngle c <> CannonModule.targetTurretAngle c ->
  0 < CannonModule.angleDiff c ->
  (CannonModule.angleDiff c < 2 * CannonModule.rotationSpeed c ->
   CannonModule.rotateTurret c
   = CannonModule.withTurretAngle (CannonModule.targetTurretAngle c) c)
  /\ (2 * CannonModule.rotationSpeed c <= CannonModule.angleDiff c ->
      CannonModule.rotateTurret c
      = CannonModule.withTurretAngle
          (JS.wrapTwoPi (CannonModule.turretAngle c + CannonModule.rotationSpeed c * 1)) c
      /\ CannonModule.angleDiff (CannonModule.rotateTurret c)
         = CannonModule.angleDiff c - CannonModule.rotationSpeed c).
Proof.
  intros Hr Hne Hd.
  destruct (rotateTurret_cases c Hne) as [Hsnap Hmove]. cbv zeta in *.
  assert (Hdir : (if Rlt_dec 0 (CannonModule.angleDiff c) then 1 else -1) = 1)
    by (destruct (Rlt_dec 0 (CannonModule.angleDiff c)); lra).
  rewrite Hdir in *. clear Hdir.
  destruct (moved_difference c 1) as [K EK].
  destruct (wrapPi_spec (CannonModule.targetTurretAngle c - CannonModule.turretAngle c))
    as [Hdr _].
  fold (CannonModule.angleDiff c) in Hdr.
  set (moved := JS.wrapTwoPi (CannonModule.turretAngle c
                              + CannonModule.rotationSpeed c * 1)) in *.
  destruct (wrapPi_spec (CannonModule.targetTurretAngle c - moved)) as [Hd'r _].
  set (d' := JS.wrapPi (CannonModule.targetTurretAngle c - moved)) in *.
  set (d := CannonModule.angleDiff c) in *.
  set (r := CannonModule.rotationSpeed c) in *.
  assert (EK' : d' = d - r + IZR K * (2 * PI)) by (rewrite EK; ring).
  destruct (snap_arith_pos d d' r K Hr (conj Hd (proj2 Hdr)) Hd'r EK') as [A1 A2].
  split.
  - intros Hnear. apply Hsnap. destruct (A1 Hnear) as [H|H]; [left; exact H|].
    right. intros [F _]. specialize (F Hd). lra.
  - intros Hfar. specialize (A2 Hfar).
    assert (Hmv : CannonModule.rotateTurret c = CannonModule.withTurretAngle moved c).
    { apply Hmove; [rewrite A2; rewrite Rabs_right; lra|]. split; intros; lra. }
    split; [exact Hmv|]. rewrite Hmv. unfold CannonModule.angleDiff at 1. simpl.
    fold d'. exact A2.
Qed.

Lemma rotateTurret_step_neg (c : CannonModule.t) :
  0 < CannonModule.rotationSpeed c ->
  CannonModule.turretAngle c <> CannonModule.targetTurretAngle c ->
  CannonModule.angleDiff c < 0 ->
  (- (2 * CannonModule.rotationSpeed c) < CannonModule.angleDiff c ->
   CannonModule.rotateTurret c
   = CannonModule.withTurretAngle (CannonModule.targetTurretAngle c) c)
  /\ (CannonModule.angleDiff c <= - (2 * CannonModule.rotationSpeed c) ->
      CannonModule.rotateTurret c
      = CannonModule.withTurretAngle
          (JS.wrapTwoPi (CannonModule.turretAngle c + CannonModule.rotationSpeed c * -1)) c
      /\ CannonModule.angleDiff (CannonModule.rotateTurret c)
         = CannonModule.angleDiff c + CannonModule.rotationSpeed c).
Proof.
  intros Hr Hne Hd.
  destruct (rotateTurret_cases c Hne) as [Hsnap Hmove]. cbv zeta in *.
  assert (Hdir : (if Rlt_dec 0 (CannonModule.angleDiff c) then 1 else -1) = -1)
    by (destruct (Rlt_dec 0 (CannonModule.angleDiff c)); lra).
  rewrite Hdir in *. clear Hdir.
  destruct (moved_difference c (-1)) as [K EK].
  destruct (wrapPi_spec (CannonModule.targetTurretAngle c - CannonModule.turretAngle c))
    as [Hdr _].
  fold (CannonModule.angleDiff c) in Hdr.
  set (moved := JS.wrapTwoPi (CannonModule.turretAngle c
                              + CannonModule.rotationSpeed c * -1)) in *.
  destruct (wrapPi_spec (CannonModule.targetTurretAngle c - moved)) as [Hd'r _].
  set (d' := JS.wrapPi (CannonModule.targetTurretAngle c - moved)) in *.
  set (d := CannonModule.angleDiff c) in *.
  set (r := CannonModule.rotationSpeed c) in *.
  assert (EK' : d' = d + r + IZR K * (2 * PI)) by (rewrite EK; ring).
  destruct (snap_arith_neg d d' r K Hr (conj (proj1 Hdr) Hd) Hd'r EK') as [A1 A2].
  split.
  - intros Hnear. apply Hsnap. destruct (A1 Hnear) as [H|H]; [left; exact H|].
    right. intros [_ F]. specialize (F H). lra.
  - intros Hfar. specialize (A2 Hfar).
    assert (Hmv : CannonModule.rotateTurret c = CannonModule.withTurretAngle moved c).
    { apply Hmove; [rewrite A2; rewrite Rabs_left; lra|]. split; intros; lra. }
    split; [exact Hmv|]. rewrite Hmv. unfold CannonModule.angleDiff at 1. simpl.
    fold d'. exact A2.
Qed.

Lemma rotateTurret_step_zero (c : CannonModule.t) :
  0 < CannonModule.rotationSpeed c ->
  CannonModule.rotationSpeed c <> PI ->
  CannonModule.turretAngle c <> CannonModule.targetTurretAngle c ->
  CannonModule.angleDiff c = 0 ->
  CannonModule.rotateTurret c
  = CannonModule.withTurretAngle (CannonModule.targetTurretAngle c) c.
Proof.
  intros Hr Hpi Hne Hd.
  destruct (rotateTurret_cases c Hne) as [Hsnap _]. cbv zeta in *.
  destruct (moved_difference c (-1)) as [K EK].
  rewrite Hd in *.
  assert (Hdir : (if Rlt_dec 0 0 then 1 else -1) = -1)
    by (destruct (Rlt_dec 0 0); lra).
  rewrite Hdir in *. clear Hdir.
  set (moved := JS.wrapTwoPi (CannonModule.turretAngle c
                              + CannonModule.rotationSpeed c * -1)) in *.
  destruct (wrapPi_spec (CannonModule.targetTurretAngle c - moved)) as [Hd'r _].
  set (d' := JS.wrapPi (CannonModule.targetTurretAngle c - moved)) in *.
  set (r := CannonModule.rotationSpeed c) in *.
  assert (EK' : d' = 0 + r + IZR K * (2 * PI)) by (rewrite EK; ring).
  apply Hsnap.
  destruct (snap_arith_zero d' r K Hr Hpi Hd'r EK') as [H|H]; [left; exact H|].
  right. intros [_ F]. specialize (F H). lra.
Qed.

Lemma reload_turret (now : R) (c : CannonModule.t) :
  CannonModule.turretAngle (CannonModule.reload now c) = CannonModule.turretAngle c
  /\ CannonModule.targetTurretAngle (CannonModule.reload now c)
     = CannonModule.targetTurretAngle c
  /\ CannonModule.rotationSpeed (CannonModule.reload now c)
     = CannonModule.rotationSpeed c
  /\ CannonModule.angleDiff (CannonModule.reload now c) = CannonModule.angleDiff c.
Proof.
  unfold CannonModule.reload, CannonModule.angleDiff.
  destruct (negb _ && _); repeat split.
Qed.

Lemma rotateTurret_keeps (c : CannonModule.t) :
  CannonModule.targetTurretAngle (CannonModule.rotateTurret c)
  = CannonModule.targetTurretAngle c
  /\ CannonModule.rotationSpeed (CannonModule.rotateTurret c)
     = CannonModule.rotationSpeed c.
Proof.
  unfold CannonModule.rotateTurret.
  destruct (JS.eqb _ _); [split; reflexivity|]. cbv zeta.
  destruct (_ || _); split; reflexivity.
Qed.

Lemma update_keeps (now : R) (c : CannonModule.t) :
  CannonModule.targetTurretAngle (CannonModule.update now c)
  = CannonModule.targetTurretAngle c
  /\ CannonModule.rotationSpeed (CannonModule.update now c)
     = CannonModule.rotationSpeed c.
Proof.
  unfold CannonModule.update.
  destruct (rotateTurret_keeps (CannonModule.reload now c)) as [-> ->].
  destruct (reload_turret now c) as (_ & -> & -> & _). split; reflexivity.
Qed.

(** One tick, in terms of the difference before it. *)
Lemma update_step (now : R) (c : CannonModule.t) :
  0 < CannonModule.rotationSpeed c ->
  let r := CannonModule.rotationSpeed c in
  let T := CannonModule.targetTurretAngle c in
  let d := CannonModule.angleDiff c in
  let c' := CannonModule.update now c in
  (CannonModule.turretAngle c = T -> CannonModule.turretAngle c' = T)
  /\ (d <> 0 \/ r <> PI -> Rabs d < 2 * r -> CannonModule.turretAngle c' = T)
  /\ (2 * r <= Rabs d ->
      CannonModule.angleDiff c' = d - r * (if Rlt_dec 0 d then 1 else -1)
      /\ CannonModule.turretAngle c'
         = JS.wrapTwoPi (CannonModule.turretAngle c
                         + r * (if Rlt_dec 0 d then 1 else -1))).
Proof.
  intros Hr r T d c'.
  destruct (reload_turret now c) as (Et & ET & Er & Ed).
  set (c0 := CannonModule.reload now c) in *.
  assert (Hr0 : 0 < CannonModule.rotationSpeed c0) by (rewrite Er; exact Hr).
  assert (Hc' : c' = CannonModule.rotateTurret c0) by reflexivity.
  assert (Hat : CannonModule.turretAngle c = T -> CannonModule.turretAngle c' = T).
  { intros H. rewrite Hc', rotateTurret_at_target; [rewrite Et; exact H|].
    rewrite Et, ET. exact H. }
  split; [exact Hat|].
  destruct (Req_dec_T (CannonModule.turretAngle c) T) as [Heq|Hne].
  { split.
    - intros _ _. apply Hat, Heq.
    - intros Hfar. exfalso.
      assert (Hd0 : d = 0).
      { unfold d, CannonModule.angleDiff. fold T. rewrite Heq.
        replace (T - T) with 0 by ring. apply wrapPi_id.
        pose proof PI_RGT_0. lra. }
      rewrite Hd0, Rabs_R0 in Hfar. unfold r in *. lra. }
  assert (Hne0 : CannonModule.turretAngle c0 <> CannonModule.targetTurretAngle c0)
    by (rewrite Et, ET; exact Hne).
  destruct (Rlt_dec 0 d) as [Hpos|Hnpos].
  - destruct (rotateTurret_step_pos c0 Hr0 Hne0) as [S1 S2]; [rewrite Ed; exact Hpos|].
    rewrite Ed, Er, ET, Et in *. fold d r T in S1, S2.
    rewrite (Rabs_right d) by lra. split.
    + intros _ Hnear. rewrite Hc', (S1 Hnear). reflexivity.
    + intros Hfar. destruct (S2 Hfar) as [E1 E2]. rewrite Hc'. split.
      * rewrite E2. ring.
      * rewrite E1. reflexivity.
  - destruct (Rlt_dec d 0) as [Hneg|Hnneg].
    + destruct (rotateTurret_step_neg c0 Hr0 Hne0) as [S1 S2]; [rewrite Ed; exact Hneg|].
      rewrite Ed, Er, ET, Et in *. fold d r T in S1, S2.
      rewrite (Rabs_left d) by lra. split.
      * intros _ Hnear. rewrite Hc', S1 by lra. reflexivity.
      * intros Hfar. destruct S2 as [E1 E2]; [lra|]. rewrite Hc'. split.
        -- rewrite E2. ring.
        -- rewrite E1. reflexivity.
    + assert (Hd0 : d = 0) by lra. rewrite Hd0, Rabs_R0. split.
      * intros [Hd|Hpi] _; [lra|].
        rewrite Hc', rotateTurret_step_zero; try assumption.
        -- rewrite Er. exact Hpi.
        -- rewrite Ed. exact Hd0.
      * intros Hfar. unfold r in *. lra.
Qed.

Lemma ticks_converge (nows : list R) :
  forall c,
    0 < CannonModule.rotationSpeed c ->
    CannonModule.turretAngle c = CannonModule.targetTurretAngle c
    \/ (CannonModule.angleDiff c <> 0
        /\ Rabs (CannonModule.angleDiff c)
           <= INR (List.length nows) * CannonModule.rotationSpeed c) ->
    CannonModule.turretAngle (ticks nows c) = CannonModule.targetTurretAngle c.
Proof.
  induction nows as [|now rest IH]; intros c Hr Hc.
  - simpl in *. destruct Hc as [H|[Hne Hle]]; [exact H|].
    exfalso. revert Hne Hle. minmax.
  - simpl ticks. unfold ticks in *. simpl fold_left.
    destruct (update_keeps now c) as [ET Er].
    destruct (update_step now c Hr) as (Hat & Hnear & Hfar). cbv zeta in *.
    rewrite <- ET. apply IH; [rewrite Er; exact Hr|]. rewrite ET, Er.
    destruct Hc as [H|[Hne Hle]]; [left; apply Hat, H|].
    destruct (Rlt_dec (Rabs (CannonModule.angleDiff c))
                (2 * CannonModule.rotationSpeed c)) as [Hn|Hf].
    + left. apply Hnear; [left; exact Hne | exact Hn].
    + right. destruct Hfar as [E _]; [lra|]. rewrite E.
      change (List.length (now :: rest)) with (S (List.length rest)) in Hle.
      rewrite S_INR in Hle.
      set (d := CannonModule.angleDiff c) in *.
      set (r := CannonModule.rotationSpeed c) in *.
      destruct (Rlt_dec 0 d); revert Hf Hle; minmax.
Qed.

Lemma wrapPi_minus_full_turn : JS.wrapPi (0 - PI * 2) = 0.
Proof.
  pose proof PI_RGT_0 as Hpi.
  destruct (wrapPi_spec (0 - PI * 2)) as [Hr [k E]].
  assert (Hk : (k - 1)%Z = 0%Z).
  { apply IZR_small. rewrite minus_IZR. split; nra. }
  assert (k = 1%Z) by lia. subst k. rewrite E. simpl. ring.
Qed.

(** C2, as stated, fails at two boundary points.  A turret half a turn from
    its target has the normalized difference -π, outside the interval
    (-π, π], and so turns in the negative direction, where a difference of
    +π would turn it the other way.  And a turret one whole turn from its
    target, turning π per tick, is at difference 0, within one tick of the
    target, yet the tick moves it half a turn away instead of snapping it. *)
Lemma turret_boundary_cases :
  CannonModule.angleDiff halfTurnCannon = - PI
  /\ ~ (- PI < CannonModule.angleDiff halfTurnCannon <= PI)
  /\ CannonModule.turretAngle (CannonModule.update 0 halfTurnCannon) = PI - 0.005
  /\ CannonModule.angleDiff fullTurnCannon = 0
  /\ CannonModule.targetTurretAngle fullTurnCannon = 0
  /\ CannonModule.turretAngle (CannonModule.update 0 fullTurnCannon) = PI
  /\ CannonModule.turretAngle (CannonModule.update 0 fullTurnCannon)
     <> CannonModule.targetTurretAngle fullTurnCannon.
Proof.
  pose proof PI_RGT_0 as Hpi.
  assert (Hh : CannonModule.angleDiff halfTurnCannon = - PI).
  { unfold CannonModule.angleDiff. simpl. rewrite wrapPi_id; lra. }
  assert (Hf : CannonModule.angleDiff fullTurnCannon = 0).
  { unfold CannonModule.angleDiff. simpl. apply wrapPi_minus_full_turn. }
  assert (Hu : CannonModule.turretAngle (CannonModule.update 0 fullTurnCannon) = PI).
  { unfold CannonModule.update.
    change (CannonModule.reload 0 fullTurnCannon) with fullTurnCannon.
    assert (Hne : CannonModule.turretAngle fullTurnCannon
                  <> CannonModule.targetTurretAngle fullTurnCannon) by (simpl; lra).
    destruct (rotateTurret_cases fullTurnCannon Hne) as [_ Hmove]. cbv zeta in Hmove.
    rewrite Hf in Hmove.
    assert (Hdir : (if Rlt_dec 0 0 then 1 else -1) = -1)
      by (destruct (Rlt_dec 0 0); lra).
    rewrite Hdir in Hmove. simpl in Hmove.
    rewrite (wrapTwoPi_id (PI * 2 + PI * -1)) in Hmove by lra.
    rewrite (wrapPi_id (0 - (PI * 2 + PI * -1))) in Hmove by lra.
    rewrite Hmove.
    - simpl. ring.
    - rewrite Rabs_left; lra.
    - split; intros; lra. }
  assert (Hm : CannonModule.turretAngle (CannonModule.update 0 halfTurnCannon)
               = PI - 0.005).
  { pose proof PI2_3_2 as Hpi3. unfold CannonModule.update.
    change (CannonModule.reload 0 halfTurnCannon) with halfTurnCannon.
    assert (Hne : CannonModule.turretAngle halfTurnCannon
                  <> CannonModule.targetTurretAngle halfTurnCannon) by (simpl; lra).
    destruct (rotateTurret_cases halfTurnCannon Hne) as [_ Hmove]. cbv zeta in Hmove.
    rewrite Hh in Hmove.
    assert (Hdir : (if Rlt_dec 0 (- PI) then 1 else -1) = -1)
      by (destruct (Rlt_dec 0 (- PI)); lra).
    rewrite Hdir in Hmove. simpl in Hmove.
    rewrite (wrapTwoPi_id (PI + 0.005 * -1)) in Hmove by lra.
    rewrite (wrapPi_id (0 - (PI + 0.005 * -1))) in Hmove by lra.
    rewrite Hmove.
    - simpl. ring.
    - rewrite Rabs_left; lra.
    - split; intros; lra. }
  repeat split; try assumption; try reflexivity.
  - rewrite Hh. lra.
  - rewrite Hu. simpl. lra.
Qed.

(** C2, amended.  For every cannon with a positive rotation rate [r], one
    call of [update] works on the difference [d] between target and turret
    angle normalized to the closed interval [-π, π]: a turret at its target
    stays there; otherwise it either snaps to the target exactly or turns
    by [r] in the direction of the sign of [d] (the shorter way round),
    modulo a whole turn, and then the new difference is still at least [r]
    and on the same side, so the target is never passed.  It snaps whenever
    |d| < 2r, so in particular once the difference is within one tick's
    rotation (the one exception being a turret a whole number of turns away
    from its target while r = π); and when |d| >= 2r the difference shrinks
    by exactly [r].  Hence any number n >= |d|/r of ticks brings a turret
    with d <> 0 exactly onto its target, and starting from -40° with target
    40°, after ceil(80°/r) ticks the turret angle equals 40° exactly. *)
Theorem turret_convergence (c : CannonModule.t) (now : R) :
  0 < CannonModule.rotationSpeed c ->
  let r := CannonModule.rotationSpeed c in
  let T := CannonModule.targetTurretAngle c in
  let t := CannonModule.turretAngle c in
  let d := CannonModule.angleDiff c in
  let dir := if Rlt_dec 0 d then 1 else -1 in
  let c' := CannonModule.update now c in
  let d' := CannonModule.angleDiff c' in
  (- PI <= d <= PI /\ exists k : Z, d = T - t + IZR k * (2 * PI))
  /\ CannonModule.targetTurretAngle c' = T
  /\ CannonModule.rotationSpeed c' = r
  /\ (t = T -> CannonModule.turretAngle c' = T)
  /\ (t <> T ->
      CannonModule.turretAngle c' = T
      \/ (CannonModule.turretAngle c' = JS.wrapTwoPi (t + r * dir)
          /\ (exists k : Z, CannonModule.turretAngle c' = t + r * dir + IZR k * (2 * PI))
          /\ r <= Rabs d' /\ (0 < d <-> 0 < d')))
  /\ (d <> 0 \/ r <> PI -> Rabs d < 2 * r -> CannonModule.turretAngle c' = T)
  /\ (2 * r <= Rabs d -> d' = d - r * dir /\ Rabs d' = Rabs d - r)
  /\ (forall nows, d <> 0 -> Rabs d <= INR (List.length nows) * r ->
      CannonModule.turretAngle (ticks nows c) = T)
  /\ (t = - (40 * PI / 180) -> T = 40 * PI / 180 ->
      forall nows,
        List.length nows = Z.to_nat (Zceil ((80 * PI / 180) / r)) ->
        CannonModule.turretAngle (ticks nows c) = 40 * PI / 180).
Proof.
  intros Hr r T t d dir c' d'. pose proof PI_RGT_0 as Hpi.
  assert (Hr' : 0 < r) by exact Hr.
  destruct (update_keeps now c) as [ET Er].
  destruct (update_step now c Hr) as (Hat & Hnear & Hfar). cbv zeta in *.
  fold r T d c' in Hat, Hnear, Hfar. fold dir in Hfar.
  assert (Hconv : forall nows, d <> 0 -> Rabs d <= INR (List.length nows) * r ->
                  CannonModule.turretAngle (ticks nows c) = T).
  { intros nows Hne Hle. apply ticks_converge; [exact Hr|]. right. split; assumption. }
  split; [apply wrapPi_spec|].
  split; [exact ET|]. split; [exact Er|]. split; [exact Hat|].
  split; [|split; [exact Hnear|split; [|split; [exact Hconv|]]]].
  - intros Hne.
    destruct (reload_turret now c) as (Et0 & ET0 & Er0 & Ed0).
    assert (Hne0 : CannonModule.turretAngle (CannonModule.reload now c)
                   <> CannonModule.targetTurretAngle (CannonModule.reload now c))
      by (rewrite Et0, ET0; exact Hne).
    destruct (rotateTurret_cases _ Hne0) as [Hsnap Hmove]. cbv zeta in *.
    rewrite Ed0, Et0, ET0, Er0 in *. fold d r T t in Hsnap, Hmove. fold dir in Hsnap, Hmove.
    set (moved := JS.wrapTwoPi (t + r * dir)) in *.
    set (dm := JS.wrapPi (T - moved)) in *.
    destruct (Rlt_dec (Rabs dm) r) as [Hs|Hs].
    { left. unfold c', CannonModule.update. rewrite Hsnap by (left; exact Hs).
      reflexivity. }
    destruct (Rlt_dec 0 d) as [Hd|Hd]; destruct (Rlt_dec 0 dm) as [Hdm|Hdm].
    + right. assert (E : c' = CannonModule.withTurretAngle moved
                                (CannonModule.reload now c)).
      { apply Hmove; [lra | tauto]. }
      assert (Ed' : d' = dm).
      { unfold d'. rewrite E. unfold CannonModule.angleDiff. simpl.
        try rewrite ET0. reflexivity. }
      rewrite Ed', E. simpl. split; [reflexivity|].
      split; [apply wrapTwoPi_spec|]. split; [lra | tauto].
    + left. unfold c', CannonModule.update. rewrite Hsnap by (right; tauto).
      reflexivity.
    + left. unfold c', CannonModule.update. rewrite Hsnap by (right; tauto).
      reflexivity.
    + right. assert (E : c' = CannonModule.withTurretAngle moved
                                (CannonModule.reload now c)).
      { apply Hmove; [lra | tauto]. }
      assert (Ed' : d' = dm).
      { unfold d'. rewrite E. unfold CannonModule.angleDiff. simpl.
        try rewrite ET0. reflexivity. }
      rewrite Ed', E. simpl. split; [reflexivity|].
      split; [apply wrapTwoPi_spec|]. split; [lra | tauto].
  - intros H2r. destruct (Hfar H2r) as [E _]. split; [exact E|].
    fold d' in E. rewrite E. unfold dir.
    destruct (Rlt_dec 0 d); revert H2r; unfold r in *; minmax.
  - intros Ht HT nows Hlen.
    assert (Hd : d = 80 * PI / 180).
    { unfold d, CannonModule.angleDiff. fold T t. rewrite Ht, HT.
      rewrite wrapPi_id; lra. }
    rewrite <- HT. apply Hconv; [lra|].
    rewrite Hlen, Hd, Rabs_right by lra.
    assert (Hq : 0 < 80 * PI / 180 / r).
    { apply Rdiv_lt_0_compat; [lra | exact Hr]. }
    pose proof (Zceil_bound (80 * PI / 180 / r)) as [_ Hc].
    assert (Hz : (0 <= Zceil (80 * PI / 180 / r))%Z) by (apply le_IZR; lra).
    rewrite INR_IZR_INZ, Z2Nat.id by exact Hz.
    apply Rmult_le_compat_r with (r := r) in Hc; [|lra].
    unfold Rdiv at 1 in Hc. rewrite Rmult_assoc, Rinv_l in Hc; lra.
Qed.

Lemma turret_convergence_witness :
  0 < CannonModule.rotationSpeed scenarioCannon
  /\ CannonModule.turretAngle
       (ticks (repeat 0 (Z.to_nat (Zceil ((80 * PI / 180) / 0.005)))) scenarioCannon)
     = 40 * PI / 180.
Proof.
  assert (Hr : 0 < CannonModule.rotationSpeed scenarioCannon) by (simpl; lra).
  split; [exact Hr|].
  destruct (turret_convergence scenarioCannon 0 Hr) as (_ & _ & _ & _ & _ & _ & _ & _ & H).
  apply H; [reflexivity | reflexivity |]. apply repeat_length.
Defined.

(** * Further properties of the code *)

(** ** Ship-local coordinates *)


(** X1.  [shipToWorldCoordinates] and [worldToShipCoordinates] are inverse
    to each other, whatever the vessel's position and heading, and the
    local coordinates of a point are as far from the origin as the point is
    from the vessel's position. *)
Theorem ship_coordinates_round_trip (g : Game.t) (px py : R) :
  Game.shipToWorldCoordinates g
    (vx (Game.worldToShipCoordinates g px py))
    (vy (Game.worldToShipCoordinates g px py)) = mkVec px py
  /\ Game.worldToShipCoordinates g
       (vx (Game.shipToWorldCoordinates g px py))
       (vy (Game.shipToWorldCoordinates g px py)) = mkVec px py
  /\ vx (Game.worldToShipCoordinates g px py) * vx (Game.worldToShipCoordinates g px py)
     + vy (Game.worldToShipCoordinates g px py) * vy (Game.worldToShipCoordinates g px py)
     = (px - vx (Typed.position (Game.ship g))) * (px - vx (Typed.position (Game.ship g)))
       + (py - vy (Typed.position (Game.ship g))) * (py - vy (Typed.position (Game.ship g))).
Proof.
  unfold Game.shipToWorldCoordinates, Game.worldToShipCoordinates. cbn [vx vy].
  rewrite !cos_neg, !sin_neg.
  set (a := Matter.angle (Typed.body (Game.ship g))).
  set (X := vx (Typed.position (Game.ship g))).
  set (Y := vy (Typed.position (Game.ship g))).
  pose proof (cos_sin_unit a) as H.
  split; [|split].
  - f_equal.
    + transitivity (X + (px - X) * (cos a * cos a + sin a * sin a)); [ring|].
      rewrite H. ring.
    + transitivity (Y + (py - Y) * (cos a * cos a + sin a * sin a)); [ring|].
      rewrite H. ring.
  - f_equal.
    + transitivity (px * (cos a * cos a + sin a * sin a)); [ring|].
      rewrite H. ring.
    + transitivity (py * (cos a * cos a + sin a * sin a)); [ring|].
      rewrite H. ring.
  - transitivity (((px - X) * (px - X) + (py - Y) * (py - Y))
                  * (cos a * cos a + sin a * sin a)); [ring|].
    rewrite H. ring.
Qed.

(** ** Walkability is decided in the vessel's own frame *)

Lemma toLocal_deckPoint (lx ly : R) (s : Legacy.Ship) :
  Legacy.toLocal (vx (deckPoint lx ly s)) (vy (deckPoint lx ly s)) s = mkVec lx ly.
Proof.
  unfold Legacy.toLocal, deckPoint. cbn [vx vy]. rewrite !cos_neg, !sin_neg.
  set (a := Matter.angle (Legacy.body s)).
  pose proof (cos_sin_unit a) as H.
  f_equal.
  - transitivity (lx * (cos a * cos a + sin a * sin a)); [ring|]. rewrite H. ring.
  - transitivity (ly * (cos a * cos a + sin a * sin a)); [ring|]. rewrite H. ring.
Qed.

Lemma inDynamicObstacle_ext (lx ly : R) (s1 s2 : Legacy.Ship) :
  Legacy.modules s1 = Legacy.modules s2 ->
  Legacy.moduleVisualPositions s1 = Legacy.moduleVisualPositions s2 ->
  Legacy.inDynamicObstacle lx ly s1 = Legacy.inDynamicObstacle lx ly s2.
Proof.
  intros Hm Hv. unfold Legacy.inDynamicObstacle, Legacy.getModuleVisualPosition.
  rewrite Hm, Hv. reflexivity.
Qed.

(** X2.  Whether a point of the deck is walkable does not depend on where
    the vessel is or how it is heading: two vessels with the same mounted
    modules give the same answer for the world positions of the same deck
    point.  In particular the centre of every mast, the centre of the wheel
    and the centre of every cannon mount is never walkable. *)
Theorem walkability_follows_the_vessel (lx ly : R) (ctx : option Canvas.Transform)
  (s1 s2 : Legacy.Ship) :
  Legacy.modules s1 = Legacy.modules s2 ->
  Legacy.moduleVisualPositions s1 = Legacy.moduleVisualPositions s2 ->
  Legacy.isPositionOnDeck (vx (deckPoint lx ly s1)) (vy (deckPoint lx ly s1)) ctx s1
  = Legacy.isPositionOnDeck (vx (deckPoint lx ly s2)) (vy (deckPoint lx ly s2)) ctx s2
  /\ (forall m, In m Hull.MASTS ->
        Legacy.isPositionOnDeck (vx (deckPoint (Hull.cx m) (Hull.cy m) s1))
          (vy (deckPoint (Hull.cx m) (Hull.cy m) s1)) ctx s1 = false)
  /\ Legacy.isPositionOnDeck
       (vx (deckPoint (Hull.rx Hull.WHEEL) (Hull.ry Hull.WHEEL) s1))
       (vy (deckPoint (Hull.rx Hull.WHEEL) (Hull.ry Hull.WHEEL) s1)) ctx s1 = false
  /\ (forall c, In c Hull.CANNONS ->
        Legacy.isPositionOnDeck (vx (deckPoint (Hull.rx c) (Hull.ry c) s1))
          (vy (deckPoint (Hull.rx c) (Hull.ry c) s1)) ctx s1 = false).
Proof.
  intros Hm Hv.
  assert (Hstatic : forall px py, Hull.inStaticObstacle px py = true ->
            Legacy.isPositionOnDeck (vx (deckPoint px py s1))
              (vy (deckPoint px py s1)) ctx s1 = false).
  { intros px py H. unfold Legacy.isPositionOnDeck.
    rewrite toLocal_deckPoint. cbn [vx vy]. rewrite H.
    destruct (negb _); reflexivity. }
  split; [|split; [|split]].
  - unfold Legacy.isPositionOnDeck. rewrite !toLocal_deckPoint. cbn [vx vy].
    rewrite (inDynamicObstacle_ext lx ly s1 s2 Hm Hv). reflexivity.
  - intros m Hin. apply Hstatic.
    unfold Hull.inStaticObstacle, Hull.inMast.
    simpl in Hin. destruct Hin as [<-|[<-|[<-|[]]]]; simpl; js_eval.
  - apply Hstatic. unfold Hull.inStaticObstacle, Hull.inMast, Hull.inRect.
    simpl. js_eval.
  - intros c Hin. apply Hstatic.
    unfold Hull.inStaticObstacle, Hull.inMast, Hull.inRect.
    simpl in Hin. destruct Hin as [<-|[<-|[<-|[<-|[<-|[<-|[]]]]]]]; simpl; js_eval.
Qed.

Lemma walkability_follows_the_vessel_witness :
  Legacy.modules legacyBrig
  = Legacy.modules (Legacy.withPosition (mkVec 900 (-40)) legacyBrig)
  /\ Legacy.isPositionOnDeck
       (vx (deckPoint 0 50 legacyBrig)) (vy (deckPoint 0 50 legacyBrig)) None legacyBrig
     = Legacy.isPositionOnDeck
         (vx (deckPoint 0 50 (Legacy.withPosition (mkVec 900 (-40)) legacyBrig)))
         (vy (deckPoint 0 50 (Legacy.withPosition (mkVec 900 (-40)) legacyBrig)))
         None (Legacy.withPosition (mkVec 900 (-40)) legacyBrig).
Proof.
  split; [reflexivity|].
  exact (proj1 (walkability_follows_the_vessel 0 50 None legacyBrig
                  (Legacy.withPosition (mkVec 900 (-40)) legacyBrig) eq_refl eq_refl)).
Defined.

(** ** Where the safe dismount position lies *)

Lemma candidate_distance (sx sy : R) (s : Legacy.Ship) (c : Vec) :
  In c (Legacy.dismountCandidates sx sy s) ->
  (vx c - sx) * (vx c - sx) + (vy c - sy) * (vy c - sy) <= 60 * 60.
Proof.
  unfold Legacy.dismountCandidates. cbv zeta.
  intros H. apply in_flat_map in H as (inc & Hinc & H).
  apply in_map_iff in H as (i & <- & _).
  unfold Legacy.toLocal. cbn [vx vy]. rewrite !cos_neg, !sin_neg.
  set (a := Matter.angle (Legacy.body s)).
  set (X := vx (Legacy.position s)). set (Y := vy (Legacy.position s)).
  match goal with |- context [cos (?q * PI * 2)] => set (b := q * PI * 2) end.
  assert (Hd : 0 <= 60 * INR inc / INR 5 <= 60).
  { simpl in Hinc.
    destruct Hinc as [<-|[<-|[<-|[<-|[<-|[]]]]]]; simpl; lra. }
  set (d := 60 * INR inc / INR 5) in *.
  pose proof (cos_sin_unit a) as Ha. pose proof (cos_sin_unit b) as Hb.
  assert (Ex : X + ((sx - X) * cos a - (sy - Y) * - sin a + cos b * d) * cos a
               - ((sx - X) * - sin a + (sy - Y) * cos a + sin b * d) * sin a - sx
               = d * (cos b * cos a - sin b * sin a)).
  { transitivity ((sx - X) * (cos a * cos a + sin a * sin a) - (sx - X)
                  + d * (cos b * cos a - sin b * sin a)); [ring|].
    rewrite Ha. ring. }
  assert (Ey : Y + ((sx - X) * cos a - (sy - Y) * - sin a + cos b * d) * sin a
               + ((sx - X) * - sin a + (sy - Y) * cos a + sin b * d) * cos a - sy
               = d * (cos b * sin a + sin b * cos a)).
  { transitivity ((sy - Y) * (cos a * cos a + sin a * sin a) - (sy - Y)
                  + d * (cos b * sin a + sin b * cos a)); [ring|].
    rewrite Ha. ring. }
  rewrite Ex, Ey.
  replace (d * (cos b * cos a - sin b * sin a) * (d * (cos b * cos a - sin b * sin a))
           + d * (cos b * sin a + sin b * cos a) * (d * (cos b * sin a + sin b * cos a)))
    with (d * d * ((cos a * cos a + sin a * sin a) * (cos b * cos b + sin b * sin b)))
    by ring.
  rewrite Ha, Hb. nra.
Qed.

(** X3.  The point returned by [findSafeDismountPosition] is the start point
    itself, or a walkable point at most 60 units (the search radius) away
    from it, or else the vessel's position. *)
Theorem dismount_position_is_near (sx sy : R) (ctx : option Canvas.Transform)
  (s : Legacy.Ship) :
  Legacy.findSafeDismountPosition sx sy ctx s = mkVec sx sy
  \/ ((vx (Legacy.findSafeDismountPosition sx sy ctx s) - sx)
      * (vx (Legacy.findSafeDismountPosition sx sy ctx s) - sx)
      + (vy (Legacy.findSafeDismountPosition sx sy ctx s) - sy)
        * (vy (Legacy.findSafeDismountPosition sx sy ctx s) - sy) <= 60 * 60
      /\ Legacy.isPositionOnDeck
           (vx (Legacy.findSafeDismountPosition sx sy ctx s))
           (vy (Legacy.findSafeDismountPosition sx sy ctx s)) ctx s = true)
  \/ (Legacy.findSafeDismountPosition sx sy ctx s
      = mkVec (vx (Legacy.position s)) (vy (Legacy.position s))
      /\ forall c, In c (Legacy.dismountCandidates sx sy s) ->
           Legacy.isPositionOnDeck (vx c) (vy c) ctx s = false).
Proof.
  unfold Legacy.findSafeDismountPosition.
  destruct (Legacy.isPositionOnDeck sx sy ctx s); [left; reflexivity|].
  destruct (find _ (Legacy.dismountCandidates sx sy s)) as [c|] eqn:Hf.
  - right. left. apply find_some in Hf as [Hin Hw].
    split; [apply candidate_distance with s; exact Hin | exact Hw].
  - right. right. split; [reflexivity|].
    intros c Hc. exact (find_none _ _ Hf c Hc).
Qed.

(** ** Aiming *)

Lemma aimAt_target_cases (x y : R) (c : CannonModule.t) :
  exists T, CannonModule.aimAt x y c = CannonModule.withTarget T c
            /\ - (PI / 4) <= T <= PI / 4.
Proof.
  pose proof PI_RGT_0 as Hpi. unfold CannonModule.aimAt. cbv zeta.
  match goal with |- context [JS.wrapPi ?q] => set (a := JS.wrapPi q) end.
  destruct (Rlt_dec (PI / 4) a); [|destruct (Rlt_dec a (- (PI / 4)))];
    eexists; (split; [reflexivity | lra]).
Qed.

(** X4.  [aimAt] sets a target within 45 degrees either side of the base
    orientation, whatever point is aimed at, and changes nothing else in
    the cannon; the target is computed afresh from the cannon's position
    and base rotation, so it does not depend on the previous target and
    aiming twice at the same point is the same as aiming once. *)
Theorem aimAt_clamps_and_overwrites (x y a : R) (c : CannonModule.t) :
  - (PI / 4) <= CannonModule.targetTurretAngle (CannonModule.aimAt x y c) <= PI / 4
  /\ CannonModule.aimAt x y c
     = CannonModule.withTarget
         (CannonModule.targetTurretAngle (CannonModule.aimAt x y c)) c
  /\ CannonModule.aimAt x y (CannonModule.withTarget a c) = CannonModule.aimAt x y c
  /\ CannonModule.aimAt x y (CannonModule.aimAt x y c) = CannonModule.aimAt x y c.
Proof.
  destruct (aimAt_target_cases x y c) as (T & E & HT).
  assert (Hover : forall b, CannonModule.aimAt x y (CannonModule.withTarget b c)
                            = CannonModule.aimAt x y c).
  { intros b. unfold CannonModule.aimAt. cbv zeta. simpl.
    repeat match goal with |- context [Rlt_dec ?p ?q] => destruct (Rlt_dec p q) end;
      reflexivity. }
  split; [rewrite E; simpl; exact HT|]. split; [rewrite E; reflexivity|].
  split; [apply Hover|]. rewrite E at 1. apply Hover.
Qed.

Lemma aimAt_keeps (x y : R) (c : CannonModule.t) :
  CannonModule.turretAngle (CannonModule.aimAt x y c) = CannonModule.turretAngle c
  /\ CannonModule.rotationSpeed (CannonModule.aimAt x y c) = CannonModule.rotationSpeed c.
Proof.
  destruct (aimAt_target_cases x y c) as (T & E & _). rewrite E. split; reflexivity.
Qed.

(** X5.  A turret that rests within 45 degrees of its base orientation
    reaches any newly aimed target exactly, within any number of ticks that
    covers a quarter turn at the rotation rate; a turret set directly with
    [setTurretAngle] or [resetAim] does not move under [update]. *)
Theorem aim_is_reached (x y : R) (nows : list R) (c : CannonModule.t) :
  0 < CannonModule.rotationSpeed c ->
  - (PI / 4) <= CannonModule.turretAngle c <= PI / 4 ->
  PI / 2 <= INR (List.length nows) * CannonModule.rotationSpeed c ->
  CannonModule.turretAngle (ticks nows (CannonModule.aimAt x y c))
  = CannonModule.targetTurretAngle (CannonModule.aimAt x y c)
  /\ (forall a, CannonModule.turretAngle (ticks nows (Cannon.setTurretAngle a c)) = a)
  /\ CannonModule.turretAngle (ticks nows (Cannon.resetAim c)) = 0.
Proof.
  intros Hr Ht Hn. pose proof PI_RGT_0 as Hpi.
  assert (HT : - (PI / 4)
               <= CannonModule.targetTurretAngle (CannonModule.aimAt x y c) <= PI / 4).
  { destruct (aimAt_target_cases x y c) as (T & E & HT0). rewrite E. exact HT0. }
  destruct (aimAt_keeps x y c) as (Et & Er).
  split; [|split].
  - apply ticks_converge; [rewrite Er; exact Hr|].
    set (c1 := CannonModule.aimAt x y c) in *.
    destruct (Req_dec_T (CannonModule.turretAngle c1) (CannonModule.targetTurretAngle c1))
      as [E|Hne]; [left; exact E|].
    right. unfold CannonModule.angleDiff. rewrite wrapPi_id by (rewrite Et; lra).
    rewrite Er, Et in *. split; [lra|].
    apply Rle_trans with (PI / 2); [|exact Hn].
    unfold Rabs. destruct (Rcase_abs _); lra.
  - intros a. rewrite (ticks_converge nows (Cannon.setTurretAngle a c)).
    + reflexivity.
    + exact Hr.
    + left. reflexivity.
  - rewrite (ticks_converge nows (Cannon.resetAim c)).
    + reflexivity.
    + exact Hr.
    + left. reflexivity.
Qed.

Lemma aim_is_reached_witness :
  0 < CannonModule.rotationSpeed orphanCannon
  /\ CannonModule.turretAngle
       (ticks (repeat 0 400) (CannonModule.aimAt 300 (-40) orphanCannon))
     = CannonModule.targetTurretAngle (CannonModule.aimAt 300 (-40) orphanCannon).
Proof.
  pose proof PI_RGT_0 as Hpi. pose proof PI_4 as Hpi4.
  assert (Hr : 0 < CannonModule.rotationSpeed orphanCannon) by (simpl; lra).
  split; [exact Hr|].
  refine (proj1 (aim_is_reached 300 (-40) (repeat 0 400) orphanCannon Hr _ _)).
  - simpl. lra.
  - rewrite repeat_length. change (CannonModule.rotationSpeed orphanCannon) with 0.005.
    replace (INR 400) with 400 by (rewrite INR_IZR_INZ; reflexivity). lra.
Defined.

(** ** Firing and reloading *)

Lemma unloaded_fire_does_nothing (c : CannonModule.t) (now wx wy a : R) (v : option Vec) :
  CannonModule.isLoaded c = false ->
  CannonModule.fire now wx wy a v c = (false, c, []).
Proof. intros H. unfold CannonModule.fire. rewrite H. reflexivity. Qed.

Lemma reload_loaded (now : R) (c : CannonModule.t) :
  CannonModule.isLoaded (CannonModule.update now c)
  = CannonModule.isLoaded c
    || JS.gtb (now - CannonModule.lastFiredTime c) (CannonModule.reloadTime c).
Proof.
  unfold CannonModule.update.
  assert (H : forall c0, CannonModule.isLoaded (CannonModule.rotateTurret c0)
                         = CannonModule.isLoaded c0).
  { intros c0. unfold CannonModule.rotateTurret.
    destruct (JS.eqb _ _); [reflexivity|]. cbv zeta. destruct (_ || _); reflexivity. }
  rewrite H. unfold CannonModule.reload.
  destruct (CannonModule.isLoaded c) eqn:E; simpl; [exact E|].
  destruct (JS.gtb _ _); simpl; [reflexivity | exact E].
Qed.

(** X6.  A loaded cannon wired to a game that spawns fires at time [t0];
    from then on it is unloaded: firing again spawns nothing and changes
    nothing, at any time, until an [update] at a time more than [reloadTime]
    after [t0] has reloaded it; an [update] up to that time leaves it
    unloaded.  [use] leaves the cannon in the same state as firing. *)
Theorem cooldown_gates_firing (t0 now t1 wx wy a : R) (v : option Vec)
  (c : CannonModule.t) :
  CannonModule.isLoaded c = true ->
  CannonModule.game c = GameWithSpawner ->
  let c1 := snd (fst (CannonModule.fire t0 wx wy a v c)) in
  fst (fst (CannonModule.fire t0 wx wy a v c)) = true
  /\ CannonModule.fire t1 wx wy a v c1 = (false, c1, [])
  /\ (now - t0 <= CannonModule.reloadTime c ->
      CannonModule.isLoaded (CannonModule.update now c1) = false
      /\ CannonModule.fire t1 wx wy a v (CannonModule.update now c1)
         = (false, CannonModule.update now c1, []))
  /\ (CannonModule.reloadTime c < now - t0 ->
      CannonModule.isLoaded (CannonModule.update now c1) = true)
  /\ Cannon.use t0 c = c1.
Proof.
  intros Hl Hg c1.
  assert (E1 : c1 = CannonModule.withLastFired t0 (CannonModule.withLoaded false c)).
  { unfold c1, CannonModule.fire. rewrite Hl. simpl.
    destruct (CannonModule.game c); reflexivity. }
  assert (Hu : CannonModule.isLoaded c1 = false) by (rewrite E1; reflexivity).
  split; [unfold CannonModule.fire; rewrite Hl; simpl; rewrite Hg; reflexivity|].
  split; [apply unloaded_fire_does_nothing; exact Hu|].
  split; [|split].
  - intros Hle.
    assert (H : CannonModule.isLoaded (CannonModule.update now c1) = false).
    { rewrite reload_loaded, Hu, E1. simpl. apply ltb_false. exact Hle. }
    split; [exact H | apply unloaded_fire_does_nothing; exact H].
  - intros Hgt. rewrite reload_loaded, Hu, E1. simpl. apply ltb_true. exact Hgt.
  - unfold Cannon.use. rewrite Hl. symmetry. exact E1.
Qed.

Lemma cooldown_gates_firing_witness :
  CannonModule.isLoaded readyCannon = true
  /\ CannonModule.game readyCannon = GameWithSpawner
  /\ CannonModule.isLoaded
       (CannonModule.update 1500
          (snd (fst (CannonModule.fire 0 10 20 0 None readyCannon)))) = false
  /\ CannonModule.isLoaded
       (CannonModule.update 2500
          (snd (fst (CannonModule.fire 0 10 20 0 None readyCannon)))) = true.
Proof.
  split; [reflexivity|]. split; [reflexivity|].
  destruct (cooldown_gates_firing 0 1500 0 10 20 0 None readyCannon eq_refl eq_refl)
    as (_ & _ & H1 & _).
  destruct (cooldown_gates_firing 0 2500 0 10 20 0 None readyCannon eq_refl eq_refl)
    as (_ & _ & _ & H2 & _).
  split.
  - apply H1. simpl. lra.
  - apply H2. simpl. lra.
Defined.





(** ** The life of a cannonball *)

Lemma update_fields (c : Cannonball.t) :
  Cannonball.lifetime (snd (Cannonball.update c)) = Cannonball.lifetime c + 1
  /\ Cannonball.maxLifetime (snd (Cannonball.update c)) = Cannonball.maxLifetime c
  /\ Cannonball.velocity (snd (Cannonball.update c)) = Cannonball.velocity c
  /\ fst (Cannonball.update c)
     = JS.ltb (Cannonball.lifetime c + 1) (Cannonball.maxLifetime c).
Proof. repeat split. Qed.

Lemma flight_lifetime (n : nat) (c : Cannonball.t) :
  Cannonball.lifetime (flight n c) = Cannonball.lifetime c + INR n
  /\ Cannonball.maxLifetime (flight n c) = Cannonball.maxLifetime c
  /\ Cannonball.velocity (flight n c) = Cannonball.velocity c.
Proof.
  induction n as [|n IH].
  - simpl. repeat split. lra.
  - destruct IH as (H1 & H2 & H3). rewrite S_INR.
    change (flight (S n) c) with (snd (Cannonball.update (flight n c))).
    destruct (update_fields (flight n c)) as (-> & -> & -> & _).
    rewrite H1, H2, H3. repeat split. ring.
Qed.

Lemma sweep_single (c : Cannonball.t) :
  fst (Game.sweep [c])
  = if fst (Cannonball.update c) then [snd (Cannonball.update c)] else [].
Proof.
  simpl. destruct (JS.ltb _ _); reflexivity.
Qed.


Lemma sweeps_single (n : nat) (c : Cannonball.t) :
  Cannonball.lifetime c + INR n < Cannonball.maxLifetime c ->
  sweeps n [c] = [flight n c].
Proof.
  induction n as [|n IH]; intros H; [reflexivity|].
  rewrite S_INR in H. unfold sweeps, flight in *. simpl Nat.iter.
  rewrite IH by lra. rewrite sweep_single.
  destruct (flight_lifetime n c) as (H1 & H2 & _).
  destruct (update_fields (Nat.iter n (fun b => snd (Cannonball.update b)) c))
    as (_ & _ & _ & ->).
  unfold flight in *. rewrite H1, H2.
  replace (JS.ltb (Cannonball.lifetime c + INR n + 1) (Cannonball.maxLifetime c))
    with true by (symmetry; apply ltb_true; lra).
  reflexivity.
Qed.

Lemma sweeps_nil (n : nat) : sweeps n [] = [].
Proof. induction n as [|n IH]; [reflexivity|]. unfold sweeps in *. simpl. rewrite IH. reflexivity. Qed.


Lemma INR_180 : INR 180 = 180.
Proof. rewrite INR_IZR_INZ. reflexivity. Qed.

Lemma INR_179 : INR 179 = 179.
Proof. rewrite INR_IZR_INZ. reflexivity. Qed.

Lemma sweeps_succ (n : nat) (cs : list Cannonball.t) :
  sweeps (S n) cs = fst (Game.sweep (sweeps n cs)).
Proof. reflexivity. Qed.

(** X8.  A cannonball added to a game without cannonballs is kept, with its
    velocity, through 179 calls of [updateCannonballs], its lifetime
    counting the calls, and the 180th call removes it for good. *)
Theorem cannonball_lives_179_frames (px py angle : R) (speed : option R) (g : Game.t)
  (n : nat) :
  Game.cannonballs g = [] ->
  let ball := Game.cannonballs (Game.addCannonball px py angle speed g) in
  ((n < 180)%nat ->
   exists c, sweeps n ball = [c] /\ Cannonball.lifetime c = INR n
             /\ Cannonball.velocity c
                = Cannonball.velocity
                    (Cannonball.new px py angle
                       (match speed with Some v => v | None => 10 end)))
  /\ ((180 <= n)%nat -> sweeps n ball = []).
Proof.
  intros Hempty ball.
  set (b := Cannonball.new px py angle (match speed with Some v => v | None => 10 end)).
  assert (Hball : ball = [b]).
  { unfold ball, Game.addCannonball. cbn [Game.cannonballs]. rewrite Hempty. reflexivity. }
  assert (Hl : Cannonball.lifetime b = 0) by reflexivity.
  assert (Hm : Cannonball.maxLifetime b = 180) by reflexivity.
  assert (Hyoung : forall k, (k < 180)%nat -> sweeps k [b] = [flight k b]).
  { intros k Hk. apply sweeps_single. rewrite Hl, Hm.
    apply lt_INR in Hk. rewrite INR_180 in Hk. lra. }
  assert (H180 : sweeps 180 [b] = []).
  { rewrite (sweeps_succ 179 [b]).
    rewrite Hyoung by lia. rewrite sweep_single.
    destruct (flight_lifetime 179 b) as (H1 & H2 & _).
    destruct (update_fields (flight 179 b)) as (_ & _ & _ & ->).
    rewrite H1, H2, Hl, Hm, INR_179.
    replace (JS.ltb (0 + 179 + 1) 180) with false; [reflexivity|].
    symmetry. apply ltb_false. lra. }
  rewrite Hball. split.
  - intros Hn. exists (flight n b). split; [apply Hyoung, Hn|].
    destruct (flight_lifetime n b) as (H1 & _ & H3).
    split; [rewrite H1, Hl; lra | exact H3].
  - intros Hn. replace n with ((n - 180) + 180)%nat by lia.
    unfold sweeps at 1. rewrite Nat.iter_add.
    fold (sweeps 180 [b]). rewrite H180. apply sweeps_nil.
Qed.

Lemma cannonball_lives_179_frames_witness :
  Game.cannonballs quarterTurnGame = []
  /\ sweeps 180 (Game.cannonballs (Game.addCannonball 0 0 0 None quarterTurnGame)) = [].
Proof.
  split; [reflexivity|].
  destruct (cannonball_lives_179_frames 0 0 0 None quarterTurnGame 180 eq_refl)
    as [_ H].
  apply H. lia.
Defined.


(** ** The grid of [testWalkableArea] *)

(** X10.  At every grid point [testWalkableArea] hands [isPositionOnDeck]
    the world position of the grid point, which [isPositionOnDeck] brings
    back to the grid point itself; so both of its tests ask the context
    about the same canvas point, and a point is reported walkable exactly
    when it is reported inside the hull and lies in no obstacle.  The
    context has been moved to the vessel before: when it arrives with the
    identity transform, the hull test at a grid point is the test of the
    hull outline at the local coordinates of the world point that has the
    grid point's coordinates. *)
Theorem walkable_grid_matches_hull_test (m : Canvas.Transform) (x y : R) (s : Legacy.Ship) :
  snd (Legacy.testWalkablePoint m x y s)
  = fst (Legacy.testWalkablePoint m x y s)
    && negb (Hull.inStaticObstacle x y)
    && negb (Legacy.inDynamicObstacle x y s)
  /\ (snd (Legacy.testWalkablePoint m x y s) = true ->
      fst (Legacy.testWalkablePoint m x y s) = true)
  /\ fst (Legacy.testWalkablePoint Canvas.identity x y s)
     = Hull.inPath (vx (Legacy.toLocal x y s)) (vy (Legacy.toLocal x y s)).
Proof.
  assert (E : snd (Legacy.testWalkablePoint m x y s)
              = fst (Legacy.testWalkablePoint m x y s)
                && negb (Hull.inStaticObstacle x y)
                && negb (Legacy.inDynamicObstacle x y s)).
  { unfold Legacy.testWalkablePoint. cbv zeta. cbn [fst snd].
    unfold Legacy.isPositionOnDeck.
    pose proof (toLocal_deckPoint x y s) as H. unfold deckPoint in H.
    cbv zeta in H. cbn [vx vy] in H. rewrite H. cbn [vx vy Legacy.isInHull].
    destruct (Hull.isPointInPath _ x y), (Hull.inStaticObstacle x y),
      (Legacy.inDynamicObstacle x y s); reflexivity. }
  split; [exact E|]. split.
  - rewrite E. intros H. apply andb_true_iff in H as [H _].
    apply andb_true_iff in H as [H _]. exact H.
  - unfold Legacy.testWalkablePoint. cbv zeta. cbn [fst].
    apply isPointInPath_walkableArea.
Qed.

(** ** Broadsides *)

Lemma fireOne_outcome (now : R) (s : Typed.Ship) (c : CannonModule.t) :
  CannonModule.isLoaded (fst (TypedShip.fireOne now s c)) = false
  /\ spawnCount (snd (TypedShip.fireOne now s c))
     = (if readyToFire c then 1 else 0)%nat
  /\ CannonModule.game (fst (TypedShip.fireOne now s c)) = CannonModule.game c.
Proof.
  unfold TypedShip.fireOne, readyToFire, CannonModule.fire. cbv zeta.
  destruct (CannonModule.isLoaded c) eqn:Hl; simpl.
  - destruct (CannonModule.game c) eqn:Hg; simpl; rewrite ?Hg;
      repeat split; reflexivity.
  - repeat split; assumption.
Qed.

Lemma spawnCount_app (e1 e2 : list Event) :
  spawnCount (e1 ++ e2) = (spawnCount e1 + spawnCount e2)%nat.
Proof. unfold spawnCount. rewrite filter_app, length_app. reflexivity. Qed.

Lemma fireAll_outcome (clock : nat -> R) (s : Typed.Ship) (cs : IdMap.t CannonModule.t) :
  forall k,
    map fst (fst (TypedShip.fireAll clock k s cs)) = map fst cs
    /\ Forall (fun kv => CannonModule.isLoaded (snd kv) = false)
         (fst (TypedShip.fireAll clock k s cs))
    /\ spawnCount (snd (TypedShip.fireAll clock k s cs))
       = List.length (filter (fun kv => readyToFire (snd kv)) cs).
Proof.
  induction cs as [|[id c] rest IH]; intros k; simpl.
  - repeat split. constructor.
  - destruct (fireOne_outcome (clock k) s c) as (H1 & H2 & _).
    destruct (TypedShip.fireOne (clock k) s c) as [c' events].
    destruct (IH (S k)) as (I1 & I2 & I3).
    destruct (TypedShip.fireAll clock (S k) s rest) as [rest' events'].
    simpl in *. split; [f_equal; exact I1|]. split; [constructor; assumption|].
    rewrite spawnCount_app, H2, I3.
    destruct (readyToFire c); reflexivity.
Qed.

Lemma fireCannon_spawns (clock : nat -> R) (target : Vec) (s : Typed.Ship) :
  spawnCount (snd (TypedShip.fireCannon clock (Some target) s))
  = List.length (filter (fun kv => readyToFire (snd kv)) (Typed.cannons s)).
Proof.
  unfold TypedShip.fireCannon.
  destruct (fireAll_outcome clock s (Typed.cannons s) 0) as (_ & _ & H).
  destruct (TypedShip.fireAll clock 0 s (Typed.cannons s)) as [cs events].
  exact H.
Qed.

(** X11.  [fireCannon] with a target asks for one cannonball from every
    cannon that is loaded and wired to a game that spawns, and for none from
    the others; it keeps the cannons and their order and leaves every one of
    them unloaded, so that a second broadside straight after spawns nothing.
    Without a target it does nothing at all. *)
Theorem broadside_fires_every_ready_cannon (clock clock' : nat -> R) (target target' : Vec)
  (s : Typed.Ship) :
  let s' := fst (TypedShip.fireCannon clock (Some target) s) in
  spawnCount (snd (TypedShip.fireCannon clock (Some target) s))
  = List.length (filter (fun kv => readyToFire (snd kv)) (Typed.cannons s))
  /\ map fst (Typed.cannons s') = map fst (Typed.cannons s)
  /\ Forall (fun kv => CannonModule.isLoaded (snd kv) = false) (Typed.cannons s')
  /\ spawnCount (snd (TypedShip.fireCannon clock' (Some target') s')) = 0%nat
  /\ Typed.sails s' = Typed.sails s
  /\ Typed.body s' = Typed.body s
  /\ TypedShip.fireCannon clock None s = (s, []).
Proof.
  cbv zeta. unfold TypedShip.fireCannon.
  destruct (fireAll_outcome clock s (Typed.cannons s) 0) as (H1 & H2 & H3).
  destruct (TypedShip.fireAll clock 0 s (Typed.cannons s)) as [cs events] eqn:E.
  cbn [fst snd] in *.
  split; [exact H3|]. split; [exact H1|]. split; [exact H2|].
  split; [|repeat split].
  destruct (fireAll_outcome clock' (TypedShip.withCannons cs s)
              (Typed.cannons (TypedShip.withCannons cs s)) 0) as (_ & _ & H4).
  destruct (TypedShip.fireAll clock' 0 _ _) as [cs' events'].
  cbn [fst snd] in *. rewrite H4. cbn [Typed.cannons TypedShip.withCannons].
  clear - H2. induction H2 as [|kv l Hkv Hl IH]; [reflexivity|].
  simpl. unfold readyToFire at 1. rewrite Hkv. simpl. exact IH.
Qed.

(** X12.  A cannon takes its game from the vessel at the moment it is
    mounted: mounted on a vessel whose game is already set, a loaded cannon
    fires; mounted before the vessel's game is set, it holds the vessel
    itself, which cannot spawn, and setting the vessel's game afterwards
    does not change that. *)
Theorem cannon_takes_game_when_mounted (clock : nat -> R) (target : Vec) (id : string)
  (c : CannonModule.t) (s : Typed.Ship) :
  CannonModule.isLoaded c = true ->
  Typed.cannons s = [] ->
  Typed.game s = NoGame ->
  spawnCount
    (snd (TypedShip.fireCannon clock (Some target)
            (TypedShip.addCannon id c (TypedShip.setGame GameWithSpawner s)))) = 1%nat
  /\ spawnCount
       (snd (TypedShip.fireCannon clock (Some target)
               (TypedShip.setGame GameWithSpawner (TypedShip.addCannon id c s)))) = 0%nat.
Proof.
  intros Hl Hc Hg. split; rewrite fireCannon_spawns.
  - simpl. rewrite Hc. simpl. unfold readyToFire. simpl. rewrite Hl. reflexivity.
  - simpl. rewrite Hc, Hg. simpl. unfold readyToFire. simpl. rewrite Hl. reflexivity.
Qed.

Lemma cannon_takes_game_when_mounted_witness :
  CannonModule.isLoaded orphanCannon = true
  /\ Typed.cannons (Typed.new 0 0) = []
  /\ Typed.game (Typed.new 0 0) = NoGame
  /\ spawnCount
       (snd (TypedShip.fireCannon (fun _ => 0) (Some (mkVec 0 500))
               (TypedShip.setGame GameWithSpawner
                  (TypedShip.addCannon "cannon1" orphanCannon (Typed.new 0 0)))))
     = 0%nat.
Proof.
  split; [reflexivity|]. split; [reflexivity|]. split; [reflexivity|].
  exact (proj2 (cannon_takes_game_when_mounted (fun _ => 0) (mkVec 0 500) "cannon1"
                  orphanCannon (Typed.new 0 0) eq_refl eq_refl eq_refl)).
Defined.

(** ** The player *)

Lemma runPlayer_keeps (op : PlayerOp) (p : Player.t) :
  Player.bodyIsSensor p = Player.onShip p && Player.atShipWheel p ->
  0 <= Player.health p ->
  Player.bodyIsSensor (runPlayer op p)
  = Player.onShip (runPlayer op p) && Player.atShipWheel (runPlayer op p)
  /\ 0 <= Player.health (runPlayer op p).
Proof.
  intros Hs Hh. destruct op; simpl.
  - split; assumption.
  - split; [assumption|]. destruct (Rlt_dec (Player.health p - amount) 0); lra.
  - split; [reflexivity | assumption].
  - unfold Player.setAtShipWheel. destruct (Player.onShip p) eqn:E; simpl.
    + split; [reflexivity | assumption].
    + rewrite E. split; assumption.
Qed.

(** X13.  Whatever is done to a player after its creation (moving, taking
    damage, boarding or leaving a vessel, taking or leaving the wheel), its
    body is a sensor exactly while it is on a vessel and at the wheel, and
    its health is never negative; it starts solid, with health 100. *)
Theorem player_is_sensor_only_at_the_wheel (ops : list PlayerOp) (x y : R) :
  Player.bodyIsSensor (fold_left (fun p op => runPlayer op p) ops (Player.new x y))
  = Player.onShip (fold_left (fun p op => runPlayer op p) ops (Player.new x y))
    && Player.atShipWheel (fold_left (fun p op => runPlayer op p) ops (Player.new x y))
  /\ 0 <= Player.health (fold_left (fun p op => runPlayer op p) ops (Player.new x y))
  /\ Player.bodyIsSensor (Player.new x y) = false
  /\ Player.health (Player.new x y) = 100.
Proof.
  split; [|split; [|split; reflexivity]].
  - assert (H : forall p,
      Player.bodyIsSensor p = Player.onShip p && Player.atShipWheel p ->
      0 <= Player.health p ->
      Player.bodyIsSensor (fold_left (fun p op => runPlayer op p) ops p)
      = Player.onShip (fold_left (fun p op => runPlayer op p) ops p)
        && Player.atShipWheel (fold_left (fun p op => runPlayer op p) ops p)).
    { induction ops as [|op ops IH]; intros p Hs Hh; simpl; [exact Hs|].
      destruct (runPlayer_keeps op p Hs Hh) as [Hs' Hh']. apply IH; assumption. }
    apply H; simpl; [reflexivity | lra].
  - assert (H : forall p,
      Player.bodyIsSensor p = Player.onShip p && Player.atShipWheel p ->
      0 <= Player.health p ->
      0 <= Player.health (fold_left (fun p op => runPlayer op p) ops p)).
    { induction ops as [|op ops IH]; intros p Hs Hh; simpl; [exact Hh|].
      destruct (runPlayer_keeps op p Hs Hh) as [Hs' Hh']. apply IH; assumption. }
    apply H; simpl; [reflexivity | lra].
Qed.

Lemma takeDamage_health (amount : R) (p : Player.t) :
  Player.health (Player.takeDamage amount p) = Rmax 0 (Player.health p - amount).
Proof.
  unfold Player.takeDamage. simpl.
  destruct (Rlt_dec (Player.health p - amount) 0); minmax.
Qed.

(** X14.  [takeDamage] leaves the health at the larger of zero and the
    health less the damage, so never negative; the player is alive after it
    exactly when the damage is less than the health; and two hits, the
    second of them not negative, count as one hit of their sum. *)
Theorem player_damage_accumulates (a b : R) (p : Player.t) :
  0 <= b ->
  Player.health (Player.takeDamage a p) = Rmax 0 (Player.health p - a)
  /\ 0 <= Player.health (Player.takeDamage a p)
  /\ (Player.isAlive (Player.takeDamage a p) = true <-> a < Player.health p)
  /\ Player.takeDamage b (Player.takeDamage a p) = Player.takeDamage (a + b) p.
Proof.
  intros Hb. pose proof (takeDamage_health a p) as H.
  split; [exact H|]. split; [rewrite H; minmax|]. split.
  - unfold Player.isAlive, JS.gtb. rewrite ltb_true, H. minmax.
  - unfold Player.takeDamage. simpl. f_equal.
    destruct (Rlt_dec (Player.health p - a) 0);
      destruct (Rlt_dec (Player.health p - (a + b)) 0);
      repeat match goal with |- context [Rlt_dec ?u ?v] => destruct (Rlt_dec u v) end;
      lra.
Qed.

Lemma player_damage_accumulates_witness :
  0 <= 70
  /\ Player.takeDamage 70 (Player.takeDamage 50 (Player.new 0 0))
     = Player.takeDamage (50 + 70) (Player.new 0 0)
  /\ 0 <= Player.health (Player.takeDamage 50 (Player.new 0 0)).
Proof.
  assert (H : 0 <= 70) by lra.
  split; [exact H|].
  destruct (player_damage_accumulates 50 70 (Player.new 0 0) H) as (_ & H1 & _ & H2).
  split; assumption.
Defined.

(** ** Enemies *)

(** X15.  An enemy that is not at its target moves by exactly its speed
    along the straight line to the target, and its physics body is put
    where it is; it does not stop at the target when its speed exceeds the
    distance left.  An enemy at its target stays as it is. *)
Theorem enemy_steps_toward_target (tx ty : R) (e : Enemy.t) :
  0 < (tx - vx (Enemy.position e)) * (tx - vx (Enemy.position e))
      + (ty - vy (Enemy.position e)) * (ty - vy (Enemy.position e)) ->
  let d := sqrt ((tx - vx (Enemy.position e)) * (tx - vx (Enemy.position e))
                 + (ty - vy (Enemy.position e)) * (ty - vy (Enemy.position e))) in
  let e' := Enemy.moveTowards tx ty e in
  (vx (Enemy.position e') - vx (Enemy.position e))
  * (vx (Enemy.position e') - vx (Enemy.position e))
  + (vy (Enemy.position e') - vy (Enemy.position e))
    * (vy (Enemy.position e') - vy (Enemy.position e))
  = Enemy.speed e * Enemy.speed e
  /\ (tx - vx (Enemy.position e')) * (tx - vx (Enemy.position e'))
     + (ty - vy (Enemy.position e')) * (ty - vy (Enemy.position e'))
     = (d - Enemy.speed e) * (d - Enemy.speed e)
  /\ (tx - vx (Enemy.position e')) * d = (tx - vx (Enemy.position e)) * (d - Enemy.speed e)
  /\ (ty - vy (Enemy.position e')) * d = (ty - vy (Enemy.position e)) * (d - Enemy.speed e)
  /\ Enemy.bodyPosition e' = Enemy.position e'
  /\ Enemy.moveTowards (vx (Enemy.position e)) (vy (Enemy.position e)) e = e.
Proof.
  intros Hpos d e'.
  set (dx := tx - vx (Enemy.position e)) in *.
  set (dy := ty - vy (Enemy.position e)) in *.
  assert (Hd : 0 < d) by (apply sqrt_lt_R0; exact Hpos).
  assert (Hdd : d * d = dx * dx + dy * dy) by (apply sqrt_sqrt; lra).
  assert (He : e' = Enemy.mk
                      (mkVec (vx (Enemy.position e) + dx / d * Enemy.speed e)
                             (vy (Enemy.position e) + dy / d * Enemy.speed e))
                      (Enemy.health e) (Enemy.speed e)
                      (mkVec (vx (Enemy.position e) + dx / d * Enemy.speed e)
                             (vy (Enemy.position e) + dy / d * Enemy.speed e))).
  { unfold e', Enemy.moveTowards. cbv zeta. fold dx dy. fold d.
    destruct (Rlt_dec 0 d); [reflexivity | contradiction]. }
  rewrite He. cbn [Enemy.position Enemy.bodyPosition vx vy].
  set (s := Enemy.speed e).
  assert (Hinv : d * / d = 1) by (apply Rinv_r; lra).
  split; [|split; [|split; [|split; [|split]]]].
  - transitivity (s * s * (/ d * / d) * (dx * dx + dy * dy)); [unfold Rdiv; ring|].
    rewrite <- Hdd.
    transitivity (s * s * ((d * / d) * (d * / d))); [ring|]. rewrite Hinv. ring.
  - transitivity ((dx * dx + dy * dy) * ((1 - s * / d) * (1 - s * / d)));
      [unfold dx, dy, Rdiv; ring|].
    rewrite <- Hdd.
    transitivity ((d - s * (d * / d)) * (d - s * (d * / d))); [ring|].
    rewrite Hinv. ring.
  - transitivity (dx * (d - s * (d * / d))); [unfold dx, Rdiv; ring|].
    rewrite Hinv. unfold dx. ring.
  - transitivity (dy * (d - s * (d * / d))); [unfold dy, Rdiv; ring|].
    rewrite Hinv. unfold dy. ring.
  - reflexivity.
  - unfold Enemy.moveTowards. cbv zeta.
    replace ((vx (Enemy.position e) - vx (Enemy.position e))
             * (vx (Enemy.position e) - vx (Enemy.position e))
             + (vy (Enemy.position e) - vy (Enemy.position e))
               * (vy (Enemy.position e) - vy (Enemy.position e))) with 0 by ring.
    rewrite sqrt_0. destruct (Rlt_dec 0 0); [lra | reflexivity].
Qed.

Lemma enemy_steps_toward_target_witness :
  0 < (3 - vx (Enemy.position walker)) * (3 - vx (Enemy.position walker))
      + (4 - vy (Enemy.position walker)) * (4 - vy (Enemy.position walker))
  /\ (vx (Enemy.position (Enemy.moveTowards 3 4 walker)) - vx (Enemy.position walker))
     * (vx (Enemy.position (Enemy.moveTowards 3 4 walker)) - vx (Enemy.position walker))
     + (vy (Enemy.position (Enemy.moveTowards 3 4 walker)) - vy (Enemy.position walker))
       * (vy (Enemy.position (Enemy.moveTowards 3 4 walker)) - vy (Enemy.position walker))
     = Enemy.speed walker * Enemy.speed walker.
Proof.
  assert (H : 0 < (3 - vx (Enemy.position walker)) * (3 - vx (Enemy.position walker))
                  + (4 - vy (Enemy.position walker)) * (4 - vy (Enemy.position walker)))
    by (simpl; lra).
  split; [exact H|].
  exact (proj1 (enemy_steps_toward_target 3 4 walker H)).
Defined.

(** ** The camera *)


(** ** Helpers *)

(** X17.  [randomInRange] stays between its bounds, short of the upper one,
    for every value that [Math.random] can give; the two angle conversions
    are inverse to each other, and 180 degrees are pi radians. *)
Theorem helpers_stay_in_range (random min max degrees radians : R) :
  0 <= random < 1 -> min <= max ->
  min <= Helpers.randomInRange random min max <= max
  /\ (min < max -> Helpers.randomInRange random min max < max)
  /\ Helpers.radiansToDegrees (Helpers.degreesToRadians degrees) = degrees
  /\ Helpers.degreesToRadians (Helpers.radiansToDegrees radians) = radians
  /\ Helpers.degreesToRadians 180 = PI.
Proof.
  intros Hr Hm. pose proof PI_RGT_0 as Hpi.
  unfold Helpers.randomInRange, Helpers.radiansToDegrees, Helpers.degreesToRadians.
  split; [nra|]. split; [intros Hlt; nra|].
  split; [field; lra|]. split; field; lra.
Qed.

Lemma helpers_stay_in_range_witness :
  0 <= 0.25 < 1 /\ 10 <= 20
  /\ 10 <= Helpers.randomInRange 0.25 10 20 <= 20.
Proof.
  assert (H1 : 0 <= 0.25 < 1) by lra. assert (H2 : 10 <= 20) by lra.
  split; [exact H1|]. split; [exact H2|].
  exact (proj1 (helpers_stay_in_range 0.25 10 20 0 0 H1 H2)).
Defined.

(** ** The wind cycle *)

Lemma rem_period (x y : R) : 0 <= x -> 0 < y -> JS.rem (x + y) y = JS.rem x y.
Proof.
  intros Hx Hy. unfold JS.rem, JS.trunc.
  assert (Hq : 0 <= x / y)
    by (apply Rmult_le_pos; [lra | left; apply Rinv_0_lt_compat; lra]).
  assert (E : (x + y) / y = x / y + 1) by (field; lra).
  rewrite E.
  destruct (Rle_dec 0 (x / y + 1)); [|lra]. destruct (Rle_dec 0 (x / y)); [|lra].
  pose proof (Zfloor_bound (x / y)) as [Hlo Hhi].
  rewrite (Zfloor_eq (Zfloor (x / y) + 1) (x / y + 1)).
  - rewrite plus_IZR. simpl. ring.
  - rewrite plus_IZR. simpl. lra.
Qed.

(** X18.  The wind is a function of the time since the wind system was
    started: [updateWind] reads nothing of the wind it replaces, and with
    the same jitter it gives the same wind again five minutes later. *)
Theorem wind_repeats_every_cycle (now now' random random' : R) (w : WorldManager.t) :
  0 <= now - WorldManager.windSystemStartTime w ->
  WorldManager.updateWind (now + 300000) random w = WorldManager.updateWind now random w
  /\ WorldManager.updateWind now random (WorldManager.updateWind now' random' w)
     = WorldManager.updateWind now random w
  /\ WorldManager.windDirection
       (WorldManager.updateWind (WorldManager.windSystemStartTime w) random w) = 0.
Proof.
  intros He. pose proof PI_RGT_0 as Hpi.
  assert (Hc : WorldManager.cycleDuration = 300000)
    by (unfold WorldManager.cycleDuration; lra).
  split; [|split].
  - unfold WorldManager.updateWind. cbv zeta.
    replace (now + 300000 - WorldManager.windSystemStartTime w)
      with (now - WorldManager.windSystemStartTime w + 300000) by ring.
    unfold WorldManager.directionAt, WorldManager.cyclePosition.
    rewrite Hc, rem_period by lra. reflexivity.
  - reflexivity.
  - unfold WorldManager.updateWind. cbv zeta. cbn [WorldManager.windDirection].
    unfold WorldManager.directionAt, WorldManager.cyclePosition.
    replace (WorldManager.windSystemStartTime w - WorldManager.windSystemStartTime w)
      with 0 by ring.
    rewrite Hc, rem_small by lra.
    replace (0 / 300000 * PI * 2) with 0 by (field; lra).
    apply wrapTwoPi_id. lra.
Qed.

Lemma wind_repeats_every_cycle_witness :
  0 <= 1000 - WorldManager.windSystemStartTime freshWind
  /\ WorldManager.updateWind (1000 + 300000) 0.5 freshWind
     = WorldManager.updateWind 1000 0.5 freshWind.
Proof.
  assert (H : 0 <= 1000 - WorldManager.windSystemStartTime freshWind) by (simpl; lra).
  split; [exact H|].
  exact (proj1 (wind_repeats_every_cycle 1000 0 0.5 0 freshWind H)).
Defined.

(** ** The rudder and the wheel *)

Lemma rudder_rate_floor (b : Matter.Body) :
  0.25 <= 0.5 * (0.5 + Rmin 0.7 (Legacy.currentSpeed b / 3)).
Proof. pose proof (currentSpeed_nonneg b). minmax. Qed.

Lemma INR_120 : INR 120 = 120.
Proof. rewrite INR_IZR_INZ. reflexivity. Qed.

Lemma INR_240 : INR 240 = 240.
Proof. rewrite INR_IZR_INZ. reflexivity. Qed.

(** A rudder that every step moves by at least a quarter of a degree. *)
Lemma steer_iter {A : Type} (f : A -> A) (rud rate : A -> R) (d : Direction) :
  (forall a, rud (f a) = Legacy.steer d (rate a) (rud a)) ->
  (forall a, 0.25 <= rate a) ->
  forall (n : nat) (a : A),
    -30 <= rud a <= 30 ->
    -30 <= rud (Nat.iter n f a) <= 30
    /\ match d with
       | left => rud (Nat.iter n f a) <= Rmax (-30) (rud a - 0.25 * INR n)
       | right => Rmin 30 (rud a + 0.25 * INR n) <= rud (Nat.iter n f a)
       | center => Rabs (rud (Nat.iter n f a)) <= Rmax 0 (Rabs (rud a) - 0.25 * INR n)
       end.
Proof.
  intros Hf Hrate n a Ha. induction n as [|n [IH1 IH2]].
  - simpl. split; [exact Ha|]. destruct d; minmax.
  - rewrite S_INR. simpl Nat.iter. rewrite Hf.
    pose proof (Hrate (Nat.iter n f a)) as Hr.
    set (r := rud (Nat.iter n f a)) in *. set (q := rate (Nat.iter n f a)) in *.
    set (k := 0.25 * INR n) in *.
    replace (0.25 * (INR n + 1)) with (k + 0.25) by (unfold k; ring).
    split; [apply steer_range; lra|].
    destruct d; unfold Legacy.steer; minmax.
Qed.

(** X19.  Held to one side, the rudder reaches its stop at 30 degrees and
    stays there; released, it comes back to the centre exactly and stays
    there: from any rudder angle within the stops, 240 calls of
    [applyRudder] to one side, or 120 calls to the centre, are enough at
    any speed.  This holds for both versions of the vessel. *)
Theorem rudder_reaches_its_stops (n : nat) (s : Typed.Ship) (l : Legacy.Ship) :
  -30 <= Typed.rudderAngle s <= 30 ->
  -30 <= Legacy.rudderAngle l <= 30 ->
  ((120 <= n)%nat ->
   Typed.rudderAngle (Nat.iter n (Typed.applyRudder center) s) = 0
   /\ Legacy.rudderAngle (Nat.iter n (Legacy.applyRudder center) l) = 0)
  /\ ((240 <= n)%nat ->
      Typed.rudderAngle (Nat.iter n (Typed.applyRudder left) s) = -30
      /\ Typed.rudderAngle (Nat.iter n (Typed.applyRudder right) s) = 30
      /\ Legacy.rudderAngle (Nat.iter n (Legacy.applyRudder left) l) = -30
      /\ Legacy.rudderAngle (Nat.iter n (Legacy.applyRudder right) l) = 30).
Proof.
  intros Hs Hl.
  pose proof (fun d => steer_iter (Typed.applyRudder d) Typed.rudderAngle
                 (fun a => 0.5 * (0.5 + Rmin 0.7 (Legacy.currentSpeed (Typed.body a) / 3)))
                 d (typed_applyRudder_rudder d)
                 (fun a => rudder_rate_floor (Typed.body a)) n s Hs) as HT.
  pose proof (fun d => steer_iter (Legacy.applyRudder d) Legacy.rudderAngle
                 (fun a => 0.5 * (0.5 + Rmin 0.7 (Legacy.currentSpeed (Legacy.body a) / 3)))
                 d (legacy_applyRudder_rudder d)
                 (fun a => rudder_rate_floor (Legacy.body a)) n l Hl) as HL.
  split.
  - intros Hn. apply le_INR in Hn. rewrite INR_120 in Hn.
    destruct (HT center) as [_ H1]. destruct (HL center) as [_ H2].
    split; minmax.
  - intros Hn. apply le_INR in Hn. rewrite INR_240 in Hn.
    destruct (HT left) as [B1 H1]. destruct (HT right) as [B2 H2].
    destruct (HL left) as [B3 H3]. destruct (HL right) as [B4 H4].
    repeat split; minmax.
Qed.

Lemma rudder_reaches_its_stops_witness :
  -30 <= Typed.rudderAngle typedBrig <= 30
  /\ -30 <= Legacy.rudderAngle legacyBrig <= 30
  /\ Typed.rudderAngle (Nat.iter 240 (Typed.applyRudder left) typedBrig) = -30.
Proof.
  assert (H1 : -30 <= Typed.rudderAngle typedBrig <= 30) by (simpl; lra).
  assert (H2 : -30 <= Legacy.rudderAngle legacyBrig <= 30) by (simpl; lra).
  split; [exact H1|]. split; [exact H2|].
  destruct (rudder_reaches_its_stops 240 typedBrig legacyBrig H1 H2) as [_ H].
  exact (proj1 (H (le_n 240))).
Defined.




(** ** Trimming to the stops *)

Lemma typed_rotateSails_sails (d : Direction) (s : Typed.Ship) :
  Typed.sails (Typed.rotateSails d s) = IdMap.mapValues (trimStep d) (Typed.sails s).
Proof.
  unfold Typed.rotateSails, IdMap.mapValues. cbv zeta. simpl.
  apply map_ext. intros [id sl]. destruct d; reflexivity.
Qed.

Lemma typed_rotateSails_iter (d : Direction) (n : nat) (s : Typed.Ship) :
  Typed.sails (Nat.iter n (Typed.rotateSails d) s)
  = IdMap.mapValues (Nat.iter n (trimStep d)) (Typed.sails s).
Proof.
  induction n as [|n IH].
  - simpl. unfold IdMap.mapValues. rewrite <- (map_id (Typed.sails s)) at 1.
    apply map_ext. intros [id sl]. reflexivity.
  - simpl Nat.iter. rewrite typed_rotateSails_sails, IH.
    unfold IdMap.mapValues. rewrite map_map. apply map_ext. intros [id sl]. reflexivity.
Qed.

Lemma INR_60 : INR 60 = 60.
Proof. rewrite INR_IZR_INZ. reflexivity. Qed.

Lemma trimStep_iter (d : Direction) (n : nat) (sl : SailModule.t) :
  -75 <= SailModule.angle sl <= 75 ->
  -75 <= SailModule.angle (Nat.iter n (trimStep d) sl) <= 75
  /\ SailModule.openness (Nat.iter n (trimStep d) sl) = SailModule.openness sl
  /\ match d with
     | left => SailModule.angle (Nat.iter n (trimStep d) sl)
               <= Rmax (-75) (SailModule.angle sl - 1.25 * INR n)
     | right => Rmin 75 (SailModule.angle sl + 1.25 * INR n)
                <= SailModule.angle (Nat.iter n (trimStep d) sl)
     | center => Rabs (SailModule.angle (Nat.iter n (trimStep d) sl))
                 <= Rmax 0 (Rabs (SailModule.angle sl) - 1.25 * INR n)
     end.
Proof.
  intros Ha. induction n as [|n (IH1 & IH2 & IH3)].
  - simpl. split; [exact Ha|]. split; [reflexivity|]. destruct d; minmax.
  - rewrite S_INR. simpl Nat.iter.
    set (x := Nat.iter n (trimStep d) sl) in *.
    set (k := 1.25 * INR n) in *.
    replace (1.25 * (INR n + 1)) with (k + 1.25) by (unfold k; ring).
    destruct d; unfold trimStep, SailModule.rotate, SailModule.centerAngle.
    + simpl. split; [minmax|]. split; [exact IH2|]. minmax.
    + simpl. split; [minmax|]. split; [exact IH2|]. minmax.
    + destruct (Rlt_dec 0 (SailModule.angle x));
        [|destruct (Rlt_dec (SailModule.angle x) 0)]; simpl;
        (split; [minmax|]); (split; [exact IH2|]); minmax.
Qed.

(** X21.  Held to one side, [rotateSails] brings every sail to its stop at
    75 degrees, and released to the centre it brings every sail back to a
    trim of exactly zero: from trims within the stops, 120 calls to one
    side, or 60 calls to the centre, are enough.  The sails keep their
    names, their order and their openness. *)
Theorem sails_reach_their_stops (n : nat) (d : Direction) (s : Typed.Ship) :
  Forall (fun kv => -75 <= SailModule.angle (snd kv) <= 75) (Typed.sails s) ->
  ((60 <= n)%nat ->
   Forall (fun kv => SailModule.angle (snd kv) = 0)
     (Typed.sails (Nat.iter n (Typed.rotateSails center) s)))
  /\ ((120 <= n)%nat ->
      Forall (fun kv => SailModule.angle (snd kv) = -75)
        (Typed.sails (Nat.iter n (Typed.rotateSails left) s))
      /\ Forall (fun kv => SailModule.angle (snd kv) = 75)
           (Typed.sails (Nat.iter n (Typed.rotateSails right) s)))
  /\ map (fun kv => (fst kv, SailModule.openness (snd kv)))
       (Typed.sails (Nat.iter n (Typed.rotateSails d) s))
     = map (fun kv => (fst kv, SailModule.openness (snd kv))) (Typed.sails s).
Proof.
  intros Hs.
  assert (Hall : forall d' (P : SailModule.t -> Prop),
            (forall sl, -75 <= SailModule.angle sl <= 75 ->
                        P (Nat.iter n (trimStep d') sl)) ->
            Forall (fun kv => P (snd kv))
              (Typed.sails (Nat.iter n (Typed.rotateSails d') s))).
  { intros d' P HP. rewrite typed_rotateSails_iter. unfold IdMap.mapValues.
    induction Hs as [|kv rest Hkv Hrest IH]; simpl; constructor; auto.
    simpl. apply HP, Hkv. }
  split; [|split].
  - intros Hn. apply le_INR in Hn. rewrite INR_60 in Hn.
    apply (Hall center (fun sl => SailModule.angle sl = 0)).
    intros sl Ha. destruct (trimStep_iter center n sl Ha) as (_ & _ & H). minmax.
  - intros Hn. apply le_INR in Hn. rewrite INR_120 in Hn. split.
    + apply (Hall left (fun sl => SailModule.angle sl = -75)).
      intros sl Ha. destruct (trimStep_iter left n sl Ha) as (B & _ & H). minmax.
    + apply (Hall right (fun sl => SailModule.angle sl = 75)).
      intros sl Ha. destruct (trimStep_iter right n sl Ha) as (B & _ & H). minmax.
  - rewrite typed_rotateSails_iter. unfold IdMap.mapValues. rewrite map_map.
    clear Hall. induction Hs as [|kv rest Hkv Hrest IH]; simpl; [reflexivity|].
    f_equal; [|exact IH].
    destruct (trimStep_iter d n (snd kv) Hkv) as (_ & -> & _). reflexivity.
Qed.

Lemma sails_reach_their_stops_witness :
  Forall (fun kv => -75 <= SailModule.angle (snd kv) <= 75) (Typed.sails typedBrig)
  /\ Typed.sails typedBrig <> []
  /\ Forall (fun kv => SailModule.angle (snd kv) = -75)
       (Typed.sails (Nat.iter 120 (Typed.rotateSails left) typedBrig)).
Proof.
  assert (H : Forall (fun kv => -75 <= SailModule.angle (snd kv) <= 75)
                (Typed.sails typedBrig)).
  { constructor; [simpl; lra | constructor]. }
  split; [exact H|]. split; [discriminate|].
  destruct (sails_reach_their_stops 120 left typedBrig H) as (_ & H1 & _).
  exact (proj1 (H1 (le_n 120))).
Defined.

(** ** Mounting modules *)






